(** * go-sharding: the Value codec, the handshake writer, the SQL generation
      loop, the rewriting engine and the session clone

    A shallow embedding of the Go sources

    - [mysql/types/value.go]   (package [types]: [Value] and its codec),
    - the [core] file holding [noneShardingStrategy],
    - [rewriting/engine.go]    (package [rewriting]: [Engine.RewriteLimit]),
    - [gen/sql_gen.go]         (package [gen]: [GenerateSql], [gen]),
    - the [server] files holding [ClientConn] and [Session],

    followed by the properties proved about them.  Go byte slices and the
    strings that are turned into bytes are [list byte]; opaque names (data
    sources, SQL text, map keys) are [string]; a Go function returning
    [(T, error)] returns a pair [T * option error], or a sum where the
    code never returns both; a panic is [None]. *)

From Stdlib Require Import ZArith Lia List Strings.String Strings.Byte.
From Stdlib Require Import DecimalFacts DecimalPos DecimalN.
From stdpp Require Import gmap strings list fin_maps.
Import ListNotations.

Local Open Scope Z_scope.

(** ** Bytes *)

Module Bytes.

(** A byte as the unsigned number Go computes with. *)
Definition val (b : byte) : Z := Z.of_N (Byte.to_N b).

(** [byte(z)]: the conversion of an integer to a byte keeps the low
    eight bits. *)
Definition of_Z (z : Z) : byte :=
  match Byte.of_N (Z.to_N (z mod 256)) with
  | Some b => b
  | None => x00
  end.

(** Equality of bytes is decided by comparing them. *)
#[global] Instance byte_eq_decision : EqDecision byte.
Proof.
  intros x y. destruct (Byte.eqb x y) eqn:E.
  - left. by apply Byte.byte_dec_bl.
  - right. intros ->. by rewrite Byte.byte_dec_lb in E.
Defined.

(** [[]byte("...")] *)
Definition lit (s : string) : list byte := list_byte_of_string s.

(** [bytes.Equal]: equal length and equal contents; a nil slice and an
    empty one are both [[]] here, and are equal for Go too. *)
Fixpoint Equal (a b : list byte) : bool :=
  match a, b with
  | [], [] => true
  | x :: a', y :: b' => Byte.eqb x y && Equal a' b'
  | _, _ => false
  end.

(** [bytes.IndexByte]: the index of the first [c] in [b], or -1 when [b]
    holds none. *)
Fixpoint IndexByte (b : list byte) (c : byte) : Z :=
  match b with
  | [] => -1
  | x :: b' =>
      if Byte.eqb x c then 0
      else let i := IndexByte b' c in
           if i <? 0 then -1 else i + 1
  end.

(** A slice of bytes is a window on an array: [data] are the bytes below
    its length and [spare] those between its length and its capacity.
    [data[lo:]] stops at the length and panics ([None]) unless
    [0 <= lo <= len(data)]. *)
Definition slice_from (data : list byte) (lo : Z) : option (list byte) :=
  if decide (0 <= lo <= Z.of_nat (length data))
  then Some (drop (Z.to_nat lo) data)
  else None.

(** [data[lo:hi]] may reach into the capacity, and panics unless
    [0 <= lo <= hi <= cap(data)]. *)
Definition slice (data spare : list byte) (lo hi : Z) : option (list byte) :=
  if decide (0 <= lo <= hi ∧ hi <= Z.of_nat (length data + length spare))
  then Some (take (Z.to_nat (hi - lo)) (drop (Z.to_nat lo) (data ++ spare)))
  else None.

(** [data[i]] panics unless [0 <= i < len(data)]. *)
Definition index (data : list byte) (i : Z) : option byte :=
  if decide (0 <= i) then data !! Z.to_nat i else None.

End Bytes.

(** ** The part of Go's [strconv] that [value.go] calls

    [strconv] belongs to the Go standard library, not to this repository.
    [ParseUint] and [ParseInt] follow the library's code (Go 1.13 and later:
    base prefixes [0b], [0o], [0x], a bare leading [0] for octal, and
    underscores as digit separators when the base argument is 0);
    [AppendUint] and [AppendInt] in base 10 produce the shortest decimal
    rendering. *)

Module strconv.

Inductive NumError : Type :=
| ErrSyntax
| ErrRange
| ErrBase
| ErrBitSize.

Definition maxUint64 : Z := 2 ^ 64 - 1.

(** [lower(c) = c | ('x' - 'X')] *)
Definition lower (c : Z) : Z := Z.lor c 32.

Definition chr (s : string) : Z :=
  match Bytes.lit s with
  | b :: _ => Bytes.val b
  | [] => 0
  end.

(** [underscoreOK]: underscores must separate digits (the base prefix
    counts as a digit).  [saw] is the last kind of character seen. *)
Inductive Saw : Type := SawStart | SawDigit | SawUnderscore | SawOther.

Definition saw_eqb (a b : Saw) : bool :=
  match a, b with
  | SawStart, SawStart | SawDigit, SawDigit
  | SawUnderscore, SawUnderscore | SawOther, SawOther => true
  | _, _ => false
  end.

Fixpoint underscoreOK_loop (hex : bool) (saw : Saw) (s : list byte) : bool :=
  match s with
  | [] => negb (saw_eqb saw SawUnderscore)
  | b :: rest =>
      let c := Bytes.val b in
      if ((chr "0" <=? c) && (c <=? chr "9"))
         || (hex && (chr "a" <=? lower c) && (lower c <=? chr "f"))
      then underscoreOK_loop hex SawDigit rest
      else if c =? chr "_"
      then if saw_eqb saw SawDigit
           then underscoreOK_loop hex SawUnderscore rest
           else false
      else if saw_eqb saw SawUnderscore
      then false
      else underscoreOK_loop hex SawOther rest
  end.

Definition underscoreOK (s : list byte) : bool :=
  let s :=
    match s with
    | b :: rest =>
        if (Bytes.val b =? chr "-") || (Bytes.val b =? chr "+") then rest else s
    | [] => s
    end in
  match s with
  | b0 :: b1 :: rest =>
      let l := lower (Bytes.val b1) in
      if (Bytes.val b0 =? chr "0")
         && ((l =? chr "b") || (l =? chr "o") || (l =? chr "x"))
      then underscoreOK_loop (l =? chr "x") SawDigit rest
      else underscoreOK_loop false SawStart s
  | _ => underscoreOK_loop false SawStart s
  end.

(** The digit loop of [ParseUint].  [inl (n, underscores)] when every
    byte was consumed, [inr (v, e)] at the first [return v, e]. *)
Fixpoint digits (base0 : bool) (base cutoff maxVal : Z)
         (s : list byte) (n : Z) (underscores : bool)
  : (Z * bool) + (Z * NumError) :=
  match s with
  | [] => inl (n, underscores)
  | b :: rest =>
      let c := Bytes.val b in
      if (c =? chr "_") && base0
      then digits base0 base cutoff maxVal rest n true
      else
        let d :=
          if (chr "0" <=? c) && (c <=? chr "9") then Some (c - chr "0")
          else if (chr "a" <=? lower c) && (lower c <=? chr "z")
          then Some (lower c - chr "a" + 10)
          else None in
        match d with
        | None => inr (0, ErrSyntax)
        | Some d =>
            if base <=? d then inr (0, ErrSyntax)
            else if cutoff <=? n then inr (maxVal, ErrRange)
            else
              let n := n * base in
              let n1 := (n + d) mod 2 ^ 64 in
              if (n1 <? n) || (maxVal <? n1) then inr (maxVal, ErrRange)
              else digits base0 base cutoff maxVal rest n1 underscores
        end
  end.

(** The base and the digits left once a prefix has been picked off. *)
Definition prefix (base : Z) (s : list byte) : option (Z * list byte) :=
  if (2 <=? base) && (base <=? 36) then Some (base, s)
  else if base =? 0 then
    match s with
    | b0 :: rest =>
        if Bytes.val b0 =? chr "0" then
          match rest with
          | b1 :: ((_ :: _) as rest') =>
              let l := lower (Bytes.val b1) in
              if l =? chr "b" then Some (2, rest')
              else if l =? chr "o" then Some (8, rest')
              else if l =? chr "x" then Some (16, rest')
              else Some (8, rest)
          | _ => Some (8, rest)
          end
        else Some (10, s)
    | [] => Some (10, s)
    end
  else None.

Definition ParseUint (s : list byte) (base bitSize : Z) : Z * option NumError :=
  match s with
  | [] => (0, Some ErrSyntax)
  | _ =>
      match prefix base s with
      | None => (0, Some ErrBase)
      | Some (base', s') =>
          if (bitSize <? 0) || (64 <? bitSize) then (0, Some ErrBitSize)
          else
            let bitSize := if bitSize =? 0 then 64 else bitSize in
            let cutoff := maxUint64 / base' + 1 in
            let maxVal := 2 ^ bitSize - 1 in
            match digits (base =? 0) base' cutoff maxVal s' 0 false with
            | inr (v, e) => (v, Some e)
            | inl (n, underscores) =>
                if underscores && negb (underscoreOK s)
                then (0, Some ErrSyntax)
                else (n, None)
            end
      end
  end.

Definition ParseInt (s : list byte) (base bitSize : Z) : Z * option NumError :=
  match s with
  | [] => (0, Some ErrSyntax)
  | b :: rest =>
      let '(neg, s') :=
        if Bytes.val b =? chr "+" then (false, rest)
        else if Bytes.val b =? chr "-" then (true, rest)
        else (false, s) in
      let '(un, err) := ParseUint s' base bitSize in
      match err with
      | Some ErrSyntax => (0, Some ErrSyntax)
      | Some ErrBase => (0, Some ErrBase)
      | Some ErrBitSize => (0, Some ErrBitSize)
      | _ =>
          let bitSize := if bitSize =? 0 then 64 else bitSize in
          let cutoff := 2 ^ (bitSize - 1) in
          if negb neg && (cutoff <=? un) then (cutoff - 1, Some ErrRange)
          else if neg && (cutoff <? un) then (- cutoff, Some ErrRange)
          else (if neg then - un else un, None)
      end
  end.

Fixpoint digits_of_uint (d : Decimal.uint) : list byte :=
  match d with
  | Decimal.Nil => []
  | Decimal.D0 d => Bytes.of_Z 48 :: digits_of_uint d
  | Decimal.D1 d => Bytes.of_Z 49 :: digits_of_uint d
  | Decimal.D2 d => Bytes.of_Z 50 :: digits_of_uint d
  | Decimal.D3 d => Bytes.of_Z 51 :: digits_of_uint d
  | Decimal.D4 d => Bytes.of_Z 52 :: digits_of_uint d
  | Decimal.D5 d => Bytes.of_Z 53 :: digits_of_uint d
  | Decimal.D6 d => Bytes.of_Z 54 :: digits_of_uint d
  | Decimal.D7 d => Bytes.of_Z 55 :: digits_of_uint d
  | Decimal.D8 d => Bytes.of_Z 56 :: digits_of_uint d
  | Decimal.D9 d => Bytes.of_Z 57 :: digits_of_uint d
  end.

(** The number a decimal numeral denotes, read from the left with
    [acc] the number read so far. *)
Fixpoint uint_value (d : Decimal.uint) (acc : Z) : Z :=
  match d with
  | Decimal.Nil => acc
  | Decimal.D0 d => uint_value d (10 * acc)
  | Decimal.D1 d => uint_value d (10 * acc + 1)
  | Decimal.D2 d => uint_value d (10 * acc + 2)
  | Decimal.D3 d => uint_value d (10 * acc + 3)
  | Decimal.D4 d => uint_value d (10 * acc + 4)
  | Decimal.D5 d => uint_value d (10 * acc + 5)
  | Decimal.D6 d => uint_value d (10 * acc + 6)
  | Decimal.D7 d => uint_value d (10 * acc + 7)
  | Decimal.D8 d => uint_value d (10 * acc + 8)
  | Decimal.D9 d => uint_value d (10 * acc + 9)
  end.

(** [strconv.AppendUint(nil, v, 10)] *)
Definition AppendUint (v : Z) : list byte :=
  digits_of_uint (N.to_uint (Z.to_N v)).

(** [strconv.AppendInt(nil, v, 10)] *)
Definition AppendInt (v : Z) : list byte :=
  if v <? 0 then Bytes.of_Z 45 :: AppendUint (- v) else AppendUint v.

End strconv.

(** ** The part of Go's [encoding/base64] that [value.go] calls

    [base64.StdEncoding] is the alphabet of RFC 4648 with [=] as padding.
    An encoder made by [NewEncoder], written to once and closed, writes
    what [Encode] gives for the bytes written: every three bytes become
    four characters, and a last group of one or two bytes is padded. *)

Module base64.

Definition encodeStd : list byte :=
  Bytes.lit "ABCDEFGHIJKLMNOPQRSTUVWXYZabcdefghijklmnopqrstuvwxyz0123456789+/".

Definition StdPadding : byte := x3d.

(** [enc.encode[i]] *)
Definition encode (i : Z) : byte := nth (Z.to_nat i) encodeStd x00.

Fixpoint Encode (src : list byte) : list byte :=
  match src with
  | a :: b :: c :: rest =>
      let val := Z.lor (Z.lor (Z.shiftl (Bytes.val a) 16)
                              (Z.shiftl (Bytes.val b) 8))
                       (Bytes.val c) in
      [encode (Z.land (Z.shiftr val 18) 63);
       encode (Z.land (Z.shiftr val 12) 63);
       encode (Z.land (Z.shiftr val 6) 63);
       encode (Z.land val 63)] ++ Encode rest
  | [a; b] =>
      let val := Z.lor (Z.shiftl (Bytes.val a) 16) (Z.shiftl (Bytes.val b) 8) in
      [encode (Z.land (Z.shiftr val 18) 63);
       encode (Z.land (Z.shiftr val 12) 63);
       encode (Z.land (Z.shiftr val 6) 63);
       StdPadding]
  | [a] =>
      let val := Z.shiftl (Bytes.val a) 16 in
      [encode (Z.land (Z.shiftr val 18) 63);
       encode (Z.land (Z.shiftr val 12) 63);
       StdPadding; StdPadding]
  | [] => []
  end.

End base64.

(** ** Package [types]: [mysql/types/value.go] *)

Module types.

(** Modelled from the spec: the [MySqlType] enumeration, declared in a
    file of package [types] that is not under src/.  The constructors are
    the type codes the spec lists for [Value]; [value.go] itself names
    [Null], [Int8], [Int32], [Int64], [Uint32], [Uint64], [Float32],
    [Float64], [Decimal], [VarChar], [VarBinary], [Bit], [Datetime] and
    [Expression]. *)
Inductive MySqlType : Type :=
| Null
| Int8 | Int16 | Int24 | Int32 | Int64
| Uint8 | Uint16 | Uint24 | Uint32 | Uint64
| Float32 | Float64 | Decimal
| VarChar | VarBinary | Text | Blob | Bit
| Date | Datetime | Timestamp | Time | Year
| Enum | Set_ | Json
| Expression | TypeTuple.

#[global] Instance MySqlType_eq_dec : EqDecision MySqlType.
Proof. solve_decision. Defined.

(** The classification functions [IsSigned], [IsUnsigned], [IsFloat] and
    [IsQuoted] of package [types] are declared in the same missing file;
    [value.go] is embedded over any such classification. *)
Class TypeFlags : Type := {
  IsSigned : MySqlType -> bool;
  IsUnsigned : MySqlType -> bool;
  IsFloat : MySqlType -> bool;
  IsQuoted : MySqlType -> bool
}.

(** Modelled from the spec: a classification that follows section 4.1:
    signed and unsigned integer types, float types, and the quoted types
    VarChar, VarBinary, Text, Blob, Bit, Enum, Set, Date, Time, Datetime,
    Timestamp and Json.  [Bit] is left out of [IsQuoted] because
    [NewValue] and [EncodeSQL] test it next to [IsQuoted].  The spec puts
    [Year], [Expression] and [TypeTuple] in none of the classes. *)
Definition spec_flags : TypeFlags := {|
  IsSigned t :=
    match t with Int8 | Int16 | Int24 | Int32 | Int64 => true | _ => false end;
  IsUnsigned t :=
    match t with Uint8 | Uint16 | Uint24 | Uint32 | Uint64 => true | _ => false end;
  IsFloat t :=
    match t with Float32 | Float64 => true | _ => false end;
  IsQuoted t :=
    match t with
    | VarChar | VarBinary | Text | Blob | Enum | Set_
    | Date | Time | Datetime | Timestamp | Json => true
    | _ => false
    end
|}.

Inductive error : Type :=
| NumError (e : strconv.NumError)
| FloatSyntaxError
| InvalidTypeError (typ : MySqlType)
| ErrIncompatibleTypeCast.

(** [type Value struct { ValueType MySqlType; Value []byte }]; the field
    [Value] is [Val] here, its name being taken by the record. *)
Record Value : Type := mkValue {
  ValueType : MySqlType;
  Val : list byte
}.

(** [NULL = Value{}]: the zero [Value].  The zero [MySqlType] is [Null],
    the first type code; a nil byte slice is [[]]. *)
Definition NULL : Value := {| ValueType := Null; Val := [] |}.

(** [DontEscape = byte(255)] *)
Definition DontEscape : byte := xff.

Definition nullstr : list byte := Bytes.lit "null".

Definition MakeTrusted (typ : MySqlType) (val : list byte) : Value :=
  if decide (typ = Null) then NULL
  else {| ValueType := typ; Val := val |}.

Section WithFlags.
Context {flags : TypeFlags}.

(** [strconv.ParseFloat(s, 64)] reads IEEE-754 text; only whether it
    fails matters to [NewValue]. *)
Variable ParseFloat_fails : list byte -> bool.

Definition NewValue (typ : MySqlType) (val : list byte) : Value * option error :=
  if IsSigned typ then
    match strconv.ParseInt val 0 64 with
    | (_, Some err) => (NULL, Some (NumError err))
    | (_, None) => (MakeTrusted typ val, None)
    end
  else if IsUnsigned typ then
    match strconv.ParseUint val 0 64 with
    | (_, Some err) => (NULL, Some (NumError err))
    | (_, None) => (MakeTrusted typ val, None)
    end
  else if IsFloat typ || bool_decide (typ = Decimal) then
    if ParseFloat_fails val then (NULL, Some FloatSyntaxError)
    else (MakeTrusted typ val, None)
  else if IsQuoted typ || bool_decide (typ = Bit) || bool_decide (typ = Null) then
    (MakeTrusted typ val, None)
  else (NULL, Some (InvalidTypeError typ)).

End WithFlags.

Definition NewInt64 (v : Z) : Value := MakeTrusted Int64 (strconv.AppendInt v).
Definition NewUint64 (v : Z) : Value := MakeTrusted Uint64 (strconv.AppendUint v).
Definition NewVarChar (v : list byte) : Value := MakeTrusted VarChar v.
Definition NewVarBinary (v : list byte) : Value := MakeTrusted VarBinary v.

Definition NewIntegral (val : list byte) : Value * option error :=
  match strconv.ParseInt val 0 64 with
  | (signed, None) => (MakeTrusted Int64 (strconv.AppendInt signed), None)
  | (_, Some _) =>
      match strconv.ParseUint val 0 64 with
      | (_, Some err) => ({| ValueType := Null; Val := [] |}, Some (NumError err))
      | (unsigned, None) => (MakeTrusted Uint64 (strconv.AppendUint unsigned), None)
      end
  end.

(** [encodeRef]: the Go map literal, as its list of entries. *)
Definition encodeRef : list (byte * byte) :=
  [ (x00, x30)    (* 0x00 -> '0' *)
  ; (x27, x27)    (* single quote *)
  ; (x22, x22)    (* double quote *)
  ; (x08, x62)    (* backspace -> 'b' *)
  ; (x0a, x6e)    (* newline -> 'n' *)
  ; (x0d, x72)    (* carriage return -> 'r' *)
  ; (x09, x74)    (* tab -> 't' *)
  ; (x1a, x5a)    (* 26, ctl-Z -> 'Z' *)
  ; (x5c, x5c)    (* backslash *)
  ].

(** [to, ok := encodeRef[k]] *)
Fixpoint encodeRef_lookup (m : list (byte * byte)) (k : byte) : option byte :=
  match m with
  | [] => None
  | (k', v) :: m' => if Byte.eqb k' k then Some v else encodeRef_lookup m' k
  end.

(** [SQLEncodeMap] as [init] leaves it: every entry [DontEscape], then
    the entries of [encodeRef] written over it. *)
Definition SQLEncodeMap (i : byte) : byte :=
  match encodeRef_lookup encodeRef i with
  | Some to => to
  | None => DontEscape
  end.

(** The body of the loop of [encodeBytesSQL]: what is written to [buf]
    for one byte. *)
Definition encodeByteSQL (ch : byte) : list byte :=
  let encodedChar := SQLEncodeMap ch in
  if Byte.eqb encodedChar DontEscape then [ch]
  else [x5c; encodedChar].

(** A [BinWriter] is an in-memory buffer: [Write] appends and does not
    fail, so the functions below return the buffer after the write. *)
Definition encodeBytesSQL (val : list byte) (b : list byte) : list byte :=
  let buf := [x27] in
  let buf := fold_left (fun buf ch => buf ++ encodeByteSQL ch) val buf in
  let buf := buf ++ [x27] in
  b ++ buf.

(** [fmt.Fprintf(b, "%08b", ch)]: eight binary digits, high bit first. *)
Definition bits08 (ch : byte) : list byte :=
  map (fun i => if Z.testbit (Bytes.val ch) i then x31 else x30)
      [7; 6; 5; 4; 3; 2; 1; 0].

Definition encodeBytesSQLBits (val : list byte) (b : list byte) : list byte :=
  let b := b ++ Bytes.lit "b'" in
  let b := fold_left (fun b ch => b ++ bits08 ch) val b in
  b ++ Bytes.lit "'".

Section WithFlags.
Context {flags : TypeFlags}.

Definition EncodeSQL (v : Value) (b : list byte) : list byte :=
  if bool_decide (ValueType v = Null) then b ++ nullstr
  else if IsQuoted (ValueType v) then encodeBytesSQL (Val v) b
  else if bool_decide (ValueType v = Bit) then encodeBytesSQLBits (Val v) b
  else b ++ Val v.

End WithFlags.

(** The dynamic type and value of an [interface{}] argument, as far as
    [Equals] can tell them apart: a [*Value] (nil or pointing to a
    [Value]), a [Value] held by value, the nil interface, or a value of
    any other type (of which only a tag is kept). *)
Inductive iface : Type :=
| IfacePtrValue (p : option Value)
| IfaceValue (v : Value)
| IfaceNil
| IfaceOther (tag : string).

(** [func (v *Value) Equals(value interface{}) bool]; [None] is the
    nil-pointer panic of [v.ValueType] or [vv.ValueType]. *)
Definition Equals (v : option Value) (value : iface) : option bool :=
  match value with
  | IfacePtrValue vv =>
      match v, vv with
      | Some v, Some vv =>
          Some (bool_decide (ValueType v = ValueType vv)
                && Bytes.Equal (Val v) (Val vv))
      | _, _ => None
      end
  | _ => Some false
  end.

(** *** The tables as [init] builds them

    [SQLEncodeMap] and [SQLDecodeMap] are arrays of 256 bytes, all zero
    before [init] runs; the pair below is (encode table, decode table).
    The first loop writes [DontEscape] everywhere. *)
Definition init_fill (t : list byte * list byte) (i : nat)
  : list byte * list byte :=
  (<[i := DontEscape]> (fst t), <[i := DontEscape]> (snd t)).

(** The body of the second loop: [SQLEncodeMap[byte(i)] = to] and
    [SQLDecodeMap[to] = byte(i)] when [encodeRef] has [byte(i)]. *)
Definition init_entry (t : list byte * list byte) (i : nat)
  : list byte * list byte :=
  let k := Bytes.of_Z (Z.of_nat i) in
  match encodeRef_lookup encodeRef k with
  | Some to =>
      (<[Z.to_nat (Bytes.val k) := to]> (fst t),
       <[Z.to_nat (Bytes.val to) := k]> (snd t))
  | None => t
  end.

Definition init : list byte * list byte :=
  let t := (replicate 256 x00, replicate 256 x00) in
  let t := fold_left init_fill (seq 0 256) t in
  fold_left init_entry (seq 0 256) t.

(** [SQLDecodeMap[c]] once [init] has run. *)
Definition SQLDecodeMap (c : byte) : byte :=
  match snd init !! Z.to_nat (Bytes.val c) with
  | Some b => b
  | None => x00
  end.

(** *** The 7-bit encoding *)

Definition encodeBytesASCII (val : list byte) (b : list byte) : list byte :=
  let buf := [x27] in
  let buf := buf ++ base64.Encode val in
  let buf := buf ++ [x27] in
  b ++ buf.

Section WithFlags.
Context {flags : TypeFlags}.

Definition EncodeASCII (v : Value) (b : list byte) : list byte :=
  if bool_decide (ValueType v = Null) then b ++ nullstr
  else if IsQuoted (ValueType v) || bool_decide (ValueType v = Bit)
  then encodeBytesASCII (Val v) b
  else b ++ Val v.

End WithFlags.

(** *** The other constructors and the conversions *)

(** [int64(v)] and [uint64(v)] keep the number, so the constructors for
    the narrower types render the number they are given. *)
Definition NewInt8 (v : Z) : Value := MakeTrusted Int8 (strconv.AppendInt v).
Definition NewInt32 (v : Z) : Value := MakeTrusted Int32 (strconv.AppendInt v).
Definition NewUint32 (v : Z) : Value := MakeTrusted Uint32 (strconv.AppendUint v).

Definition ToBytes (v : Value) : list byte :=
  if bool_decide (ValueType v = Expression) then [] else Val v.

Definition Len (v : Value) : nat := length (Val v).

Definition ToString (v : Value) : list byte :=
  if bool_decide (ValueType v = Expression) then [] else Val v.

Definition IsNull (v : Value) : bool := bool_decide (ValueType v = Null).

Section Conversions.
(** [IsIntegral] is declared with the other classification functions,
    outside src/. *)
Variable IsIntegral : MySqlType -> bool.

Definition ToInt64 (v : Value) : Z * option error :=
  if negb (IsIntegral (ValueType v)) then (0, Some ErrIncompatibleTypeCast)
  else
    match strconv.ParseInt (ToString v) 10 64 with
    | (n, Some err) => (n, Some (NumError err))
    | (n, None) => (n, None)
    end.

Definition ToUint64 (v : Value) : Z * option error :=
  if negb (IsIntegral (ValueType v)) then (0, Some ErrIncompatibleTypeCast)
  else
    match strconv.ParseUint (ToString v) 10 64 with
    | (n, Some err) => (n, Some (NumError err))
    | (n, None) => (n, None)
    end.

Definition ToBool (v : Value) : bool * option error :=
  match ToInt64 v with
  | (_, Some err) => (false, Some err)
  | (i, None) =>
      if i =? 0 then (false, None)
      else if i =? 1 then (true, None)
      else (false, Some ErrIncompatibleTypeCast)
  end.

End Conversions.

(** Modelled from the spec: the classification [IsIntegral], declared
    outside src/; section 4.1 has the conversions to integers require an
    integral type, and the integral types are the signed and the unsigned
    integer types. *)
Definition spec_IsIntegral (t : MySqlType) : bool :=
  @IsSigned spec_flags t || @IsUnsigned spec_flags t.

End types.

(** ** Reading what the codec writes

    The encoders of [value.go] have no decoders in the repository; the two
    readers below say how the text they write is meant to be read. *)

Module SqlText.

(** The body of a quoted literal as MySQL's lexer reads it: a backslash
    takes the byte after it, whatever it is.  The body is well escaped
    when none of the bytes the encode table escapes stands in it without
    a backslash before it, and it does not end on a backslash that takes
    nothing.  [esc] tells that the byte before was such a backslash. *)
Fixpoint well_escaped (esc : bool) (body : list byte) : bool :=
  match body with
  | [] => negb esc
  | c :: rest =>
      if esc then well_escaped false rest
      else if Byte.eqb c x5c then well_escaped true rest
      else if Byte.eqb (types.SQLEncodeMap c) types.DontEscape
      then well_escaped false rest
      else false
  end.

(** The number a run of binary digits denotes, high digit first. *)
Definition binary_value (digits : list byte) : Z :=
  fold_left (fun acc d => 2 * acc + (Bytes.val d - 48)) digits 0.

End SqlText.

(** ** Package [core]: the builtin [None] sharding strategy *)

Module core.

Section Strategy.
(** [ShardingValues] and the error type are declared elsewhere in the
    package; the strategy below inspects neither. *)
Variables ShardingValues error : Type.

(** The [ShardingStrategy] interface, read off the method set of
    [noneShardingStrategy].  A [[]string] is a [list string] ([nil] is
    the empty list), [values *ShardingValues] an optional value. *)
Class ShardingStrategy (T : Type) : Type := {
  GetShardingColumns : T -> list string;
  IsScalarValueSupported : T -> bool;
  IsRangeValueSupported : T -> bool;
  Shard : T -> list string -> option ShardingValues
          -> list string * option error
}.

(** [type noneShardingStrategy struct {}] *)
Inductive noneShardingStrategy : Type := noneShardingStrategy_struct.

#[export] Instance noneShardingStrategy_methods
  : ShardingStrategy noneShardingStrategy := {|
  GetShardingColumns _ := [];
  IsScalarValueSupported _ := false;
  IsRangeValueSupported _ := false;
  Shard _ sources _ := (sources, None)
|}.

(** [var NoneShardingStrategy ShardingStrategy = &noneShardingStrategy{}] *)
Definition NoneShardingStrategy : noneShardingStrategy :=
  noneShardingStrategy_struct.

End Strategy.

Arguments GetShardingColumns {ShardingValues error T _}.
Arguments IsScalarValueSupported {ShardingValues error T _}.
Arguments IsRangeValueSupported {ShardingValues error T _}.
Arguments Shard {ShardingValues error T _}.

End core.

(** ** Package [rewriting]: [Engine.RewriteLimit] *)

Module rewriting.

(** Modelled from the spec: [explain.Context] and the value returned by
    its [LimitLookup()], both declared in package [explain], which is not
    under src/.  The spec's [SqlExplain] holds [sharded_tables], keyed by
    (schema, table), and [limit_lookup : {has_limit, has_offset, offset,
    count}]. *)
Record LimitLookup : Type := {
  HasLimit : bool;
  HasOffset : bool;
  Offset : Z;
  Count : Z
}.

Record Context : Type := {
  ShardedTables : list (string * string);
  GetLimitLookup : LimitLookup
}.

Section Engine.
(** [*ast.Limit] (the parser's node, which [RewriteLimit] never reads),
    [*LimitWriter] and the error type. *)
Variables ast_Limit LimitWriter error : Type.

(** [NewLimitWriter] is declared in a file of package [rewriting] that
    is not under src/. *)
Variable NewLimitWriter : Context -> LimitWriter + error.

(** [explain.RewriteLimitResult]: either the package variable
    [NoneRewriteLimitResult] or [ResultFromLimit(writer)]. *)
Inductive RewriteLimitResult : Type :=
| NoneRewriteLimitResult
| ResultFromLimit (writer : LimitWriter).

(** [(result, nil)] is [inl result]; [(nil, err)] is [inr err]. *)
Definition RewriteLimit (limit : ast_Limit) (explainContext : Context)
  : RewriteLimitResult + error :=
  let lookup := GetLimitLookup explainContext in
  if HasLimit lookup && HasOffset lookup then
    match NewLimitWriter explainContext with
    | inr err => inr err
    | inl writer => inl (ResultFromLimit writer)
    end
  else inl NoneRewriteLimitResult.

End Engine.

Arguments NoneRewriteLimitResult {LimitWriter}.
Arguments ResultFromLimit {LimitWriter}.
Arguments RewriteLimit {ast_Limit LimitWriter error}.

Section Rewriters.
(** The parser's nodes [*ast.TableSource], [*ast.TableName],
    [*ast.ColumnNameExpr], [*ast.PatternInExpr] and [*ast.BetweenExpr], the
    sharding table the finders return, the writers and the error type of
    the collaborators: all declared outside src/. *)
Variables TableSource TableName ColumnNameExpr PatternInExpr BetweenExpr : Type.
Variables ShardingTable NodeWriter ExprWriter error : Type.

(** What a type assertion finds in the interface fields [table.Source],
    [patternIn.Expr] and [between.Expr]: the node type asked for, or
    something else, of which the name of its type is kept (a nil
    interface among them). *)
Inductive ResultSetNode : Type :=
| SourceTableName (tableName : TableName)
| SourceOther (goType : string).

Inductive ExprNode : Type :=
| ExprColumnName (columnName : ColumnNameExpr)
| ExprOther (goType : string).

Variable Source : TableSource -> ResultSetNode.
Variable PatternIn_Expr : PatternInExpr -> ExprNode.
Variable Between_Expr : BetweenExpr -> ExprNode.

(** The finders and the writer constructors, declared in files of
    package [rewriting] that are not under src/.  A finder returns
    [(sd, ok, err)]. *)
Variable FindShardingTable
  : TableName -> Context -> ShardingTable * bool * option error.
Variable FindShardingTableByColumn
  : ColumnNameExpr -> Context -> bool -> ShardingTable * bool * option error.
Variable NewTableNameWriter : TableName -> Context -> NodeWriter + error.
Variable NewColumnNameWriter : ColumnNameExpr -> Context -> ExprWriter + error.
Variable NewPatternInWriter
  : PatternInExpr -> ShardingTable -> Context -> ExprWriter + error.
Variable NewBetweenWriter : BetweenExpr -> Context -> ExprWriter + error.

Inductive RewriteNodeResult : Type :=
| NoneRewriteNodeResult
| ResultFromNode (writer : NodeWriter) (sd : ShardingTable).

Inductive RewriteExprResult : Type :=
| NoneRewriteExprNodeResult
| ResultFromExprNode (writer : ExprWriter) (sd : ShardingTable).

(** The errors the engine builds itself, and those it passes on. *)
Inductive rewrite_error : Type :=
| TableSourceNotTableName (goType : string)
| PatternInRequiresColumnName
| BetweenRequiresColumnName
| Passed (err : error).

Definition RewriteTable (table : TableSource) (explainContext : Context)
  : RewriteNodeResult + rewrite_error :=
  match Source table with
  | SourceOther goType => inr (TableSourceNotTableName goType)
  | SourceTableName tableName =>
      let '(sd, ok, fe) := FindShardingTable tableName explainContext in
      match fe with
      | Some fe => inr (Passed fe)
      | None =>
          if ok then
            match NewTableNameWriter tableName explainContext with
            | inl writer => inl (ResultFromNode writer sd)
            | inr err => inr (Passed err)
            end
          else inl NoneRewriteNodeResult
      end
  end.

Definition RewriteField (columnName : ColumnNameExpr) (explainContext : Context)
  : RewriteExprResult + rewrite_error :=
  let '(sd, ok, err) := FindShardingTableByColumn columnName explainContext false in
  match err with
  | Some err => inr (Passed err)
  | None =>
      if ok then
        match NewColumnNameWriter columnName explainContext with
        | inl writer => inl (ResultFromExprNode writer sd)
        | inr e => inr (Passed e)
        end
      else inl NoneRewriteExprNodeResult
  end.

Definition RewriteColumn (columnName : ColumnNameExpr) (explainContext : Context)
  : RewriteExprResult + rewrite_error :=
  let '(sd, ok, err) := FindShardingTableByColumn columnName explainContext true in
  match err with
  | Some err => inr (Passed err)
  | None =>
      if ok then
        match NewColumnNameWriter columnName explainContext with
        | inl writer => inl (ResultFromExprNode writer sd)
        | inr e => inr (Passed e)
        end
      else inl NoneRewriteExprNodeResult
  end.

Definition RewritePatterIn (patternIn : PatternInExpr) (explainContext : Context)
  : RewriteExprResult + rewrite_error :=
  match PatternIn_Expr patternIn with
  | ExprOther _ => inr PatternInRequiresColumnName
  | ExprColumnName columnNameExpr =>
      let '(sd, ok, err) :=
        FindShardingTableByColumn columnNameExpr explainContext true in
      match err with
      | Some err => inr (Passed err)
      | None =>
          if ok then
            match NewPatternInWriter patternIn sd explainContext with
            | inl writer => inl (ResultFromExprNode writer sd)
            | inr e => inr (Passed e)
            end
          else inl NoneRewriteExprNodeResult
      end
  end.

Definition RewriteBetween (between : BetweenExpr) (explainContext : Context)
  : RewriteExprResult + rewrite_error :=
  match Between_Expr between with
  | ExprOther _ => inr BetweenRequiresColumnName
  | ExprColumnName columnNameExpr =>
      let '(sd, ok, err) :=
        FindShardingTableByColumn columnNameExpr explainContext true in
      match err with
      | Some err => inr (Passed err)
      | None =>
          if ok then
            match NewBetweenWriter between explainContext with
            | inl writer => inl (ResultFromExprNode writer sd)
            | inr e => inr (Passed e)
            end
          else inl NoneRewriteExprNodeResult
      end
  end.

End Rewriters.

Arguments SourceTableName {TableName}.
Arguments SourceOther {TableName}.
Arguments ExprColumnName {ColumnNameExpr}.
Arguments ExprOther {ColumnNameExpr}.
Arguments NoneRewriteNodeResult {ShardingTable NodeWriter}.
Arguments ResultFromNode {ShardingTable NodeWriter}.
Arguments NoneRewriteExprNodeResult {ShardingTable ExprWriter}.
Arguments ResultFromExprNode {ShardingTable ExprWriter}.
Arguments TableSourceNotTableName {error}.
Arguments PatternInRequiresColumnName {error}.
Arguments BetweenRequiresColumnName {error}.
Arguments Passed {error}.
Arguments RewriteTable {TableSource TableName ShardingTable NodeWriter error}.
Arguments RewriteField {ColumnNameExpr ShardingTable ExprWriter error}.
Arguments RewriteColumn {ColumnNameExpr ShardingTable ExprWriter error}.
Arguments RewritePatterIn {ColumnNameExpr PatternInExpr ShardingTable ExprWriter error}.
Arguments RewriteBetween {ColumnNameExpr BetweenExpr ShardingTable ExprWriter error}.

(** Modelled from the spec: [LimitWriter] and [NewLimitWriter], not under
    src/.  "[LimitWriter(ctx)] emits [LIMIT 0, offset+count]": the writer
    keeps the two numbers it emits, and building it does not fail. *)
Record SpecLimitWriter : Type := {
  EmitOffset : Z;
  EmitCount : Z
}.

Definition spec_NewLimitWriter (ctx : Context) : SpecLimitWriter + string :=
  inl {| EmitOffset := 0;
         EmitCount := Offset (GetLimitLookup ctx) + Count (GetLimitLookup ctx) |}.

End rewriting.

(** ** Package [gen]: [gen/sql_gen.go] *)

Module gen.

(** [UsageRaw] and [UsageShard] are constants of package [gen]. *)
Inductive UsageKind : Type := UsageRaw | UsageShard.

Section Gen.
(** [*explain.SqlExplain], [*genRuntime], [[]*types.BindVariable], the
    collection returned by [RestoreShardingValues] and the error type:
    all declared outside src/. *)
Variables SqlExplain genRuntime BindVariables Values error : Type.

Record ScatterCommand : Type := {
  DataSource : string;
  SqlCommand : string;
  Vars : BindVariables
}.

Record SqlGenResult : Type := {
  Usage : UsageKind;
  Commands : list ScatterCommand
}.

(** The collaborators of [GenerateSql], none of them under src/.  A
    call that returns [(x, err)] is a sum; [expl] and [runtime] are
    pointers, so the methods that write through them return the new
    state: [SetVars] the explain, [Next] the runtime, [RestoreSql] the
    runtime it is handed (it rebinds the variables of the current
    shard). *)
Variable RestoreShardingValues : SqlExplain -> BindVariables -> Values + error.
Variable len : Values -> nat.
Variable NewRuntime : string -> SqlExplain -> Values -> BindVariables
                      -> genRuntime + error.
Variable SetVars : SqlExplain -> BindVariables -> SqlExplain * option error.
Variable Next : genRuntime -> bool * genRuntime.
Variable RestoreSql : SqlExplain -> genRuntime -> (string + error) * genRuntime.
Variable currentDb : genRuntime -> string.
Variable GetCurrentBindVariables : genRuntime -> BindVariables.

(** The [for] loop of [gen].  Go's loop runs until [Next] answers
    false; [fuel] bounds the number of iterations and [None] is a run
    that needs more of it. *)
Fixpoint gen_loop (fuel : nat) (sqlExplain : SqlExplain) (runtime : genRuntime)
         (commands : list ScatterCommand) : option (SqlGenResult + error) :=
  match fuel with
  | O => None
  | S fuel' =>
      let '(more, runtime) := Next runtime in
      if more then
        match RestoreSql sqlExplain runtime with
        | (inr restErr, _) => Some (inr restErr)
        | (inl sql, runtime) =>
            let cmd := {| DataSource := currentDb runtime;
                          SqlCommand := sql;
                          Vars := GetCurrentBindVariables runtime |} in
            gen_loop fuel' sqlExplain runtime (commands ++ [cmd])
        end
      else Some (inl {| Usage := UsageShard; Commands := commands |})
  end.

Definition gen (fuel : nat) (sqlExplain : SqlExplain) (runtime : genRuntime)
  : option (SqlGenResult + error) :=
  gen_loop fuel sqlExplain runtime [].

Definition GenerateSql (fuel : nat) (defaultDataSource : string)
           (expl : SqlExplain) (bindVariables : BindVariables)
  : option (SqlGenResult + error) :=
  match RestoreShardingValues expl bindVariables with
  | inr vErr => Some (inr vErr)
  | inl values =>
      if Nat.eqb (len values) 0 then
        Some (inl {| Usage := UsageRaw; Commands := [] |})
      else
        match NewRuntime defaultDataSource expl values bindVariables with
        | inr err => Some (inr err)
        | inl runtime =>
            match SetVars expl bindVariables with
            | (_, Some err) => Some (inr err)
            | (expl, None) => gen fuel expl runtime
            end
        end
  end.

(** The run of the cursor that [gen] follows: [run e rt cmds] when the
    successive advances of [rt], each followed by a successful
    [RestoreSql], produce [cmds] and the next advance fails. *)
Inductive run (e : SqlExplain) : genRuntime -> list ScatterCommand -> Prop :=
| run_exhausted rt rt' :
    Next rt = (false, rt') ->
    run e rt []
| run_advance rt rt1 sql rt2 cmds :
    Next rt = (true, rt1) ->
    RestoreSql e rt1 = (inl sql, rt2) ->
    run e rt2 cmds ->
    run e rt ({| DataSource := currentDb rt2;
                 SqlCommand := sql;
                 Vars := GetCurrentBindVariables rt2 |} :: cmds).

(** The run that breaks off: [failed_run e rt k err] when [k] advances of
    the cursor are each followed by a successful [RestoreSql] and the
    restore after the next advance fails with [err]. *)
Inductive failed_run (e : SqlExplain) : genRuntime -> nat -> error -> Prop :=
| failed_now rt rt1 err rt2 :
    Next rt = (true, rt1) ->
    RestoreSql e rt1 = (inr err, rt2) ->
    failed_run e rt 0 err
| failed_later rt rt1 sql rt2 k err :
    Next rt = (true, rt1) ->
    RestoreSql e rt1 = (inl sql, rt2) ->
    failed_run e rt2 k err ->
    failed_run e rt (S k) err.

End Gen.

Arguments Build_ScatterCommand {BindVariables}.
Arguments DataSource {BindVariables}.
Arguments SqlCommand {BindVariables}.
Arguments Vars {BindVariables}.
Arguments Build_SqlGenResult {BindVariables}.
Arguments Usage {BindVariables}.
Arguments Commands {BindVariables}.
Arguments gen_loop {SqlExplain genRuntime BindVariables error}.
Arguments gen {SqlExplain genRuntime BindVariables error}.
Arguments GenerateSql {SqlExplain genRuntime BindVariables Values error}.
Arguments run {SqlExplain genRuntime BindVariables error}.
Arguments failed_run {SqlExplain genRuntime error}.

(** Modelled from the spec: a [genRuntime] and an explain to run
    [GenerateSql] on, neither under src/.  The runtime is the spec's
    "iterator over destination coordinates": the coordinates still to
    visit and the current one; [Next] moves to the next coordinate and
    keeps answering false once they are used up.  The explain is the list
    of coordinates its sharding values resolve to; restoring SQL for a
    coordinate fails when the coordinate's statement is empty (the spec's
    [EmptyInList]). *)
Module Spec.

Record Coordinate : Type := {
  CoordDb : string;
  CoordSql : string;
  CoordVars : list string
}.

Record Runtime : Type := {
  Pending : list Coordinate;
  Current : option Coordinate
}.

Definition Explain : Type := list Coordinate.

Definition RestoreShardingValues (e : Explain) (vars : list string)
  : list Coordinate + string := inl e.

Definition NewRuntime (defaultDataSource : string) (e : Explain)
           (values : list Coordinate) (vars : list string)
  : Runtime + string :=
  inl {| Pending := values; Current := None |}.

Definition SetVars (e : Explain) (vars : list string)
  : Explain * option string := (e, None).

Definition Next (rt : Runtime) : bool * Runtime :=
  match Pending rt with
  | [] => (false, rt)
  | c :: rest => (true, {| Pending := rest; Current := Some c |})
  end.

Definition RestoreSql (e : Explain) (rt : Runtime)
  : (string + string) * Runtime :=
  match Current rt with
  | Some c =>
      if String.eqb (CoordSql c) EmptyString
      then (inr "EmptyInList"%string, rt)
      else (inl (CoordSql c), rt)
  | None => (inr "no current coordinate"%string, rt)
  end.

Definition currentDb (rt : Runtime) : string :=
  match Current rt with Some c => CoordDb c | None => EmptyString end.

Definition GetCurrentBindVariables (rt : Runtime) : list string :=
  match Current rt with Some c => CoordVars c | None => [] end.

Definition GenerateSql :=
  gen.GenerateSql RestoreShardingValues (@List.length Coordinate)
    NewRuntime SetVars Next RestoreSql currentDb GetCurrentBindVariables.

End Spec.

End gen.

(** ** Package [mysql]: what the handshake writers use of it *)

Module mysql.

(** Modelled from the spec: the constants [mysql.ProtocolVersion] and
    [mysql.AUTH_CACHING_SHA2_PASSWORD], declared in package [mysql], which
    is not under src/: the protocol version byte is 10 and the default
    plugin is caching_sha2_password. *)
Definition ProtocolVersion : byte := Bytes.of_Z 10.
Definition AUTH_CACHING_SHA2_PASSWORD : list byte :=
  Bytes.lit "caching_sha2_password".

(** Modelled from the spec: the buffer writers of package [mysql], not
    under src/ (section 4.2: write [u8], [u16] LE, [u32] LE,
    null-terminated string).  Each writes into [data] from [pos] on and
    returns the buffer and the position after the bytes written; a write
    past the end of the buffer panics ([None]). *)
Definition write_at (data : list byte) (pos : nat) (src : list byte)
  : option (list byte * nat) :=
  if decide (pos + length src ≤ length data)%nat
  then Some (take pos data ++ src ++ drop (pos + length src) data,
             (pos + length src)%nat)
  else None.

Definition WriteByte (data : list byte) (pos : nat) (value : byte) :=
  write_at data pos [value].

Definition WriteUint16 (data : list byte) (pos : nat) (value : Z) :=
  write_at data pos [Bytes.of_Z value; Bytes.of_Z (Z.shiftr value 8)].

Definition WriteUint32 (data : list byte) (pos : nat) (value : Z) :=
  write_at data pos
    [Bytes.of_Z value; Bytes.of_Z (Z.shiftr value 8);
     Bytes.of_Z (Z.shiftr value 16); Bytes.of_Z (Z.shiftr value 24)].

Definition WriteNullString (data : list byte) (pos : nat) (value : list byte) :=
  write_at data pos (value ++ [x00]).

Definition WriteZeroes (data : list byte) (pos : nat) (len : nat) :=
  write_at data pos (replicate len x00).

Definition LenNullString (value : list byte) : nat := (length value + 1)%nat.

Definition WriteBytes (data : list byte) (pos : nat) (value : list byte) :=
  write_at data pos value.

(** Modelled from the spec: the length-encoded integer of section 4.2
    (one byte below 251, else the prefix 0xFC, 0xFD or 0xFE followed by
    two, three or eight bytes, low byte first), the size
    [mysql.LenEncIntSize] gives for it (1, 3, 4 or 9), and the writers
    [mysql.WriteLenEncInt] and [mysql.WriteLenEncString]; none of them
    under src/. *)
Definition LenEncInt (i : Z) : list byte :=
  if i <? 251 then [Bytes.of_Z i]
  else if i <? 2 ^ 16 then [xfc; Bytes.of_Z i; Bytes.of_Z (Z.shiftr i 8)]
  else if i <? 2 ^ 24 then
    [xfd; Bytes.of_Z i; Bytes.of_Z (Z.shiftr i 8); Bytes.of_Z (Z.shiftr i 16)]
  else
    [xfe; Bytes.of_Z i; Bytes.of_Z (Z.shiftr i 8); Bytes.of_Z (Z.shiftr i 16);
     Bytes.of_Z (Z.shiftr i 24); Bytes.of_Z (Z.shiftr i 32);
     Bytes.of_Z (Z.shiftr i 40); Bytes.of_Z (Z.shiftr i 48);
     Bytes.of_Z (Z.shiftr i 56)].

Definition LenEncIntSize (i : Z) : nat :=
  if i <? 251 then 1%nat
  else if i <? 2 ^ 16 then 3%nat
  else if i <? 2 ^ 24 then 4%nat
  else 9%nat.

Definition WriteLenEncInt (data : list byte) (pos : nat) (i : Z) :=
  write_at data pos (LenEncInt i).

Definition WriteLenEncString (data : list byte) (pos : nat) (value : list byte) :=
  write_at data pos (LenEncInt (Z.of_nat (length value)) ++ value).

(** Modelled from the spec: the fields of [mysql.Field] that a column
    definition carries (section 4.3: schema, table, original table, name
    and original name, charset, column length, type, flags and
    decimals). *)
Record Field : Type := {
  Schema : list byte;
  Table : list byte;
  OrgTable : list byte;
  Name : list byte;
  OrgName : list byte;
  Charset : Z;
  ColumnLength : Z;
  Type_ : Z;
  Flag : Z;
  Decimal : Z
}.

(** Go's builtin [copy(data[pos:], src)]: slicing panics when [pos] is
    past the end; [copy] moves as many bytes as fit and returns their
    number. *)
Definition copy_at (data : list byte) (pos : nat) (src : list byte)
  : option (list byte * nat) :=
  if decide (pos ≤ length data)%nat
  then let n := ((length data - pos) `min` length src)%nat in
       Some (take pos data ++ take n src ++ drop (pos + n) data, n)
  else None.

(** [s[:n]] and [s[n:]] of a slice whose capacity is its length: both
    panic when [n] is past the end. *)
Definition slice_to (s : list byte) (n : nat) : option (list byte) :=
  if decide (n ≤ length s)%nat then Some (take n s) else None.

Definition slice_from (s : list byte) (n : nat) : option (list byte) :=
  if decide (n ≤ length s)%nat then Some (drop n s) else None.

(** Modelled from the spec: [mysql.Conn], not under src/.  Of the
    connection only its id and the payloads handed to it for writing are
    kept; the framing of section 4.2 (3-byte length, sequence id) is the
    connection's business and is left out.  [StartEphemeralPacket]
    "reserves a writable region" of the length asked for; the writer
    fills it through the slice it was given and [WriteEphemeralPacket]
    sends what the region then holds. *)
Record Conn : Type := {
  ConnectionID : Z;
  Written : list (list byte)
}.

Definition WritePacket (c : Conn) (data : list byte) : Conn :=
  {| ConnectionID := ConnectionID c; Written := Written c ++ [data] |}.

End mysql.

(** ** Package [server]: the handshake writers of [ClientConn] *)

Module server.

Record ClientConn : Type := {
  Conn : mysql.Conn;
  salt : list byte
}.

Definition GetConnectionID (cc : ClientConn) : Z :=
  mysql.ConnectionID (Conn cc).

Definition with_conn (cc : ClientConn) (c : mysql.Conn) : ClientConn :=
  {| Conn := c; salt := salt cc |}.

Inductive error : Type :=
| HandshakeSizeError (got expected : nat).

(** The conversion [uint16(x)]. *)
Definition uint16 (x : Z) : Z := x mod 2 ^ 16.

Section Handshake.
(** Constants of packages [mysql] and [server] that are declared
    outside src/ and whose values the spec does not give. *)
Variable ServerVersion : list byte.
Variable DefaultCapability : Z.
Variable DefaultCollationID : Z.
Variable initClientConnStatus : Z.

(** The region [StartEphemeralPacket] hands out, by length; what it
    holds before it is written is the buffer pool's business. *)
Variable region : nat -> list byte.

(** The bytes both writers put before the status flags, and those they
    put after them up to the end of the salt. *)
Definition before_status (cc : ClientConn) : list byte :=
  [mysql.ProtocolVersion] ++ ServerVersion ++ [x00]
  ++ [Bytes.of_Z (GetConnectionID cc); Bytes.of_Z (Z.shiftr (GetConnectionID cc) 8);
      Bytes.of_Z (Z.shiftr (GetConnectionID cc) 16);
      Bytes.of_Z (Z.shiftr (GetConnectionID cc) 24)]
  ++ take 8 (salt cc) ++ [x00]
  ++ [Bytes.of_Z DefaultCapability; Bytes.of_Z (Z.shiftr DefaultCapability 8)]
  ++ [Bytes.of_Z DefaultCollationID].

Definition after_status (cc : ClientConn) : list byte :=
  [Bytes.of_Z (Z.shiftr DefaultCapability 16);
   Bytes.of_Z (Z.shiftr DefaultCapability 24)]
  ++ [Bytes.of_Z 21] ++ replicate 10 x00 ++ drop 8 (salt cc) ++ [x00].

(** [None] is a panic, [Some (cc, err)] a return. *)
Definition writeInitialHandshake (cc : ClientConn)
  : option (ClientConn * option error) :=
  let data := [] in
  let data := data ++ [mysql.ProtocolVersion] in
  let data := data ++ ServerVersion in
  let data := data ++ [x00] in
  let id := GetConnectionID cc in
  let data := data ++ [Bytes.of_Z id; Bytes.of_Z (Z.shiftr id 8);
                       Bytes.of_Z (Z.shiftr id 16); Bytes.of_Z (Z.shiftr id 24)] in
  part1 ← mysql.slice_to (salt cc) 8;
  let data := data ++ part1 in
  let data := data ++ [x00] in
  let data := data ++ [Bytes.of_Z DefaultCapability;
                       Bytes.of_Z (Z.shiftr DefaultCapability 8)] in
  let data := data ++ [Bytes.of_Z DefaultCollationID] in
  let data := data ++ [Bytes.of_Z 0; Bytes.of_Z (Z.shiftr 0 8)] in
  let data := data ++ [Bytes.of_Z (Z.shiftr DefaultCapability 16);
                       Bytes.of_Z (Z.shiftr DefaultCapability 24)] in
  let data := data ++ [Bytes.of_Z (8 + 12 + 1)] in
  let data := data ++ [x00; x00; x00; x00; x00; x00; x00; x00; x00; x00] in
  part2 ← mysql.slice_from (salt cc) 8;
  let data := data ++ part2 in
  let data := data ++ [x00] in
  let data := data ++ mysql.AUTH_CACHING_SHA2_PASSWORD in
  let data := data ++ [x00] in
  Some (with_conn cc (mysql.WritePacket (Conn cc) data), None).

Definition writeInitialHandshakeV10 (cc : ClientConn)
  : option (ClientConn * option error) :=
  let length :=
    (1 + mysql.LenNullString ServerVersion + 4 + 8 + 1 + 2 + 1 + 2 + 2
     + 1 + 10 + 13)%nat in
  let data := region length in
  let pos := 0%nat in
  '(data, pos) ← mysql.WriteByte data pos mysql.ProtocolVersion;
  '(data, pos) ← mysql.WriteNullString data pos ServerVersion;
  '(data, pos) ← mysql.WriteUint32 data pos (GetConnectionID cc);
  part1 ← mysql.slice_to (salt cc) 8;
  '(data, n) ← mysql.copy_at data pos part1;
  let pos := (pos + n)%nat in
  '(data, pos) ← mysql.WriteByte data pos x00;
  '(data, pos) ← mysql.WriteUint16 data pos (uint16 DefaultCapability);
  '(data, pos) ← mysql.WriteByte data pos (Bytes.of_Z DefaultCollationID);
  '(data, pos) ← mysql.WriteUint16 data pos initClientConnStatus;
  '(data, pos) ← mysql.WriteUint16 data pos (uint16 (Z.shiftr DefaultCapability 16));
  '(data, pos) ← mysql.WriteByte data pos (Bytes.of_Z 21);
  '(data, pos) ← mysql.WriteZeroes data pos 10;
  part2 ← mysql.slice_from (salt cc) 8;
  '(data, n) ← mysql.copy_at data pos part2;
  let pos := (pos + n)%nat in
  '(data, pos) ← mysql.WriteByte data pos x00;
  if decide (pos ≠ List.length data)
  then Some (cc, Some (HandshakeSizeError pos (List.length data)))
  else Some (with_conn cc (mysql.WritePacket (Conn cc) data), None).

End Handshake.

(** Modelled from the spec: the connection of scenario 6 (server version
    [5.7.0-sharding], connection id [0x01020304], salt bytes 0 to 19); the
    capability flags, the collation and the status are picked for the
    example, and the region handed out holds zeros. *)
Definition example_conn : ClientConn :=
  {| Conn := {| mysql.ConnectionID := 0x01020304; mysql.Written := [] |};
     salt := map Bytes.of_Z [0; 1; 2; 3; 4; 5; 6; 7; 8; 9; 10; 11; 12; 13; 14;
                             15; 16; 17; 18; 19] |}.

Definition example_region (n : nat) : list byte := replicate n x00.

Section Auth.
(** The capability flags [mysql.ClientPluginAuthLenencClientData],
    [mysql.ClientSecureConnection] and [mysql.ClientPluginAuth] and the
    plugin name [mysql.AUTH_NATIVE_PASSWORD]: constants of package [mysql],
    declared outside src/. *)
Variable ClientPluginAuthLenencClientData : Z.
Variable ClientSecureConnection : Z.
Variable ClientPluginAuth : Z.
Variable AUTH_NATIVE_PASSWORD : list byte.

(** [mysql.ReadLenEncStringAsBytes], outside src/: the bytes read, the new
    position, whether the string is NULL and whether the read went well. *)
Variable ReadLenEncStringAsBytes : list byte -> Z -> list byte * Z * bool * bool.

(** [readAuthData(data, pos, capability)], with [spare] what the array
    behind [data] holds past its length.  [None] is a panic; a nil slice
    is [[]]. *)
Definition readAuthData (data spare : list byte) (pos : Z) (capability : Z)
  : option (list byte * Z * bool) :=
  if 0 <? Z.land capability ClientPluginAuthLenencClientData then
    let '(authData, newPos, isNULL, isOk) := ReadLenEncStringAsBytes data pos in
    if negb isOk then Some ([], 0, false)
    else if isNULL then Some ([], 0, false)
    else Some (authData, newPos, true)
  else if negb (Z.land capability ClientSecureConnection =? 0) then
    b ← Bytes.index data pos;
    let authLen := Bytes.val b in
    let pos := pos + 1 in
    auth ← Bytes.slice data spare pos (pos + authLen);
    Some (auth, pos + authLen, true)
  else
    buf ← Bytes.slice_from data pos;
    let authLen := Bytes.IndexByte buf x00 in
    auth ← Bytes.slice data spare pos (pos + authLen);
    let authLen := authLen + 1 in
    Some (auth, pos + authLen, true).

Definition readPluginName (data spare : list byte) (pos : Z) (capability : Z)
  : option (list byte * Z) :=
  if negb (Z.land capability ClientPluginAuth =? 0) then
    buf ← Bytes.slice_from data pos;
    let end_ := pos + Bytes.IndexByte buf x00 in
    str ← Bytes.slice data spare pos end_;
    let authPluginName := str in
    let pos := pos + Z.of_nat (length authPluginName) in
    Some (authPluginName, pos)
  else Some (AUTH_NATIVE_PASSWORD, pos).

End Auth.

Section Packets.
(** [mysql.MoreDataPacket] and [mysql.AuthSwitchHeader]: packet headers
    declared outside src/. *)
Variable MoreDataPacket : byte.
Variable AuthSwitchHeader : byte.
Variable region : nat -> list byte.

Definition writeMoreDataFlag (cc : ClientConn) (value : byte)
  : option (ClientConn * option error) :=
  let data := region 2 in
  let pos := 0%nat in
  '(data, pos) ← mysql.WriteByte data pos MoreDataPacket;
  '(data, _) ← mysql.WriteByte data pos value;
  Some (with_conn cc (mysql.WritePacket (Conn cc) data), None).

Definition WriteAuthSwitchRequest (cc : ClientConn) (authMethod : list byte)
  : option (ClientConn * option error) :=
  let l := (1 + length authMethod + 1 + length (salt cc) + 1)%nat in
  let data := region l in
  let pos := 0%nat in
  '(data, pos) ← mysql.WriteByte data pos AuthSwitchHeader;
  '(data, pos) ← mysql.WriteNullString data pos authMethod;
  '(data, pos) ← mysql.WriteBytes data pos (salt cc);
  '(data, _) ← mysql.WriteByte data pos x00;
  Some (with_conn cc (mysql.WritePacket (Conn cc) data), None).

(** [writeRow]; [flow] is the write-flow count the statistics manager
    keeps for the connection's namespace, which [AddWriteFlowCount]
    increases. *)
Definition writeRow (cc : ClientConn) (flow : Z) (row : list byte)
  : option (ClientConn * Z * option error) :=
  let length := length row in
  let data := region length in
  let pos := 0%nat in
  '(data, _) ← mysql.copy_at data pos row;
  let flow := flow + Z.of_nat length in
  Some (with_conn cc (mysql.WritePacket (Conn cc) data), flow, None).

(** The error of the sanity check in [writeColumnDefinition]. *)
Inductive packing_error : Type :=
| ColumnDefinitionSizeError (used expected : nat).

Definition writeColumnCount (cc : ClientConn) (flow : Z) (count : Z)
  : option (ClientConn * Z * option packing_error) :=
  let length := mysql.LenEncIntSize count in
  let data := region length in
  let flow := flow + Z.of_nat length in
  '(data, _) ← mysql.WriteLenEncInt data 0 count;
  Some (with_conn cc (mysql.WritePacket (Conn cc) data), flow, None).

Definition writeColumnDefinition (cc : ClientConn) (flow : Z) (field : mysql.Field)
  : option (ClientConn * Z * option packing_error) :=
  let schemaLen := Z.of_nat (length (mysql.Schema field)) in
  let tableLen := Z.of_nat (length (mysql.Table field)) in
  let orgTableLen := Z.of_nat (length (mysql.OrgTable field)) in
  let nameLen := Z.of_nat (length (mysql.Name field)) in
  let orgNameLen := Z.of_nat (length (mysql.OrgName field)) in
  let length :=
    (4 + mysql.LenEncIntSize schemaLen + length (mysql.Schema field)
     + mysql.LenEncIntSize tableLen + length (mysql.Table field)
     + mysql.LenEncIntSize orgTableLen + length (mysql.OrgTable field)
     + mysql.LenEncIntSize nameLen + length (mysql.Name field)
     + mysql.LenEncIntSize orgNameLen + length (mysql.OrgName field)
     + 1 + 2 + 4 + 1 + 2 + 1 + 2)%nat in
  let data := region length in
  let pos := 0%nat in
  '(data, pos) ← mysql.WriteLenEncString data pos (Bytes.lit "def");
  '(data, pos) ← mysql.WriteLenEncInt data pos schemaLen;
  '(data, _) ← mysql.copy_at data pos (mysql.Schema field);
  let pos := (pos + List.length (mysql.Schema field))%nat in
  '(data, pos) ← mysql.WriteLenEncInt data pos tableLen;
  '(data, _) ← mysql.copy_at data pos (mysql.Table field);
  let pos := (pos + List.length (mysql.Table field))%nat in
  '(data, pos) ← mysql.WriteLenEncInt data pos orgTableLen;
  '(data, _) ← mysql.copy_at data pos (mysql.OrgTable field);
  let pos := (pos + List.length (mysql.OrgTable field))%nat in
  '(data, pos) ← mysql.WriteLenEncInt data pos nameLen;
  '(data, _) ← mysql.copy_at data pos (mysql.Name field);
  let pos := (pos + List.length (mysql.Name field))%nat in
  '(data, pos) ← mysql.WriteLenEncInt data pos orgNameLen;
  '(data, _) ← mysql.copy_at data pos (mysql.OrgName field);
  let pos := (pos + List.length (mysql.OrgName field))%nat in
  '(data, pos) ← mysql.WriteByte data pos x0c;
  '(data, pos) ← mysql.WriteUint16 data pos (mysql.Charset field);
  '(data, pos) ← mysql.WriteUint32 data pos (mysql.ColumnLength field);
  '(data, pos) ← mysql.WriteByte data pos (Bytes.of_Z (mysql.Type_ field));
  '(data, pos) ← mysql.WriteUint16 data pos (mysql.Flag field);
  '(data, pos) ← mysql.WriteByte data pos (Bytes.of_Z (mysql.Decimal field));
  '(data, pos) ← mysql.WriteUint16 data pos 0;
  if decide (pos ≠ List.length data)
  then Some (cc, flow, Some (ColumnDefinitionSizeError pos (List.length data)))
  else
    let flow := flow + Z.of_nat (List.length data) in
    Some (with_conn cc (mysql.WritePacket (Conn cc) data), flow, None).

End Packets.

End server.

(** ** Package [server]: [Session] and its [Clone]

  [Clone] is about sharing, so the objects a session points to live in a
  heap: a finite map from locations to cells.  A pointer, a map or a
  slice is a location or nil ([None]); the cell behind a slice holds its
  elements (slices of one array with different bounds do not occur in
  [Clone]).  A computation takes the heap and returns its result and the
  new heap, or [None] when it panics. *)

Module session.

Definition loc : Type := positive.

(** Modelled from the spec: [TransactionMode], declared outside src/:
    "transaction_mode ∈ {Single, Multi, TwoPC}". *)
Inductive TransactionMode : Type := Single | Multi | TwoPC.

Section Heap.
(** What a [types.ExecuteOptions], a [database.DbSession] and a
    [types.BindVariable] hold; the three structs are declared outside
    src/. *)
Variables ExecuteOptions DbSession BindVariable : Type.

Inductive cell : Type :=
| CellOptions (o : ExecuteOptions)
| CellDbSession (d : DbSession)
| CellBindVariable (b : BindVariable)
| CellStrings (xs : list string)
| CellDbSessions (xs : list (option loc))
| CellStringMap (m : gmap string string)
| CellVariableMap (m : gmap string (option loc)).

Definition M (A : Type) : Type :=
  gmap loc cell -> option (A * gmap loc cell).

Definition ret {A} (a : A) : M A := fun h => Some (a, h).

Definition bind {A B} (m : M A) (k : A -> M B) : M B :=
  fun h => match m h with
           | Some (a, h') => k a h'
           | None => None
           end.

Definition panic {A} : M A := fun _ => None.

(** [new], [make] and [&T{...}]: a cell at a location the heap does not
    use yet. *)
Definition alloc (c : cell) : M loc :=
  fun h => let l := fresh (dom h) in Some (l, <[l := c]> h).

Definition load (l : loc) : M cell :=
  fun h => match h !! l with
           | Some c => Some (c, h)
           | None => None
           end.

Definition store (l : loc) (c : cell) : M unit :=
  fun h => match h !! l with
           | Some _ => Some (tt, <[l := c]> h)
           | None => None
           end.

Local Notation "x <- m ;; k" := (bind m (fun x => k))
  (at level 100, m at next level, right associativity).

Record Session : Type := {
  InTransaction : bool;
  Autocommit : bool;
  ShardSessions : option loc;
  Options : option loc;
  TargetString : string;
  SystemVariables : option loc;
  TransactionMode_ : TransactionMode;
  Warnings : option loc;
  PreSessions : option loc;
  PostSessions : option loc;
  LastInsertId : Z;
  FoundRows : Z;
  UserDefinedVariables : option loc;
  RowCount : Z;
  SavePoints : option loc;
  InReservedConn : bool;
  LockSession : option loc;
  LastLockHeartbeat : Z;
  DDLStrategy : string;
  SessionUUID : string;
  EnableSystemSettings : bool
}.

(** Modelled from the spec: the [Clone] methods of [database.DbSession]
    and [types.BindVariable], not under src/; "Clone is deep": a
    new struct holding what the receiver holds.  The spec names no failure
    of them, and none is modelled: a nil receiver gives nil, as
    [Value.Clone] of [value.go] answers for its own
    ([if v == nil { return nil }]).  [cloneDbSession] and
    [cloneUserDefinedVariables] test for nil before they call,
    [cloneDbSessions] does not. *)
Definition DbSession_Clone (s : option loc) : M (option loc) :=
  match s with
  | None => ret None
  | Some l =>
      c <- load l ;;
      match c with
      | CellDbSession d => l' <- alloc (CellDbSession d) ;; ret (Some l')
      | _ => panic
      end
  end.

Definition BindVariable_Clone (v : option loc) : M (option loc) :=
  match v with
  | None => ret None
  | Some l =>
      c <- load l ;;
      match c with
      | CellBindVariable b => l' <- alloc (CellBindVariable b) ;; ret (Some l')
      | _ => panic
      end
  end.

(** Modelled from the spec: [database.CopyMap] and [database.CopyArray],
    not under src/; "Clone is deep across all maps and slices": a new
    map or slice with the same entries, and nil for nil as
    [cloneDbSessions] and [cloneUserDefinedVariables] answer. *)
Definition CopyMap (m : option loc) : M (option loc) :=
  match m with
  | None => ret None
  | Some l =>
      c <- load l ;;
      match c with
      | CellStringMap entries =>
          l' <- alloc (CellStringMap entries) ;; ret (Some l')
      | _ => panic
      end
  end.

Definition CopyArray (a : option loc) : M (option loc) :=
  match a with
  | None => ret None
  | Some l =>
      c <- load l ;;
      match c with
      | CellStrings xs => l' <- alloc (CellStrings xs) ;; ret (Some l')
      | _ => panic
      end
  end.

Definition cloneDbSession (source : option loc) : M (option loc) :=
  match source with
  | None => ret None
  | Some _ => DbSession_Clone source
  end.

(** [sessions[i] = s.Clone()] *)
Definition set_session (sessions : loc) (i : nat) (p : option loc) : M unit :=
  c <- load sessions ;;
  match c with
  | CellDbSessions xs =>
      if decide (i < length xs)%nat
      then store sessions (CellDbSessions (<[i := p]> xs))
      else panic
  | _ => panic
  end.

(** [for i, s := range source { sessions[i] = s.Clone() }], from index
    [i] on. *)
Fixpoint cloneDbSessions_loop (sessions : loc) (i : nat)
         (source : list (option loc)) : M unit :=
  match source with
  | [] => ret tt
  | s :: rest =>
      p <- DbSession_Clone s ;;
      _ <- set_session sessions i p ;;
      cloneDbSessions_loop sessions (S i) rest
  end.

Definition cloneDbSessions (source : option loc) : M (option loc) :=
  match source with
  | None => ret None
  | Some l =>
      c <- load l ;;
      match c with
      | CellDbSessions xs =>
          sessions <- alloc (CellDbSessions (replicate (length xs) None)) ;;
          _ <- cloneDbSessions_loop sessions 0 xs ;;
          ret (Some sessions)
      | _ => panic
      end
  end.

(** [dest[name] = ...] *)
Definition set_variable (dest : loc) (name : string) (p : option loc) : M unit :=
  c <- load dest ;;
  match c with
  | CellVariableMap m => store dest (CellVariableMap (<[name := p]> m))
  | _ => panic
  end.

(** [for name, variable := range s.UserDefinedVariables { ... }] over
    the entries in the order the iteration visits them. *)
Fixpoint cloneUserDefinedVariables_loop (dest : loc)
         (entries : list (string * option loc)) : M unit :=
  match entries with
  | [] => ret tt
  | (name, variable) :: rest =>
      _ <- match variable with
           | None => set_variable dest name None
           | Some _ =>
               p <- BindVariable_Clone variable ;;
               set_variable dest name p
           end ;;
      cloneUserDefinedVariables_loop dest rest
  end.

Definition cloneUserDefinedVariables (s : Session) : M (option loc) :=
  match UserDefinedVariables s with
  | None => ret None
  | Some l =>
      c <- load l ;;
      match c with
      | CellVariableMap m =>
          dest <- alloc (CellVariableMap ∅) ;;
          _ <- cloneUserDefinedVariables_loop dest (map_to_list m) ;;
          ret (Some dest)
      | _ => panic
      end
  end.

(** [ops := *s.Options] reads through the pointer, nil or not; [&ops]
    is the address of the copy. *)
Definition Clone (s : Session) : M Session :=
  ops <- match Options s with
         | None => panic
         | Some l =>
             c <- load l ;;
             match c with
             | CellOptions o => alloc (CellOptions o)
             | _ => panic
             end
         end ;;
  shardSessions <- cloneDbSessions (ShardSessions s) ;;
  systemVariables <- CopyMap (SystemVariables s) ;;
  warnings <- CopyArray (Warnings s) ;;
  preSessions <- cloneDbSessions (PreSessions s) ;;
  postSessions <- cloneDbSessions (PostSessions s) ;;
  userDefinedVariables <- cloneUserDefinedVariables s ;;
  savePoints <- CopyArray (SavePoints s) ;;
  lockSession <- cloneDbSession (LockSession s) ;;
  ret {| InTransaction := InTransaction s;
         Autocommit := Autocommit s;
         ShardSessions := shardSessions;
         Options := Some ops;
         TargetString := TargetString s;
         SystemVariables := systemVariables;
         TransactionMode_ := TransactionMode_ s;
         Warnings := warnings;
         PreSessions := preSessions;
         PostSessions := postSessions;
         LastInsertId := LastInsertId s;
         FoundRows := FoundRows s;
         UserDefinedVariables := userDefinedVariables;
         RowCount := RowCount s;
         SavePoints := savePoints;
         InReservedConn := InReservedConn s;
         LockSession := lockSession;
         LastLockHeartbeat := LastLockHeartbeat s;
         DDLStrategy := DDLStrategy s;
         SessionUUID := SessionUUID s;
         EnableSystemSettings := EnableSystemSettings s |}.

(** *** What a session reads as

    Following a pointer in a heap gives [IsNil] for nil, [Holds] with
    what the cell holds, and [Bad] for a pointer to nothing or to a
    cell of another kind. *)
Inductive reading (A : Type) : Type :=
| Bad
| IsNil
| Holds (a : A).
Arguments Bad {A}.
Arguments IsNil {A}.
Arguments Holds {A}.

Definition read {A} (h : gmap loc cell) (get : cell -> option A)
           (p : option loc) : reading A :=
  match p with
  | None => IsNil
  | Some l => match h !! l with
              | Some c => match get c with
                          | Some a => Holds a
                          | None => Bad
                          end
              | None => Bad
              end
  end.

Definition read_options h :=
  read h (fun c => match c with CellOptions o => Some o | _ => None end).
Definition read_session h :=
  read h (fun c => match c with CellDbSession d => Some d | _ => None end).
Definition read_variable h :=
  read h (fun c => match c with CellBindVariable b => Some b | _ => None end).
Definition read_strings h :=
  read h (fun c => match c with CellStrings xs => Some xs | _ => None end).
Definition read_string_map h :=
  read h (fun c => match c with CellStringMap m => Some m | _ => None end).
Definition read_sessions h :=
  read h (fun c => match c with
                   | CellDbSessions xs => Some (read_session h <$> xs)
                   | _ => None
                   end).
Definition read_variable_map h :=
  read h (fun c => match c with
                   | CellVariableMap m => Some (read_variable h <$> m)
                   | _ => None
                   end).

(** The value of a session: its scalar fields and the readings of the
    others. *)
Record SessionValue : Type := {
  vInTransaction : bool;
  vAutocommit : bool;
  vShardSessions : reading (list (reading DbSession));
  vOptions : reading ExecuteOptions;
  vTargetString : string;
  vSystemVariables : reading (gmap string string);
  vTransactionMode : TransactionMode;
  vWarnings : reading (list string);
  vPreSessions : reading (list (reading DbSession));
  vPostSessions : reading (list (reading DbSession));
  vLastInsertId : Z;
  vFoundRows : Z;
  vUserDefinedVariables : reading (gmap string (reading BindVariable));
  vRowCount : Z;
  vSavePoints : reading (list string);
  vInReservedConn : bool;
  vLockSession : reading DbSession;
  vLastLockHeartbeat : Z;
  vDDLStrategy : string;
  vSessionUUID : string;
  vEnableSystemSettings : bool
}.

Definition value (h : gmap loc cell) (s : Session) : SessionValue :=
  {| vInTransaction := InTransaction s;
     vAutocommit := Autocommit s;
     vShardSessions := read_sessions h (ShardSessions s);
     vOptions := read_options h (Options s);
     vTargetString := TargetString s;
     vSystemVariables := read_string_map h (SystemVariables s);
     vTransactionMode := TransactionMode_ s;
     vWarnings := read_strings h (Warnings s);
     vPreSessions := read_sessions h (PreSessions s);
     vPostSessions := read_sessions h (PostSessions s);
     vLastInsertId := LastInsertId s;
     vFoundRows := FoundRows s;
     vUserDefinedVariables := read_variable_map h (UserDefinedVariables s);
     vRowCount := RowCount s;
     vSavePoints := read_strings h (SavePoints s);
     vInReservedConn := InReservedConn s;
     vLockSession := read_session h (LockSession s);
     vLastLockHeartbeat := LastLockHeartbeat s;
     vDDLStrategy := DDLStrategy s;
     vSessionUUID := SessionUUID s;
     vEnableSystemSettings := EnableSystemSettings s |}.

(** A reading that found every cell: the pointer, and for a slice of
    sessions or a map of variables every entry, is nil or leads to a cell
    of its kind, as a pointer, a slice and a map of Go do by their types. *)
Definition sound {A} (r : reading A) : Prop := r ≠ Bad.

Definition sound_sessions (r : reading (list (reading DbSession))) : Prop :=
  match r with
  | Bad => False
  | IsNil => True
  | Holds xs => Forall (fun x => x ≠ Bad) xs
  end.

Definition sound_variables (r : reading (gmap string (reading BindVariable))) : Prop :=
  match r with
  | Bad => False
  | IsNil => True
  | Holds m => map_Forall (fun _ x => x ≠ Bad) m
  end.

Definition well_formed (h : gmap loc cell) (s : Session) : Prop :=
  sound_sessions (read_sessions h (ShardSessions s))
  ∧ sound (read_options h (Options s))
  ∧ sound (read_string_map h (SystemVariables s))
  ∧ sound (read_strings h (Warnings s))
  ∧ sound_sessions (read_sessions h (PreSessions s))
  ∧ sound_sessions (read_sessions h (PostSessions s))
  ∧ sound_variables (read_variable_map h (UserDefinedVariables s))
  ∧ sound (read_strings h (SavePoints s))
  ∧ sound (read_session h (LockSession s)).

(** The locations a session reaches: those in its fields, the entries
    of its session slices and the values of its variable map. *)
Definition field_locs (p : option loc) : list loc :=
  match p with Some l => [l] | None => [] end.

Definition entry_locs (h : gmap loc cell) (p : option loc) : list loc :=
  match p with
  | Some l =>
      match h !! l with
      | Some (CellDbSessions xs) => xs ≫= field_locs
      | Some (CellVariableMap m) => (map_to_list m).*2 ≫= field_locs
      | _ => []
      end
  | None => []
  end.

Definition reach (h : gmap loc cell) (s : Session) : list loc :=
  ([ShardSessions s; Options s; SystemVariables s; Warnings s;
    PreSessions s; PostSessions s; UserDefinedVariables s; SavePoints s;
    LockSession s] ≫= field_locs)
  ++ ([ShardSessions s; PreSessions s; PostSessions s;
       UserDefinedVariables s] ≫= entry_locs h).

(** What a clone operation is to return for a field [p] read by [rd]: a
    field that reads the same in a heap that extends the old one, and
    reaches only locations the old heap does not use. *)
Definition copied {A} (rd : gmap loc cell -> option loc -> reading A)
           (h : gmap loc cell) (p : option loc)
           (res : option (option loc * gmap loc cell)) : Prop :=
  ∃ p' h', res = Some (p', h')
           ∧ h ⊆ h'
           ∧ rd h' p' = rd h p
           ∧ (∀ l, l ∈ field_locs p' ++ entry_locs h' p' -> h !! l = None)
           ∧ (∀ l, p' = Some l -> is_Some (h' !! l)).

End Heap.

Arguments ret {ExecuteOptions DbSession BindVariable A}.
Arguments bind {ExecuteOptions DbSession BindVariable A B}.
Arguments panic {ExecuteOptions DbSession BindVariable A}.
Arguments alloc {ExecuteOptions DbSession BindVariable}.
Arguments load {ExecuteOptions DbSession BindVariable}.
Arguments store {ExecuteOptions DbSession BindVariable}.
Arguments DbSession_Clone {ExecuteOptions DbSession BindVariable}.
Arguments BindVariable_Clone {ExecuteOptions DbSession BindVariable}.
Arguments CopyMap {ExecuteOptions DbSession BindVariable}.
Arguments CopyArray {ExecuteOptions DbSession BindVariable}.
Arguments cloneDbSession {ExecuteOptions DbSession BindVariable}.
Arguments set_session {ExecuteOptions DbSession BindVariable}.
Arguments cloneDbSessions_loop {ExecuteOptions DbSession BindVariable}.
Arguments cloneDbSessions {ExecuteOptions DbSession BindVariable}.
Arguments set_variable {ExecuteOptions DbSession BindVariable}.
Arguments cloneUserDefinedVariables_loop {ExecuteOptions DbSession BindVariable}.
Arguments cloneUserDefinedVariables {ExecuteOptions DbSession BindVariable}.
Arguments Clone {ExecuteOptions DbSession BindVariable}.
Arguments read {ExecuteOptions DbSession BindVariable A}.
Arguments read_options {ExecuteOptions DbSession BindVariable}.
Arguments read_session {ExecuteOptions DbSession BindVariable}.
Arguments read_variable {ExecuteOptions DbSession BindVariable}.
Arguments read_strings {ExecuteOptions DbSession BindVariable}.
Arguments read_string_map {ExecuteOptions DbSession BindVariable}.
Arguments read_sessions {ExecuteOptions DbSession BindVariable}.
Arguments read_variable_map {ExecuteOptions DbSession BindVariable}.
Arguments value {ExecuteOptions DbSession BindVariable}.
Arguments well_formed {ExecuteOptions DbSession BindVariable}.
Arguments entry_locs {ExecuteOptions DbSession BindVariable}.
Arguments reach {ExecuteOptions DbSession BindVariable}.
Arguments CellOptions {ExecuteOptions DbSession BindVariable}.
Arguments CellDbSession {ExecuteOptions DbSession BindVariable}.
Arguments CellBindVariable {ExecuteOptions DbSession BindVariable}.
Arguments CellStrings {ExecuteOptions DbSession BindVariable}.
Arguments CellDbSessions {ExecuteOptions DbSession BindVariable}.
Arguments CellStringMap {ExecuteOptions DbSession BindVariable}.
Arguments CellVariableMap {ExecuteOptions DbSession BindVariable}.
Arguments Bad {A}.
Arguments IsNil {A}.
Arguments Holds {A}.
Arguments sound_sessions {DbSession}.
Arguments sound_variables {BindVariable}.
Arguments copied {ExecuteOptions DbSession BindVariable A}.

(** A heap and a session to run [Clone] on: one shard session, which is
    also the lock session, one system variable, two user-defined variables
    (one of them nil) and one warning. *)
Definition example_heap : gmap loc (cell string string string) :=
  <[1%positive := CellOptions "options"]>
  (<[2%positive := CellDbSession "shard-0"]>
  (<[3%positive := CellDbSessions [Some 2%positive]]>
  (<[4%positive := CellStringMap {["autocommit" := "1"]}]>
  (<[5%positive := CellBindVariable "42"]>
  (<[6%positive := CellVariableMap (<["x" := Some 5%positive]> {["y" := None]})]>
  (<[7%positive := CellStrings ["a warning"]]> ∅)))))).

Definition example_session : Session :=
  {| InTransaction := true; Autocommit := false;
     ShardSessions := Some 3%positive; Options := Some 1%positive;
     TargetString := "ks@primary"; SystemVariables := Some 4%positive;
     TransactionMode_ := Multi; Warnings := Some 7%positive;
     PreSessions := None; PostSessions := None;
     LastInsertId := 7; FoundRows := 1;
     UserDefinedVariables := Some 6%positive; RowCount := 1;
     SavePoints := None; InReservedConn := false;
     LockSession := Some 2%positive; LastLockHeartbeat := 0;
     DDLStrategy := ""; SessionUUID := "uuid";
     EnableSystemSettings := true |}.

(** The same session with two sessions to commit first, the first of
    them nil. *)
Definition example_heap_nil_entry : gmap loc (cell string string string) :=
  <[8%positive := CellDbSessions [None; Some 2%positive]]> example_heap.

Definition example_session_nil_entry : Session :=
  {| InTransaction := true; Autocommit := false;
     ShardSessions := Some 3%positive; Options := Some 1%positive;
     TargetString := "ks@primary"; SystemVariables := Some 4%positive;
     TransactionMode_ := Multi; Warnings := Some 7%positive;
     PreSessions := Some 8%positive; PostSessions := None;
     LastInsertId := 7; FoundRows := 1;
     UserDefinedVariables := Some 6%positive; RowCount := 1;
     SavePoints := None; InReservedConn := false;
     LockSession := Some 2%positive; LastLockHeartbeat := 0;
     DDLStrategy := ""; SessionUUID := "uuid";
     EnableSystemSettings := true |}.

End session.

(** ** Package [service]: [cc/service/service.go]

    The functions of this file talk to the configuration store and to
    the admin ports of the proxies.  What they are answered is a
    parameter; the calls they make are kept, in order, in a trace, and
    each answer may depend on the calls made before it.  Log lines are
    left out. *)

Module service.

Definition getCoordinatorRoot (cluster : string) : string :=
  if negb (String.eqb cluster "") then "/" +:+ cluster else cluster.

(** The fields of [models.CCConfig] the file reads, and of an entry of
    the proxy listing. *)
Record CCConfig : Type := {
  CoordinatorAddr : string;
  UserName : string;
  Password : string;
  EncryptKey : string
}.

Record ProxyMonitorMetric : Type := {
  IP : string;
  AdminPort : string
}.

Section Service.
(** [models.Namespace] and the error type of the collaborators. *)
Variables Namespace error : Type.

(** The calls: opening the store ([config.NewClient] and
    [config.NewStore]) with the coordinator root, closing it, the
    operations of the store and the requests to a proxy. *)
Inductive event : Type :=
| EvOpen (addr user password root : string)
| EvClose
| EvListNamespace
| EvLoadNamespace (key name : string)
| EvUpdateNamespace (namespace : Namespace)
| EvDelNamespace (name : string)
| EvListProxy
| EvPrepareConfig (host name : string)
| EvCommitConfig (host name : string)
| EvProxyDelNamespace (host name : string).

(** The methods of [models.Namespace] ([Encrypt] writes to the
    namespace, so it returns the new one) and, given the calls made so
    far, the answers of the store and of the proxies: none of them
    under src/. *)
Variable Verify : Namespace -> option error.
Variable Encrypt : Namespace -> string -> Namespace * option error.
Variable Name : Namespace -> string.
Variable StoreListNamespace : list event -> list string * option error.
Variable LoadNamespace
  : list event -> string -> string -> option Namespace * option error.
Variable UpdateNamespace : list event -> Namespace -> option error.
Variable StoreDelNamespace : list event -> string -> option error.
Variable ListProxyMonitorMetrics
  : list event -> list ProxyMonitorMetric * option error.
Variable PrepareConfig : list event -> string -> string -> CCConfig -> option error.
Variable CommitConfig : list event -> string -> string -> CCConfig -> option error.
Variable ProxyDelNamespace
  : list event -> string -> string -> CCConfig -> option error.

(** A computation takes the trace so far and returns its result and the
    trace it leaves. *)
Definition IO (A : Type) : Type := list event -> A * list event.

Definition ret {A} (a : A) : IO A := fun tr => (a, tr).

Definition bind {A B} (m : IO A) (k : A -> IO B) : IO B :=
  fun tr => let '(a, tr') := m tr in k a tr'.

Definition call {R} (e : event) (answer : list event -> R) : IO R :=
  fun tr => (answer tr, tr ++ [e]).

Local Notation "x <- m ;; k" := (bind m (fun x => k))
  (at level 100, m at next level, right associativity).

(** [client := config.NewClient(...); mConn := config.NewStore(client);
    defer mConn.Close()] around the rest of a function. *)
Definition opening (cfg : CCConfig) (cluster : string) : event :=
  EvOpen (CoordinatorAddr cfg) (UserName cfg) (Password cfg)
         (getCoordinatorRoot cluster).

Definition with_store {A} (cfg : CCConfig) (cluster : string) (body : IO A)
  : IO A :=
  _ <- call (opening cfg cluster) (fun _ => tt) ;;
  a <- body ;;
  _ <- call EvClose (fun _ => tt) ;;
  ret a.

Definition ListNamespace (cfg : CCConfig) (cluster : string)
  : IO (list string * option error) :=
  with_store cfg cluster (call EvListNamespace StoreListNamespace).

(** The loop of [QueryNamespace], with [data] what was appended so
    far. *)
Fixpoint QueryNamespace_loop (cfg : CCConfig) (names : list string)
         (data : list Namespace) : IO (list Namespace * option error) :=
  match names with
  | [] => ret (data, None)
  | v :: rest =>
      r <- call (EvLoadNamespace (EncryptKey cfg) v)
                (fun tr => LoadNamespace tr (EncryptKey cfg) v) ;;
      match r with
      | (_, Some err) => ret ([], Some err)
      | (None, None) => ret (data, None)
      | (Some namespace, None) => QueryNamespace_loop cfg rest (data ++ [namespace])
      end
  end.

Definition QueryNamespace (names : list string) (cfg : CCConfig) (cluster : string)
  : IO (list Namespace * option error) :=
  with_store cfg cluster (QueryNamespace_loop cfg names []).

(** The calls that load the first [k] of [names]. *)
Definition loading (key : string) (names : list string) (k : nat) : list event :=
  EvLoadNamespace key <$> take k names.

(** The listing of the proxies is a slice or a map, whose type is
    declared outside src/; it is kept as the sequence of its entries, and
    the order in which a [range] loop visits them, which for a map may
    change from one loop to the next, is a parameter. *)
Variable range_order
  : list event -> list ProxyMonitorMetric -> list ProxyMonitorMetric.

Definition range (proxies : list ProxyMonitorMetric)
  : IO (list ProxyMonitorMetric) :=
  fun tr => (range_order tr proxies, tr).

(** [for _, v := range proxies { err := f(v); if err != nil { return err } }],
    over the entries in the order the loop visits them. *)
Fixpoint for_each (f : ProxyMonitorMetric -> IO (option error))
         (proxies : list ProxyMonitorMetric) : IO (option error) :=
  match proxies with
  | [] => ret None
  | v :: rest =>
      err <- f v ;;
      match err with
      | Some err => ret (Some err)
      | None => for_each f rest
      end
  end.

(** [v.IP + ":" + v.AdminPort] *)
Definition host (v : ProxyMonitorMetric) : string :=
  IP v +:+ ":" +:+ AdminPort v.

(** The errors [ModifyNamespace] wraps with [fmt.Errorf], and those it
    passes on. *)
Inductive service_error : Type :=
| VerifyNamespaceError (err : error)
| EncryptNamespaceError (err : error)
| Passed (err : error).

Definition ModifyNamespace (namespace : Namespace) (cfg : CCConfig)
           (cluster : string) : IO (option service_error) :=
  match Verify namespace with
  | Some err => ret (Some (VerifyNamespaceError err))
  | None =>
      match Encrypt namespace (EncryptKey cfg) with
      | (_, Some err) => ret (Some (EncryptNamespaceError err))
      | (namespace, None) =>
          with_store cfg cluster
            (err <- call (EvUpdateNamespace namespace)
                         (fun tr => UpdateNamespace tr namespace) ;;
             match err with
             | Some err => ret (Some (Passed err))
             | None =>
                 r <- call EvListProxy ListProxyMonitorMetrics ;;
                 match r with
                 | (_, Some err) => ret (Some (Passed err))
                 | (proxies, None) =>
                     visited <- range proxies ;;
                     err <- for_each
                              (fun v =>
                                 call (EvPrepareConfig (host v) (Name namespace))
                                      (fun tr => PrepareConfig tr (host v)
                                                   (Name namespace) cfg))
                              visited ;;
                     match err with
                     | Some err => ret (Some (Passed err))
                     | None =>
                         visited <- range proxies ;;
                         err <- for_each
                                  (fun v =>
                                     call (EvCommitConfig (host v) (Name namespace))
                                          (fun tr => CommitConfig tr (host v)
                                                       (Name namespace) cfg))
                                  visited ;;
                         match err with
                         | Some err => ret (Some (Passed err))
                         | None => ret None
                         end
                     end
                 end
             end)
      end
  end.

Definition DelNamespace (name : string) (cfg : CCConfig) (cluster : string)
  : IO (option error) :=
  with_store cfg cluster
    (err <- call (EvDelNamespace name) (fun tr => StoreDelNamespace tr name) ;;
     match err with
     | Some err => ret (Some err)
     | None =>
         r <- call EvListProxy ListProxyMonitorMetrics ;;
         match r with
         | (_, Some err) => ret (Some err)
         | (proxies, None) =>
             visited <- range proxies ;;
             for_each
               (fun v =>
                  call (EvProxyDelNamespace (host v) name)
                       (fun tr => ProxyDelNamespace tr (host v) name cfg))
               visited
         end
     end).

(** *** The fingerprint queries

    [SQLFingerprint] and [ProxyConfigFingerprint] list the proxies and ask
    all of them at once, one goroutine for each; every goroutine sends its
    answer on a channel that has room for all of them, and once all have
    sent, the answers are merged in the order in which they arrived.  That
    order is not fixed by the program: a run is any permutation of the
    answers.  The answer a goroutine gets may depend on its place among
    the entries the loop that starts the goroutines visits. *)
Variable QueryProxyConfigFingerprint
  : nat -> string -> CCConfig -> string * option error.

(** [proxy.SQLFingerprint]: the two maps of a namespace's fingerprints. *)
Record ProxySQLFingerprint : Type := {
  SlowSQL : gmap string string;
  ErrorSQL : gmap string string
}.

Variable QueryNamespaceSQLFingerprint
  : nat -> string -> string -> CCConfig
    -> option ProxySQLFingerprint * option error.

(** What the goroutines send: a map with the one entry [m[host] = md5],
    whether or not the query failed. *)
Definition config_answers (cfg : CCConfig) (proxies : list ProxyMonitorMetric)
  : list (string * string) :=
  imap (fun i p => (host p, fst (QueryProxyConfigFingerprint i (host p) cfg)))
       proxies.

(** [for k, v := range resp { r[k] = v }] for the one entry of [resp]. *)
Definition merge_entry (r : gmap string string) (kv : string * string)
  : gmap string string :=
  <[fst kv := snd kv]> r.

Inductive ProxyConfigFingerprint_returns (cfg : CCConfig) (cluster : string)
          (tr : list event) : gmap string string * option error -> Prop :=
| config_list_failed proxies err :
    ListProxyMonitorMetrics (tr ++ [opening cfg cluster]) = (proxies, Some err) ->
    ProxyConfigFingerprint_returns cfg cluster tr (∅, Some err)
| config_merged proxies arrived :
    ListProxyMonitorMetrics (tr ++ [opening cfg cluster]) = (proxies, None) ->
    arrived ≡ₚ config_answers cfg
                 (range_order (tr ++ [opening cfg cluster; EvListProxy]) proxies) ->
    ProxyConfigFingerprint_returns cfg cluster tr
      (fold_left merge_entry arrived ∅, None).

(** What the goroutines of [SQLFingerprint] send: the pointer the query
    returned, nil or not. *)
Definition sql_answers (name : string) (cfg : CCConfig)
           (proxies : list ProxyMonitorMetric)
  : list (option ProxySQLFingerprint) :=
  imap (fun i p => fst (QueryNamespaceSQLFingerprint i (host p) name cfg))
       proxies.

(** The body of [for r := range respC]: a nil answer is skipped, the
    entries of the two maps of another are written over what was merged
    so far. *)
Definition merge_sql (acc : gmap string string * gmap string string)
           (r : option ProxySQLFingerprint)
  : gmap string string * gmap string string :=
  match r with
  | None => acc
  | Some r => (SlowSQL r ∪ fst acc, ErrorSQL r ∪ snd acc)
  end.

Inductive SQLFingerprint_returns (name : string) (cfg : CCConfig)
          (cluster : string) (tr : list event)
  : gmap string string * gmap string string * option error -> Prop :=
| sql_list_failed proxies err :
    ListProxyMonitorMetrics (tr ++ [opening cfg cluster]) = (proxies, Some err) ->
    SQLFingerprint_returns name cfg cluster tr (∅, ∅, Some err)
| sql_merged proxies arrived :
    ListProxyMonitorMetrics (tr ++ [opening cfg cluster]) = (proxies, None) ->
    arrived ≡ₚ sql_answers name cfg
                 (range_order (tr ++ [opening cfg cluster; EvListProxy]) proxies) ->
    SQLFingerprint_returns name cfg cluster tr
      (fold_left merge_sql arrived (∅, ∅), None).

End Service.

Arguments EvOpen {Namespace}.
Arguments EvClose {Namespace}.
Arguments EvListNamespace {Namespace}.
Arguments EvLoadNamespace {Namespace}.
Arguments EvUpdateNamespace {Namespace}.
Arguments EvDelNamespace {Namespace}.
Arguments EvListProxy {Namespace}.
Arguments EvPrepareConfig {Namespace}.
Arguments EvCommitConfig {Namespace}.
Arguments EvProxyDelNamespace {Namespace}.
Arguments ret {Namespace A}.
Arguments bind {Namespace A B}.
Arguments call {Namespace R}.
Arguments opening {Namespace}.
Arguments loading {Namespace}.
Arguments with_store {Namespace A}.
Arguments ListNamespace {Namespace error}.
Arguments QueryNamespace_loop {Namespace error}.
Arguments QueryNamespace {Namespace error}.
Arguments range {Namespace}.
Arguments for_each {Namespace error}.
Arguments VerifyNamespaceError {error}.
Arguments EncryptNamespaceError {error}.
Arguments Passed {error}.
Arguments ModifyNamespace {Namespace error}.
Arguments DelNamespace {Namespace error}.
Arguments config_answers {error}.
Arguments ProxyConfigFingerprint_returns {Namespace error}.
Arguments sql_answers {error}.
Arguments SQLFingerprint_returns {Namespace error}.

(** A store and three proxies to run the functions on: namespaces and
    errors are strings, the store holds every namespace but the one named
    [missing], and the second proxy refuses to prepare a configuration and
    to delete a namespace. *)
Module Example.

Definition cfg : CCConfig :=
  {| CoordinatorAddr := "etcd:2379"; UserName := "cc"; Password := "secret";
     EncryptKey := "key" |}.

Definition proxies : list ProxyMonitorMetric :=
  [ {| IP := "10.0.0.1"; AdminPort := "13307" |};
    {| IP := "10.0.0.2"; AdminPort := "13307" |};
    {| IP := "10.0.0.3"; AdminPort := "13307" |} ].

Definition Verify (namespace : string) : option string := None.

Definition Encrypt (namespace key : string) : string * option string :=
  (namespace, None).

Definition Name (namespace : string) : string := namespace.

Definition LoadNamespace (tr : list (event string)) (key name : string)
  : option string * option string :=
  if String.eqb name "missing" then (None, None) else (Some name, None).

Definition UpdateNamespace (tr : list (event string)) (namespace : string)
  : option string := None.

Definition StoreDelNamespace (tr : list (event string)) (name : string)
  : option string := None.

Definition ListProxyMonitorMetrics (tr : list (event string))
  : list ProxyMonitorMetric * option string := (proxies, None).

Definition range_order (tr : list (event string))
           (proxies : list ProxyMonitorMetric) : list ProxyMonitorMetric :=
  proxies.

Definition refuses (host : string) : option string :=
  if String.eqb host "10.0.0.2:13307" then Some "refused"%string else None.

Definition PrepareConfig (tr : list (event string)) (host name : string)
           (cfg : CCConfig) : option string := refuses host.

Definition CommitConfig (tr : list (event string)) (host name : string)
           (cfg : CCConfig) : option string := None.

Definition ProxyDelNamespace (tr : list (event string)) (host name : string)
           (cfg : CCConfig) : option string := refuses host.

Definition QueryProxyConfigFingerprint (i : nat) (host : string) (cfg : CCConfig)
  : string * option string :=
  match refuses host with
  | Some err => (EmptyString, Some err)
  | None => ("md5 of " +:+ host, None)
  end.

End Example.

End service.

(** ** The escape table, in the spec's words

    Section 4.1 of the spec: only the bytes of the escape map are escaped,
    all others pass through as they are.  The map sends 0x00 to a
    backslash and [0], the two quotes and the backslash to a backslash and
    themselves, backspace, newline, carriage return and tab to a backslash
    and [b], [n], [r], [t], and 0x1A to a backslash and [Z]. *)

Module EscapeTable.

Definition backslash : byte := x5c.
Definition quote : byte := x27.

(** The character that follows the backslash, for the nine bytes that
    are escaped. *)
Definition mapped (b : byte) : option byte :=
  match b with
  | x00 => Some x30     (* 0x00 -> 0 *)
  | x08 => Some x62     (* backspace -> b *)
  | x09 => Some x74     (* tab -> t *)
  | x0a => Some x6e     (* newline -> n *)
  | x0d => Some x72     (* carriage return -> r *)
  | x1a => Some x5a     (* 0x1A -> Z *)
  | x27 => Some x27     (* single quote *)
  | x22 => Some x22     (* double quote *)
  | x5c => Some x5c     (* backslash *)
  | _ => None
  end.

Definition escape (b : byte) : list byte :=
  match mapped b with
  | Some m => [backslash; m]
  | None => [b]
  end.

Definition literal (s : list byte) : list byte :=
  [quote] ++ (s ≫= escape) ++ [quote].

End EscapeTable.

(** * Properties *)

(** ** [strconv]: what the parsers return *)

Module StrconvProperties.
Import strconv.

Lemma val_range (b : byte) : 0 <= Bytes.val b < 256.
Proof. destruct b; vm_compute; split; congruence. Qed.

Lemma val_inj (a b : byte) : Bytes.val a = Bytes.val b -> a = b.
Proof.
  unfold Bytes.val. intros H. apply N2Z.inj in H.
  assert (Byte.of_N (Byte.to_N a) = Byte.of_N (Byte.to_N b)) as E by (by rewrite H).
  rewrite !Byte.of_to_N in E. congruence.
Qed.

(** A successful digit loop ends on a number the loop checked against
    [maxVal], or on the number it started from. *)
Lemma digits_bounds base0 base cutoff maxVal s :
  forall n u n' u',
    digits base0 base cutoff maxVal s n u = inl (n', u') ->
    0 <= n <= maxVal -> 0 <= n' <= maxVal.
Proof.
  induction s as [|b s IH]; intros n u n' u' H Hn; simpl in H.
  - by inversion H; subst.
  - destruct ((Bytes.val b =? chr "_") && base0); [by eapply IH|].
    repeat match type of H with
           | (match (if ?c then _ else _) with _ => _ end) = _ => destruct c
           | (match ?x with _ => _ end) = _ => destruct x eqn:?
           | (if ?c then _ else _) = _ => destruct c eqn:?
           end; try discriminate;
    (eapply IH; [exact H|]);
    apply orb_false_elim in Heqb2 as [_ Hle];
    (split; [apply Z.mod_pos_bound; lia | lia]).
Qed.

Lemma digits_range_error base0 base cutoff maxVal s :
  forall n u v,
    digits base0 base cutoff maxVal s n u = inr (v, ErrRange) -> v = maxVal.
Proof.
  induction s as [|b s IH]; intros n u v H; simpl in H; [discriminate|].
  destruct ((Bytes.val b =? chr "_") && base0); [by eapply IH|].
  repeat match type of H with
         | (match (if ?c then _ else _) with _ => _ end) = _ => destruct c
         | (match ?x with _ => _ end) = _ => destruct x eqn:?
         | (if ?c then _ else _) = _ => destruct c eqn:?
         end; try discriminate; try (by eapply IH); congruence.
Qed.

Lemma ParseUint_range s u :
  ParseUint s 0 64 = (u, None) -> 0 <= u < 2 ^ 64.
Proof.
  unfold ParseUint. destruct s as [|b s]; [discriminate|].
  destruct (prefix 0 (b :: s)) as [[base' s']|]; [|discriminate].
  simpl.
  destruct (digits true base' _ _ s' 0 false) as [[n us]|[v e]] eqn:E;
    [|discriminate].
  apply digits_bounds in E; [|lia].
  destruct (us && _); intros [= <-]. lia.
Qed.

Lemma ParseUint_range_error s u :
  ParseUint s 0 64 = (u, Some ErrRange) -> u = 2 ^ 64 - 1.
Proof.
  unfold ParseUint. destruct s as [|b s]; [discriminate|].
  destruct (prefix 0 (b :: s)) as [[base' s']|]; [|discriminate].
  simpl.
  destruct (digits true base' _ _ s' 0 false) as [[n us]|[v e]] eqn:E.
  - destruct (us && _); discriminate.
  - intros [= <- ->]. by apply digits_range_error in E.
Qed.

Lemma ParseInt_range s i :
  ParseInt s 0 64 = (i, None) -> - 2 ^ 63 <= i < 2 ^ 63.
Proof.
  unfold ParseInt. destruct s as [|b s]; [discriminate|].
  set (sel := if Bytes.val b =? chr "+" then _ else _).
  destruct sel as [neg s'].
  destruct (ParseUint s' 0 64) as [un [e|]] eqn:E.
  - destruct e; try discriminate.
    apply ParseUint_range_error in E. subst un. simpl.
    destruct neg; simpl; discriminate.
  - apply ParseUint_range in E. simpl.
    destruct neg; simpl.
    + destruct (_ <? un) eqn:C; [discriminate|]. intros [= <-]. lia.
    + destruct (_ <=? un) eqn:C; [discriminate|]. intros [= <-]. lia.
Qed.

Lemma ParseUint_sign_fails b s :
Bytes.val b = chr "+" \/ Bytes.val b = chr "-" ->
ParseUint (b :: s) 0 64 = (0, Some ErrSyntax).
Proof.
intros [H|H].
- change (chr "+") with (Bytes.val x2b) in H. apply val_inj in H. subst. reflexivity.
- change (chr "-") with (Bytes.val x2d) in H. apply val_inj in H. subst. reflexivity.
Qed.

Lemma ParseInt_unsigned s u :
ParseUint s 0 64 = (u, None) ->
ParseInt s 0 64 = if 2 ^ 63 <=? u then (2 ^ 63 - 1, Some ErrRange) else (u, None).
Proof.
intros H. destruct s as [|b s]; [discriminate|].
unfold ParseInt.
destruct (Bytes.val b =? chr "+") eqn:E1.
{ apply Z.eqb_eq in E1. rewrite ParseUint_sign_fails in H by auto. discriminate. }
destruct (Bytes.val b =? chr "-") eqn:E2.
{ apply Z.eqb_eq in E2. rewrite ParseUint_sign_fails in H by auto. discriminate. }
rewrite H. simpl. change (2 ^ 63) with 9223372036854775808.
by destruct (_ <=? u).
Qed.

Lemma uint_value_acc d :
  forall acc, Z.pos (Pos.of_uint_acc d acc) = uint_value d (Z.pos acc).
Proof.
  induction d; intros acc; simpl; try reflexivity;
    rewrite IHd; f_equal; rewrite Pos.mul_comm; simpl; lia.
Qed.

Lemma uint_value_of_uint d : Z.of_N (Pos.of_uint d) = uint_value d 0.
Proof.
  induction d; simpl; try reflexivity; try apply IHd;
    rewrite uint_value_acc; reflexivity.
Qed.

Lemma uint_value_to_uint n : uint_value (N.to_uint n) 0 = Z.of_N n.
Proof.
  rewrite <- uint_value_of_uint.
  change (Pos.of_uint (N.to_uint n)) with (N.of_uint (N.to_uint n)).
  by rewrite DecimalN.Unsigned.of_to.
Qed.

Lemma uint_value_mono d : forall acc, 0 <= acc -> acc <= uint_value d acc.
Proof.
  induction d; intros acc H; simpl; try lia;
    (etransitivity; [|apply IHd]; lia).
Qed.

Lemma digits_decimal d :
  forall n u,
    0 <= n -> uint_value d n <= 2 ^ 64 - 1 ->
    digits true 10 (maxUint64 / 10 + 1) (2 ^ 64 - 1) (digits_of_uint d) n u
    = inl (uint_value d n, u).
Proof.
  induction d; intros n u Hn Hv; [reflexivity|..];
  (simpl in Hv;
   match type of Hv with
   | uint_value _ ?a <= _ =>
       pose proof (uint_value_mono d a ltac:(lia)) as Hm;
       specialize (IHd a u ltac:(lia) Hv)
   end;
   cbn [digits_of_uint digits];
   match goal with |- context [Bytes.val (Bytes.of_Z ?k)] =>
     change (Bytes.val (Bytes.of_Z k)) with k end;
   change ((_ =? chr "_") && true) with false; cbv iota;
   change (chr "0") with 48; change (chr "9") with 57; cbn [Z.leb Z.compare Pos.compare Pos.compare_cont andb];
   cbv iota beta zeta).
  all: change maxUint64 with 18446744073709551615 in *;
    change (18446744073709551615 `div` 10 + 1) with 1844674407370955162 in *;
    change (2 ^ 64) with 18446744073709551616 in *;
    match goal with
    | H : uint_value _ ?a <= _ |- context [(?e) `mod` _] =>
        replace e with a by lia
    end;
    rewrite Z.mod_small by lia;
    match goal with |- context [10 <=? ?k] =>
      replace (10 <=? k) with false by (symmetry; apply Z.leb_gt; lia) end;
    match goal with |- context [1844674407370955162 <=? ?k] =>
      replace (1844674407370955162 <=? k) with false by (symmetry; apply Z.leb_gt; lia) end;
    match goal with |- context [?a <? ?b] =>
      replace (a <? b) with false by (symmetry; apply Z.ltb_ge; lia) end;
    match goal with |- context [18446744073709551616 - 1 <? ?b] =>
      replace (18446744073709551616 - 1 <? b) with false by (symmetry; apply Z.ltb_ge; lia) end;
    exact IHd.
Qed.

(** The numeral of a positive number does not start with the digit 0. *)
Lemma to_uint_head p :
  match Pos.to_uint p with
  | Decimal.Nil | Decimal.D0 _ => False
  | _ => True
  end.
Proof.
  pose proof (DecimalPos.Unsigned.to_uint_nonnil p) as Hnil.
  pose proof (DecimalPos.Unsigned.to_uint_nonzero p) as Hz.
  pose proof (DecimalPos.Unsigned.to_of (Pos.to_uint p)) as Hn.
  rewrite DecimalPos.Unsigned.of_to in Hn. simpl in Hn.
  destruct (Pos.to_uint p) as [|d| | | | | | | | |]; try done.
  rewrite unorm_D0 in Hn.
  assert (d ≠ Decimal.Nil) as Hd by (intros ->; done).
  pose proof (nb_digits_unorm d Hd) as Hlen.
  rewrite <- Hn in Hlen. simpl in Hlen. lia.
Qed.

Lemma ParseUint_AppendUint n :
  0 <= n < 2 ^ 64 -> ParseUint (AppendUint n) 0 64 = (n, None).
Proof.
  intros Hn. unfold AppendUint.
  pose proof (uint_value_to_uint (Z.to_N n)) as Hv. rewrite Z2N.id in Hv by lia.
  destruct (Z.to_N n) as [|p] eqn:E.
  { simpl in Hv. subst n. reflexivity. }
  change (N.to_uint (N.pos p)) with (Pos.to_uint p) in *.
  pose proof (to_uint_head p) as Hh.
  destruct (Pos.to_uint p) as [|d|d|d|d|d|d|d|d|d|d] eqn:Ed; try done.
  all: pose proof (digits_decimal _ 0 false ltac:(lia) ltac:(rewrite Hv; lia)) as L.
  all: unfold ParseUint;
    match goal with |- context [prefix 0 ?s] =>
      change (prefix 0 s) with (Some (10, s)) end;
    cbn [digits_of_uint];
    change (digits_of_uint (?D d)) with (digits_of_uint (D d)) in L;
    cbn [digits_of_uint] in L;
    cbv beta iota;
    change ((64 <? 0) || (64 <? 64)) with false; cbv iota;
    change (0 =? 0) with true;
    change (2 ^ (if 64 =? 0 then 64 else 64) - 1) with (2 ^ 64 - 1);
    rewrite L; rewrite Hv; reflexivity.
Qed.

Lemma ParseInt_AppendInt n :
  - 2 ^ 63 <= n < 2 ^ 63 -> ParseInt (AppendInt n) 0 64 = (n, None).
Proof.
  intros Hn. unfold AppendInt.
  destruct (n <? 0) eqn:E.
  - apply Z.ltb_lt in E. unfold ParseInt.
    change (Bytes.val (Bytes.of_Z 45) =? chr "+") with false.
    change (Bytes.val (Bytes.of_Z 45) =? chr "-") with true.
    cbv iota beta.
    rewrite ParseUint_AppendUint by lia. cbv iota beta.
    change (2 ^ ((if 64 =? 0 then 64 else 64) - 1)) with (2 ^ 63).
    cbn [negb andb].
    replace (2 ^ 63 <? - n) with false by (symmetry; apply Z.ltb_ge; lia).
    f_equal. lia.
  - apply Z.ltb_ge in E.
    rewrite (ParseInt_unsigned _ n) by (apply ParseUint_AppendUint; lia).
    replace (2 ^ 63 <=? n) with false by (symmetry; apply Z.leb_gt; lia).
    reflexivity.
Qed.

End StrconvProperties.

(** ** [Value]: encoding, construction, equality *)

Module ValueProperties.
Import types.

Lemma fold_left_app_bind {A} (f : A -> list byte) (l : list A) (acc : list byte) :
  fold_left (fun buf ch => buf ++ f ch) l acc = acc ++ (l ≫= f).
Proof.
  revert acc. induction l as [|a l IH]; intros acc; simpl.
  - by rewrite app_nil_r.
  - rewrite IH. by rewrite <- app_assoc.
Qed.

Lemma encodeByteSQL_escape (ch : byte) :
  encodeByteSQL ch = EscapeTable.escape ch.
Proof. destruct ch; reflexivity. Qed.

Lemma encodeBytesSQL_literal (val b : list byte) :
  encodeBytesSQL val b = b ++ EscapeTable.literal val.
Proof.
  unfold encodeBytesSQL, EscapeTable.literal.
  rewrite fold_left_app_bind. f_equal.
  rewrite <- app_assoc. f_equal. f_equal.
  induction val as [|ch val IH]; [done|].
  by rewrite !bind_cons, encodeByteSQL_escape, IH.
Qed.

Lemma MakeTrusted_not_Null typ val :
  typ ≠ Null -> MakeTrusted typ val = {| ValueType := typ; Val := val |}.
Proof. intros H. unfold MakeTrusted. by destruct (decide (typ = Null)). Qed.

(** C1.  For a value of a quoted type (so not [Null]) with bytes [s],
    [EncodeSQL] appends to the writer a single quote, then for each byte
    of [s] either a backslash and the mapped character (for the nine
    bytes of the escape table) or the byte itself, then a single quote;
    and for the bytes [O'Brien] followed by a newline it writes exactly
    ['O\'Brien\n'] (the backslash-n being the two characters). *)
Theorem EncodeSQL_quoted_escapes (flags : TypeFlags) (typ : MySqlType)
        (s out : list byte) :
  typ ≠ Null ->
  IsQuoted typ = true ->
  EncodeSQL (MakeTrusted typ s) out = out ++ EscapeTable.literal s
  ∧ EncodeSQL (MakeTrusted typ (Bytes.lit "O'Brien" ++ [x0a])) []
    = [x27] ++ Bytes.lit "O" ++ [x5c; x27] ++ Bytes.lit "Brien"
      ++ [x5c] ++ Bytes.lit "n" ++ [x27].
Proof.
  intros Hnull Hq.
  assert (forall v o, EncodeSQL (MakeTrusted typ v) o = o ++ EscapeTable.literal v) as H.
  { intros v o. rewrite MakeTrusted_not_Null by done.
    unfold EncodeSQL; simpl.
    rewrite bool_decide_eq_false_2 by done. rewrite Hq.
    apply encodeBytesSQL_literal. }
  split; [apply H|]. rewrite H. reflexivity.
Qed.

Lemma EncodeSQL_quoted_escapes_witness :
  VarChar ≠ Null ∧ @IsQuoted spec_flags VarChar = true
  ∧ @EncodeSQL spec_flags (NewVarChar (Bytes.lit "O'Brien" ++ [x0a])) []
    = [x27] ++ Bytes.lit "O" ++ [x5c; x27] ++ Bytes.lit "Brien"
      ++ [x5c] ++ Bytes.lit "n" ++ [x27].
Proof.
  split; [discriminate|]. split; [reflexivity|].
  apply (EncodeSQL_quoted_escapes spec_flags VarChar [] []);
    [discriminate | reflexivity].
Defined.

Lemma Equal_eq (a b : list byte) : Bytes.Equal a b = true <-> a = b.
Proof.
  revert b. induction a as [|x a IH]; intros [|y b]; simpl; try (split; congruence).
  rewrite andb_true_iff, IH. split.
  - intros [Hxy ->]. apply Byte.byte_dec_bl in Hxy. by subst.
  - intros [= -> ->]. split; [|done]. by apply Byte.byte_dec_lb.
Qed.

(** C2, as the code has it.  For a type other than [Null] that [IsSigned]
    (or, failing that, [IsUnsigned]) accepts, [NewValue] succeeds exactly
    when the bytes parse in base 0 as a signed (unsigned) 64-bit integer;
    the value then carries the bytes it was given, unchanged, and when
    they do not parse the parser's error is returned with [NULL].  The
    canonical decimal rendering of every 64-bit integer is accepted, so a
    value built from canonical text carries canonical text. *)
Theorem NewValue_integral_keeps_bytes (flags : TypeFlags)
        (ParseFloat_fails : list byte -> bool) (typ : MySqlType) (val : list byte) :
  typ ≠ Null ->
  IsSigned typ = true ∨ IsUnsigned typ = true ->
  let parsed := if IsSigned typ then strconv.ParseInt val 0 64
                else strconv.ParseUint val 0 64 in
  NewValue ParseFloat_fails typ val
  = match parsed with
    | (_, None) => ({| ValueType := typ; Val := val |}, None)
    | (_, Some err) => (NULL, Some (NumError err))
    end
  ∧ (forall n, (if IsSigned typ then - 2 ^ 63 <= n < 2 ^ 63 else 0 <= n < 2 ^ 64) ->
     let text := if IsSigned typ then strconv.AppendInt n else strconv.AppendUint n in
     NewValue ParseFloat_fails typ text = ({| ValueType := typ; Val := text |}, None)).
Proof.
  intros Hnull Hint parsed. subst parsed. unfold NewValue.
  destruct (IsSigned typ) eqn:Hs.
  - split.
    + destruct (strconv.ParseInt val 0 64) as [i [e|]]; [done|].
      by rewrite MakeTrusted_not_Null.
    + intros n Hn. cbv zeta.
      rewrite StrconvProperties.ParseInt_AppendInt by done.
      by rewrite MakeTrusted_not_Null.
  - destruct Hint as [|Hu]; [done|]. rewrite Hu. split.
    + destruct (strconv.ParseUint val 0 64) as [i [e|]]; [done|].
      by rewrite MakeTrusted_not_Null.
    + intros n Hn. cbv zeta.
      rewrite StrconvProperties.ParseUint_AppendUint by done.
      by rewrite MakeTrusted_not_Null.
Qed.

Lemma NewValue_integral_keeps_bytes_witness :
  @NewValue spec_flags (fun _ => false) Int64 (Bytes.lit "-42")
  = ({| ValueType := Int64; Val := Bytes.lit "-42" |}, None).
Proof.
  pose proof (NewValue_integral_keeps_bytes spec_flags (fun _ => false) Int64
                (Bytes.lit "-42") ltac:(discriminate) ltac:(left; reflexivity)) as H.
  exact (proj1 H).
Defined.

(** C2, as the claim has it, fails: the bytes [0x10] parse in base 0 as
    the integer 16, [NewValue] with the signed type [Int64] succeeds, and
    the value carries [0x10], not the canonical rendering [16]. *)
Lemma NewValue_hex_not_canonical :
  strconv.ParseInt (Bytes.lit "0x10") 0 64 = (16, None)
  ∧ strconv.AppendInt 16 = Bytes.lit "16"
  ∧ @IsSigned spec_flags Int64 = true
  ∧ ∃ v, @NewValue spec_flags (fun _ => false) Int64 (Bytes.lit "0x10") = (v, None)
         ∧ Val v = Bytes.lit "0x10"
         ∧ Val v ≠ strconv.AppendInt 16.
Proof.
  repeat split; try reflexivity.
  eexists. repeat split; try reflexivity. discriminate.
Qed.

(** C7.  [NewIntegral] returns an [Int64] value, holding the decimal
    rendering of the number read, whenever the text parses as a signed
    64-bit integer; otherwise a [Uint64] value when it parses as an unsigned
    64-bit integer, and the number is then one that does not fit the
    signed range; otherwise the parser's error. *)
Theorem NewIntegral_prefers_Int64 (val : list byte) :
  match strconv.ParseInt val 0 64 with
  | (signed, None) =>
      NewIntegral val
      = ({| ValueType := Int64; Val := strconv.AppendInt signed |}, None)
      ∧ - 2 ^ 63 <= signed < 2 ^ 63
  | (_, Some _) =>
      match strconv.ParseUint val 0 64 with
      | (unsigned, None) =>
          NewIntegral val
          = ({| ValueType := Uint64; Val := strconv.AppendUint unsigned |}, None)
          ∧ 2 ^ 63 <= unsigned < 2 ^ 64
      | (_, Some err) => NewIntegral val = (NULL, Some (NumError err))
      end
  end.
Proof.
  unfold NewIntegral.
  destruct (strconv.ParseInt val 0 64) as [i [e|]] eqn:Ei.
  - destruct (strconv.ParseUint val 0 64) as [u [e'|]] eqn:Eu; [done|].
    split; [done|].
    pose proof (StrconvProperties.ParseUint_range _ _ Eu).
    rewrite (StrconvProperties.ParseInt_unsigned _ _ Eu) in Ei.
    destruct (Z.leb_spec (2 ^ 63) u); [lia|discriminate].
  - split; [done|]. by apply StrconvProperties.ParseInt_range in Ei.
Qed.

Lemma NewIntegral_examples :
  NewIntegral (Bytes.lit "-7") = ({| ValueType := Int64; Val := Bytes.lit "-7" |}, None)
  ∧ NewIntegral (Bytes.lit "0x10") = ({| ValueType := Int64; Val := Bytes.lit "16" |}, None)
  ∧ NewIntegral (Bytes.lit "9223372036854775808")
    = ({| ValueType := Uint64; Val := Bytes.lit "9223372036854775808" |}, None)
  ∧ NewIntegral (Bytes.lit "18446744073709551616")
    = (NULL, Some (NumError strconv.ErrRange))
  ∧ NewIntegral (Bytes.lit "abc") = (NULL, Some (NumError strconv.ErrSyntax)).
Proof. repeat split; reflexivity. Qed.

Lemma MakeTrusted_Null_bytes typ b :
  ValueType (MakeTrusted typ b) = Null -> MakeTrusted typ b = NULL.
Proof.
  unfold MakeTrusted. destruct (decide (typ = Null)); [done|]. simpl. congruence.
Qed.

Lemma NewValue_Null_bytes (flags : TypeFlags) pf typ b :
  ValueType (fst (NewValue pf typ b)) = Null -> fst (NewValue pf typ b) = NULL.
Proof.
  unfold NewValue.
  repeat match goal with
         | |- context [match ?x with _ => _ end] => destruct x
         end; simpl; auto using MakeTrusted_Null_bytes.
Qed.

(** C8.  A value built by [MakeTrusted] or [NewValue] whose type code is
    [Null] is the canonical [NULL], whose bytes are empty; in particular
    building with the type [Null] gives [NULL] whatever the bytes, and
    [NewValue] does so without an error when [Null] is none of signed,
    unsigned or float. *)
Theorem Null_value_has_no_bytes (flags : TypeFlags)
        (ParseFloat_fails : list byte -> bool) (typ : MySqlType) (b : list byte) :
  IsSigned Null = false -> IsUnsigned Null = false -> IsFloat Null = false ->
  MakeTrusted Null b = NULL
  ∧ NewValue ParseFloat_fails Null b = (NULL, None)
  ∧ Val NULL = []
  ∧ (ValueType (MakeTrusted typ b) = Null -> Val (MakeTrusted typ b) = [])
  ∧ (ValueType (fst (NewValue ParseFloat_fails typ b)) = Null ->
     Val (fst (NewValue ParseFloat_fails typ b)) = []).
Proof.
  intros Hs Hu Hf. repeat split.
  - unfold NewValue. rewrite Hs, Hu, Hf. simpl.
    by rewrite ?orb_true_r.
  - intros H. by rewrite (MakeTrusted_Null_bytes _ _ H).
  - intros H. by rewrite (NewValue_Null_bytes _ _ _ _ H).
Qed.

Lemma Null_value_has_no_bytes_witness :
  @NewValue spec_flags (fun _ => false) Null (Bytes.lit "anything") = (NULL, None)
  ∧ MakeTrusted Null (Bytes.lit "anything") = NULL.
Proof.
  pose proof (Null_value_has_no_bytes spec_flags (fun _ => false) Null
                (Bytes.lit "anything") eq_refl eq_refl eq_refl) as H.
  exact (conj (proj1 (proj2 H)) (proj1 H)).
Defined.

(** C10.  [Equals] answers true exactly when its argument holds a pointer
    to a [Value] of the same type and the same bytes; for an argument of
    any other dynamic type (a [Value] held by value among them, even one
    with the receiver's type and bytes) it answers false. *)
Theorem Equals_only_pointer_to_Value (v : Value) (value : iface) :
  (Equals (Some v) value = Some true
   <-> ∃ vv, value = IfacePtrValue (Some vv)
             ∧ ValueType v = ValueType vv ∧ Val v = Val vv)
  ∧ ((forall p, value ≠ IfacePtrValue p) ->
     forall receiver, Equals receiver value = Some false)
  ∧ Equals (Some v) (IfaceValue v) = Some false.
Proof.
  split; [|split].
  - split.
    + destruct value as [[vv|]| | |]; simpl; try discriminate.
      intros [= H]. apply andb_true_iff in H as [Ht Hb].
      apply bool_decide_eq_true in Ht. apply Equal_eq in Hb. eauto.
    + intros (vv & -> & Ht & Hb). simpl.
      rewrite bool_decide_eq_true_2 by done.
      by rewrite (proj2 (Equal_eq _ _) Hb).
  - intros H receiver. destruct value; try reflexivity. by destruct (H p).
  - reflexivity.
Qed.

Lemma Equals_only_pointer_to_Value_witness :
  Equals (Some (NewVarChar (Bytes.lit "a"))) (IfaceOther "string") = Some false.
Proof.
  refine (proj1 (proj2 (Equals_only_pointer_to_Value
                          (NewVarChar (Bytes.lit "a")) (IfaceOther "string"))) _ _).
  intros p. discriminate.
Defined.

End ValueProperties.
(** ** The builtin [None] strategy *)

Module StrategyProperties.
Import core.

(** C6.  Whatever the candidate sources and the sharding values, [Shard]
    of the builtin [None] strategy returns the candidates as they are and
    no error; the strategy has no sharding columns and supports neither
    scalar nor range values. *)
Theorem NoneShardingStrategy_is_neutral (ShardingValues error : Type)
        (sources : list string) (values : option ShardingValues) :
  Shard (ShardingValues := ShardingValues) (error := error)
        (NoneShardingStrategy) sources values = (sources, None)
  ∧ GetShardingColumns (ShardingValues := ShardingValues) (error := error)
                       NoneShardingStrategy = []
  ∧ IsScalarValueSupported (ShardingValues := ShardingValues) (error := error)
                           NoneShardingStrategy = false
  ∧ IsRangeValueSupported (ShardingValues := ShardingValues) (error := error)
                          NoneShardingStrategy = false.
Proof. repeat split. Qed.

End StrategyProperties.

(** ** [RewriteLimit] *)

Module RewritingProperties.
Import rewriting.

Section Engine.
Context {ast_Limit LimitWriter error : Type}.
Variable NewLimitWriter : Context -> LimitWriter + error.

(** C5, as the code has it.  [RewriteLimit] records a limit rewrite
    exactly when the statement has [LIMIT offset, count], that is when the
    limit lookup reports a limit and an offset, whether or not the explain
    has a sharded table: it reads nothing of the context but the lookup.
    With the writer of the spec the rewrite recorded is to
    [LIMIT 0, offset+count].  When the limit has no offset, or there is no
    limit, the [None] result is returned and the limit is left as it is.
    In the code the writer comes from [NewLimitWriter], which is handed the
    context: the writer it builds is the one recorded, and an error of it
    is returned in place of a result. *)
Theorem RewriteLimit_follows_lookup (limit : ast_Limit) (explainContext : Context) :
  let lookup := GetLimitLookup explainContext in
  ((∃ writer,
      RewriteLimit spec_NewLimitWriter limit explainContext
      = inl (ResultFromLimit writer))
   <-> HasLimit lookup = true ∧ HasOffset lookup = true)
  ∧ (forall writer,
       RewriteLimit spec_NewLimitWriter limit explainContext
       = inl (ResultFromLimit writer) ->
       writer = {| EmitOffset := 0; EmitCount := Offset lookup + Count lookup |})
  ∧ (forall tables,
       RewriteLimit spec_NewLimitWriter limit
                    {| ShardedTables := tables; GetLimitLookup := lookup |}
       = RewriteLimit spec_NewLimitWriter limit explainContext)
  ∧ (HasOffset lookup = false ->
     RewriteLimit spec_NewLimitWriter limit explainContext
     = inl NoneRewriteLimitResult
     ∧ RewriteLimit NewLimitWriter limit explainContext
       = inl NoneRewriteLimitResult)
  ∧ (HasLimit lookup = false ->
     RewriteLimit spec_NewLimitWriter limit explainContext
     = inl NoneRewriteLimitResult
     ∧ RewriteLimit NewLimitWriter limit explainContext
       = inl NoneRewriteLimitResult)
  ∧ (forall writer,
       RewriteLimit NewLimitWriter limit explainContext
       = inl (ResultFromLimit writer)
       <-> HasLimit lookup = true ∧ HasOffset lookup = true
           ∧ NewLimitWriter explainContext = inl writer)
  ∧ (forall err,
       RewriteLimit NewLimitWriter limit explainContext = inr err
       <-> HasLimit lookup = true ∧ HasOffset lookup = true
           ∧ NewLimitWriter explainContext = inr err).
Proof.
  unfold RewriteLimit, spec_NewLimitWriter. cbv zeta.
  destruct explainContext as [tables0 [hl ho off cnt]]. cbn.
  destruct hl, ho; cbn; (split; [|split; [|split; [|split; [|split; [|split]]]]]).
  all: try (intros writer; split; [|intros (? & ? & ?)]).
  all: try (destruct (NewLimitWriter _); congruence).
  all: try (split; [intros [w Hw]|intros [? ?]; eauto]; done).
  all: try (intros w; congruence).
  all: try done.
  all: destruct (NewLimitWriter _); intros [= ->]; done.
Qed.

End Engine.

(** C5, as the claim has it, fails: for a statement with [LIMIT 10, 5]
    and an explain without any sharded table, [RewriteLimit] (with the
    writer of the spec, [LIMIT 0, offset+count]) records the rewrite to
    [LIMIT 0, 15]. *)
Lemma RewriteLimit_without_sharded_table :
  let ctx := {| ShardedTables := [];
                GetLimitLookup := {| HasLimit := true; HasOffset := true;
                                     Offset := 10; Count := 5 |} |} in
  ShardedTables ctx = []
  ∧ RewriteLimit spec_NewLimitWriter tt ctx
    = inl (ResultFromLimit {| EmitOffset := 0; EmitCount := 15 |}).
Proof. split; reflexivity. Qed.

End RewritingProperties.

(** ** [GenerateSql] *)

Module GenProperties.
Import gen.

Section Gen.
Context {SqlExplain genRuntime BindVariables Values error : Type}.
Variable RestoreShardingValues : SqlExplain -> BindVariables -> Values + error.
Variable len : Values -> nat.
Variable NewRuntime : string -> SqlExplain -> Values -> BindVariables
                      -> genRuntime + error.
Variable SetVars : SqlExplain -> BindVariables -> SqlExplain * option error.
Variable Next : genRuntime -> bool * genRuntime.
Variable RestoreSql : SqlExplain -> genRuntime -> (string + error) * genRuntime.
Variable currentDb : genRuntime -> string.
Variable GetCurrentBindVariables : genRuntime -> BindVariables.

Local Abbreviation gen_loop := (gen_loop Next RestoreSql currentDb GetCurrentBindVariables).
Local Abbreviation run := (run Next RestoreSql currentDb GetCurrentBindVariables).
Local Abbreviation failed_run := (failed_run Next RestoreSql).
Local Abbreviation GenerateSql :=
  (GenerateSql RestoreShardingValues len NewRuntime SetVars Next RestoreSql
               currentDb GetCurrentBindVariables).

(** With fuel for one more iteration than the cursor has advances, the
    loop returns the commands of the run after those it started with. *)
Lemma gen_loop_complete e rt cmds :
  run e rt cmds ->
  forall fuel acc,
    (length cmds < fuel)%nat ->
    gen_loop fuel e rt acc
    = Some (inl {| Usage := UsageShard; Commands := acc ++ cmds |}).
Proof.
  induction 1 as [rt rt' Hn | rt rt1 sql rt2 cmds Hn Hr _ IH];
    intros [|fuel] acc Hf; simpl in *; try lia; rewrite Hn.
  - by rewrite app_nil_r.
  - rewrite Hr. rewrite IH by lia. by rewrite <- app_assoc.
Qed.

(** What the loop returns, it returns for a run of the cursor. *)
Lemma gen_loop_sound fuel :
  forall e rt acc r,
    gen_loop fuel e rt acc = Some (inl r) ->
    Usage r = UsageShard ∧ ∃ cmds, run e rt cmds ∧ Commands r = acc ++ cmds.
Proof.
  induction fuel as [|fuel IH]; intros e rt acc r H; simpl in H; [done|].
  destruct (Next rt) as [[] rt1] eqn:Hn.
  - destruct (RestoreSql e rt1) as [[sql|err] rt2] eqn:Hr; [|done].
    apply IH in H as (Hu & cmds & Hrun & Hc). split; [done|].
    eexists. split; [by eapply run_advance|].
    by rewrite Hc, <- app_assoc.
  - injection H as <-. split; [done|]. exists []. split.
    + by eapply run_exhausted.
    + by rewrite app_nil_r.
Qed.

(** A run that breaks off makes the loop return the error of the restore
    that failed, whatever it had collected. *)
Lemma gen_loop_failed e rt k err :
  failed_run e rt k err ->
  forall fuel acc, (k < fuel)%nat -> gen_loop fuel e rt acc = Some (inr err).
Proof.
  induction 1 as [rt rt1 err rt2 Hn Hr | rt rt1 sql rt2 k err Hn Hr _ IH];
    intros [|fuel] acc Hf; simpl; try lia; rewrite Hn, Hr; [done|].
  apply IH. lia.
Qed.

(** An error of the loop is the error of a restore that failed. *)
Lemma gen_loop_error fuel :
  forall e rt acc err,
    gen_loop fuel e rt acc = Some (inr err) ->
    ∃ k, (k < fuel)%nat ∧ failed_run e rt k err.
Proof.
  induction fuel as [|fuel IH]; intros e rt acc err H; simpl in H; [done|].
  destruct (Next rt) as [[] rt1] eqn:Hn; [|done].
  destruct (RestoreSql e rt1) as [[sql|err'] rt2] eqn:Hr.
  - apply IH in H as (k & Hk & Hrun). exists (S k). split; [lia|].
    by eapply failed_later.
  - injection H as ->. exists 0%nat. split; [lia|]. by eapply failed_now.
Qed.

(** A result reached within a bound is reached within every larger one. *)
Lemma gen_loop_more_fuel fuel :
  forall e rt acc r fuel',
    gen_loop fuel e rt acc = Some r -> (fuel ≤ fuel')%nat ->
    gen_loop fuel' e rt acc = Some r.
Proof.
  induction fuel as [|fuel IH]; intros e rt acc r fuel' H Hle; simpl in H; [done|].
  destruct fuel' as [|fuel']; [lia|]. simpl.
  destruct (Next rt) as [[] rt1] eqn:Hn; [|done].
  destruct (RestoreSql e rt1) as [[sql|err'] rt2] eqn:Hr; [|done].
  eapply IH; [done|lia].
Qed.

(** C4, as the code has it.  A result is returned with usage [Raw], and
    then without commands, exactly when the sharding values are restored
    and are empty.  When they are restored and not empty, the runtime is
    built, the variables are set and every restore succeeds, the result has
    usage [Shard] and one command (current data source, restored SQL,
    current bind variables) for each advance of the cursor, in order, up to
    the advance that finds the cursor exhausted; and every result with
    usage [Shard] comes about that way.  An error of [RestoreShardingValues],
    of [NewRuntime], of [SetVars] or of the [RestoreSql] of some shard is
    returned in place of a result, each in its turn, and an error is
    returned in no other way. *)
Theorem GenerateSql_raw_or_shard (defaultDataSource : string)
        (expl : SqlExplain) (bindVariables : BindVariables) :
  (forall fuel r,
     GenerateSql fuel defaultDataSource expl bindVariables = Some (inl r) ->
     (Usage r = UsageRaw
      <-> ∃ values, RestoreShardingValues expl bindVariables = inl values
                    ∧ len values = 0%nat)
     ∧ (Usage r = UsageRaw -> Commands r = [])
     ∧ (Usage r = UsageShard ->
        ∃ values runtime expl',
          RestoreShardingValues expl bindVariables = inl values
          ∧ len values ≠ 0%nat
          ∧ NewRuntime defaultDataSource expl values bindVariables = inl runtime
          ∧ SetVars expl bindVariables = (expl', None)
          ∧ run expl' runtime (Commands r)))
  ∧ (forall values,
       RestoreShardingValues expl bindVariables = inl values ->
       len values = 0%nat ->
       forall fuel,
         GenerateSql fuel defaultDataSource expl bindVariables
         = Some (inl {| Usage := UsageRaw; Commands := [] |}))
  ∧ (forall values runtime expl' cmds,
       RestoreShardingValues expl bindVariables = inl values ->
       len values ≠ 0%nat ->
       NewRuntime defaultDataSource expl values bindVariables = inl runtime ->
       SetVars expl bindVariables = (expl', None) ->
       run expl' runtime cmds ->
       forall fuel,
         (length cmds < fuel)%nat ->
         GenerateSql fuel defaultDataSource expl bindVariables
         = Some (inl {| Usage := UsageShard; Commands := cmds |}))
  ∧ (forall fuel err,
       RestoreShardingValues expl bindVariables = inr err ->
       GenerateSql fuel defaultDataSource expl bindVariables = Some (inr err))
  ∧ (forall values err,
       RestoreShardingValues expl bindVariables = inl values ->
       len values ≠ 0%nat ->
       NewRuntime defaultDataSource expl values bindVariables = inr err ->
       forall fuel,
         GenerateSql fuel defaultDataSource expl bindVariables = Some (inr err))
  ∧ (forall values runtime expl' err,
       RestoreShardingValues expl bindVariables = inl values ->
       len values ≠ 0%nat ->
       NewRuntime defaultDataSource expl values bindVariables = inl runtime ->
       SetVars expl bindVariables = (expl', Some err) ->
       forall fuel,
         GenerateSql fuel defaultDataSource expl bindVariables = Some (inr err))
  ∧ (forall values runtime expl' k err,
       RestoreShardingValues expl bindVariables = inl values ->
       len values ≠ 0%nat ->
       NewRuntime defaultDataSource expl values bindVariables = inl runtime ->
       SetVars expl bindVariables = (expl', None) ->
       failed_run expl' runtime k err ->
       forall fuel,
         (k < fuel)%nat ->
         GenerateSql fuel defaultDataSource expl bindVariables = Some (inr err))
  ∧ (forall fuel err,
       GenerateSql fuel defaultDataSource expl bindVariables = Some (inr err) ->
       RestoreShardingValues expl bindVariables = inr err
       ∨ ∃ values,
           RestoreShardingValues expl bindVariables = inl values
           ∧ len values ≠ 0%nat
           ∧ (NewRuntime defaultDataSource expl values bindVariables = inr err
              ∨ ∃ runtime,
                  NewRuntime defaultDataSource expl values bindVariables
                  = inl runtime
                  ∧ ((∃ expl', SetVars expl bindVariables = (expl', Some err))
                     ∨ ∃ expl' k,
                         SetVars expl bindVariables = (expl', None)
                         ∧ (k < fuel)%nat
                         ∧ failed_run expl' runtime k err))).
Proof.
  unfold gen.GenerateSql, gen.gen.
  destruct (RestoreShardingValues expl bindVariables) as [values|err] eqn:Hv.
  2: { repeat split; intros; simplify_eq; auto. }
  destruct (Nat.eqb_spec (len values) 0) as [Hz|Hz].
  { repeat split; intros; simplify_eq/=; try done. eauto. }
  destruct (NewRuntime defaultDataSource expl values bindVariables)
    as [runtime|err] eqn:Hrt.
  2: { repeat split; intros; simplify_eq; try congruence.
       right. exists values. auto. }
  destruct (SetVars expl bindVariables) as [expl' [err|]] eqn:Hs.
  { repeat split; intros; simplify_eq; try congruence.
    right. exists values. split; [done|]. split; [done|].
    right. exists runtime. split; [done|]. left. eauto. }
  split; [|split; [|split; [|split; [|split; [|split; [|split]]]]]];
    intros; simplify_eq; try congruence.
  - match goal with H : _ = Some (inl _) |- _ =>
      apply gen_loop_sound in H as (Hu & cmds & Hrun & Hc) end.
    simpl in Hc. subst cmds. rewrite Hu. split; [|split]; try done.
    + split; [done|]. intros (v & ? & ?). simplify_eq.
    + intros _. exists values, runtime, expl'. done.
  - assert (runtime0 = runtime) as -> by congruence.
    erewrite gen_loop_complete; [done | eassumption | done].
  - assert (runtime0 = runtime) as -> by congruence.
    by eapply gen_loop_failed.
  - match goal with H : _ = Some (inr _) |- _ =>
      apply gen_loop_error in H as (k & Hk & Hrun) end.
    right. exists values. split; [done|]. split; [done|].
    right. exists runtime. split; [done|]. right. by exists expl', k.
Qed.

End Gen.

(** An explain that resolves to two coordinates gives two commands, in the
    order of the coordinates; one that resolves to none is passed through. *)
Lemma GenerateSql_example :
  let c0 := {| Spec.CoordDb := "ds0"; Spec.CoordSql := "SELECT * FROM orders_0";
               Spec.CoordVars := [] |} in
  let c1 := {| Spec.CoordDb := "ds1"; Spec.CoordSql := "SELECT * FROM orders_1";
               Spec.CoordVars := [] |} in
  Spec.GenerateSql 3 "ds0" [c0; c1] []
  = Some (inl {| Usage := UsageShard;
                 Commands := [ {| DataSource := "ds0";
                                  SqlCommand := "SELECT * FROM orders_0";
                                  Vars := [] |};
                               {| DataSource := "ds1";
                                  SqlCommand := "SELECT * FROM orders_1";
                                  Vars := [] |} ] |})
  ∧ Spec.GenerateSql 3 "ds0" [] []
    = Some (inl {| Usage := UsageRaw; Commands := [] |}).
Proof. split; reflexivity. Qed.

(** C4, as the claim has it, fails: the sharding values restored are not
    empty, the cursor advances once, restoring the SQL of that shard fails,
    and [GenerateSql] returns the error, which is neither a [Raw] nor a
    [Shard] result. *)
Lemma GenerateSql_returns_restore_error :
  let c := {| Spec.CoordDb := "ds0"; Spec.CoordSql := ""; Spec.CoordVars := [] |} in
  Spec.RestoreShardingValues [c] [] = inl [c]
  ∧ Spec.Next {| Spec.Pending := [c]; Spec.Current := None |}
    = (true, {| Spec.Pending := []; Spec.Current := Some c |})
  ∧ Spec.GenerateSql 1 "ds0" [c] [] = Some (inr "EmptyInList"%string)
  ∧ Spec.GenerateSql 100 "ds0" [c] [] = Some (inr "EmptyInList"%string).
Proof. repeat split; reflexivity. Qed.

End GenProperties.

(** ** The handshake packets *)

Module HandshakeProperties.
Import mysql server.

Lemma write_at_fill (w rest src : list byte) :
  (length src ≤ length rest)%nat ->
  write_at (w ++ rest) (length w) src
  = Some ((w ++ src) ++ drop (length src) rest, length (w ++ src)).
Proof.
  intros H. unfold write_at.
  rewrite decide_True by (rewrite length_app; lia).
  rewrite take_app_length, drop_app_add', length_app by done.
  by rewrite <- app_assoc.
Qed.

Lemma copy_at_fill (w rest src : list byte) :
  (length src ≤ length rest)%nat ->
  copy_at (w ++ rest) (length w) src
  = Some ((w ++ src) ++ drop (length src) rest, length src).
Proof.
  intros H. unfold copy_at.
  rewrite decide_True by (rewrite length_app; lia).
  rewrite length_app.
  replace ((length w + length rest - length w) `min` length src)%nat
    with (length src) by lia.
  rewrite take_app_length, drop_app_add', firstn_all by done.
  by rewrite <- app_assoc.
Qed.

Lemma of_Z_mod (a b : Z) : a mod 256 = b mod 256 -> Bytes.of_Z a = Bytes.of_Z b.
Proof. unfold Bytes.of_Z. by intros ->. Qed.

Lemma of_Z_uint16 (x : Z) : Bytes.of_Z (uint16 x) = Bytes.of_Z x.
Proof.
  apply of_Z_mod. unfold uint16. change (2 ^ 16) with 65536.
  Z.div_mod_to_equations. lia.
Qed.

Lemma of_Z_uint16_high (x : Z) :
  Bytes.of_Z (Z.shiftr (uint16 x) 8) = Bytes.of_Z (Z.shiftr x 8).
Proof.
  apply of_Z_mod. unfold uint16. rewrite !Z.shiftr_div_pow2 by lia.
  change (2 ^ 16) with 65536. change (2 ^ 8) with 256.
  Z.div_mod_to_equations. lia.
Qed.

Lemma shiftr_16_8 (x : Z) : Z.shiftr (Z.shiftr x 16) 8 = Z.shiftr x 24.
Proof. rewrite Z.shiftr_shiftr by lia. reflexivity. Qed.

Ltac fill_side Hsalt Hregion :=
  rewrite ?length_drop, ?Hregion, ?length_app, ?length_take, ?length_replicate,
    ?Hsalt;
  unfold LenNullString; cbn [length]; lia.

Section Handshake.
Variable ServerVersion : list byte.
Variable DefaultCapability : Z.
Variable DefaultCollationID : Z.
Variable initClientConnStatus : Z.
Variable region : nat -> list byte.
Hypothesis region_length : forall n, length (region n) = n.

(** C3, as the code has it.  With the twenty salt bytes a new connection
    is given, the packet [writeInitialHandshake] writes has, after the
    status flags and the upper capability bytes, the length byte 21, ten
    zero bytes, the twelve salt bytes left, a zero byte, and then the plugin
    name caching_sha2_password ended by a zero byte, which ends the packet.
    The packet [writeInitialHandshakeV10] writes has the same bytes (with
    its own status flags) up to the zero byte after the salt, and ends
    there: it carries no plugin name. *)
Theorem handshake_packets (cc : ClientConn) :
  length (salt cc) = 20%nat ->
  length (drop 8 (salt cc)) = 12%nat
  ∧ writeInitialHandshake ServerVersion DefaultCapability DefaultCollationID cc
    = Some (with_conn cc
              (WritePacket (Conn cc)
                 (before_status ServerVersion DefaultCapability DefaultCollationID cc ++ [x00; x00] ++ after_status DefaultCapability cc
                  ++ AUTH_CACHING_SHA2_PASSWORD ++ [x00])), None)
  ∧ writeInitialHandshakeV10 ServerVersion DefaultCapability DefaultCollationID
      initClientConnStatus region cc
    = Some (with_conn cc
              (WritePacket (Conn cc)
                 (before_status ServerVersion DefaultCapability DefaultCollationID cc
                  ++ [Bytes.of_Z initClientConnStatus;
                      Bytes.of_Z (Z.shiftr initClientConnStatus 8)]
                  ++ after_status DefaultCapability cc)), None).
Proof.
  intros Hsalt. split; [|split].
  - rewrite length_drop. lia.
  - unfold writeInitialHandshake, slice_to, slice_from.
    rewrite !decide_True by lia. cbn [mbind option_bind].
    unfold before_status, after_status.
    do 2 f_equal. f_equal. f_equal.
    rewrite <- !app_assoc. reflexivity.
  - unfold writeInitialHandshakeV10, slice_to, slice_from.
    rewrite !decide_True by lia.
    unfold WriteByte, WriteNullString, WriteUint32, WriteUint16, WriteZeroes.
    match goal with |- context [write_at (region ?L) 0 ?x] =>
      change (write_at (region L) 0 x)
        with (write_at ([] ++ region L) (length (@nil byte)) x)
    end.
    cbn [mbind option_bind].
    repeat (first [ rewrite write_at_fill by fill_side Hsalt region_length
                  | rewrite copy_at_fill by fill_side Hsalt region_length ];
            cbn [mbind option_bind option_ret mret];
            rewrite <- ?length_app).
    match goal with |- context [length (?w ++ ?r)] =>
      lazymatch r with
      | drop _ _ =>
          assert (r = []) as ->
            by (apply nil_length_inv; fill_side Hsalt region_length)
      end
    end.
    rewrite app_nil_r, decide_False by (intros H; by apply H).
    do 3 f_equal. f_equal.
    unfold before_status, after_status.
    rewrite !of_Z_uint16, !of_Z_uint16_high, shiftr_16_8.
    rewrite <- !app_assoc. reflexivity.
Qed.
End Handshake.

Lemma handshake_packets_witness :
  Written (Conn example_conn) = []
  ∧ ∃ cc packet,
      writeInitialHandshake (Bytes.lit "5.7.0-sharding") 0x81BEA605 33 example_conn
      = Some (cc, None)
      ∧ Written (Conn cc) = [packet]
      ∧ drop (length packet - 22) packet = AUTH_CACHING_SHA2_PASSWORD ++ [x00].
Proof.
  split; [reflexivity|].
  destruct (handshake_packets (Bytes.lit "5.7.0-sharding") 0x81BEA605 33 2
              example_region (fun n => length_replicate n x00) example_conn
              eq_refl) as (_ & H & _).
  eexists _, _. split; [exact H|]. split; reflexivity.
Defined.

(** C3, as the claim has it, fails for [writeInitialHandshakeV10]: on the
    connection of scenario 6 its packet ends with the last salt byte (19)
    and the zero byte that follows the salt, and the plugin name is not its
    suffix. *)
Lemma handshake_V10_has_no_plugin_name :
  ∃ cc packet,
    writeInitialHandshakeV10 (Bytes.lit "5.7.0-sharding") 0x81BEA605 33 2
      example_region example_conn = Some (cc, None)
    ∧ Written (Conn cc) = [packet]
    ∧ drop (length packet - 2) packet = [Bytes.of_Z 19; x00]
    ∧ bool_decide (suffix (AUTH_CACHING_SHA2_PASSWORD ++ [x00]) packet) = false.
Proof.
  eexists _, _. split; [vm_compute; reflexivity|].
  split; [reflexivity|]. split; vm_compute; reflexivity.
Qed.

End HandshakeProperties.

(** ** [Session.Clone] *)

Module SessionProperties.
Import session.

Section Heap.
Context {ExecuteOptions DbSession BindVariable : Type}.
Local Abbreviation cell := (cell ExecuteOptions DbSession BindVariable).
Local Abbreviation heap := (gmap loc cell).
Implicit Types (h : heap) (l : loc) (p : option loc) (c : cell).

Lemma alloc_fresh h c :
  ∃ l, alloc c h = Some (l, <[l := c]> h) ∧ h !! l = None.
Proof.
  exists (fresh (dom h)). split; [done|].
  apply not_elem_of_dom, is_fresh.
Qed.

Lemma bind_Some {A B} (m : M ExecuteOptions DbSession BindVariable A)
      (k : A -> M ExecuteOptions DbSession BindVariable B) h a h' :
  m h = Some (a, h') -> bind m k h = k a h'.
Proof. unfold bind. by intros ->. Qed.

Lemma load_Some h l c : h !! l = Some c -> load l h = Some (c, h).
Proof. unfold load. by intros ->. Qed.

Lemma store_Some h l c c' :
  h !! l = Some c -> store l c' h = Some (tt, <[l := c']> h).
Proof. unfold store. by intros ->. Qed.

(** Reading through a larger heap. *)
Lemma read_mono {A} h h' (get : cell -> option A) p :
  h ⊆ h' -> read h get p ≠ Bad -> read h' get p = read h get p.
Proof.
  intros Hsub. unfold read. destruct p as [l|]; [|done].
  destruct (h !! l) as [c|] eqn:E; [|done].
  by rewrite (lookup_weaken _ _ _ _ E Hsub).
Qed.

Lemma read_session_mono h h' p :
  h ⊆ h' -> read_session h p ≠ Bad -> read_session h' p = read_session h p.
Proof. apply read_mono. Qed.

Lemma read_sessions_mono h h' p :
  h ⊆ h' -> sound_sessions (read_sessions h p) ->
  read_sessions h' p = read_sessions h p.
Proof.
  intros Hsub. unfold read_sessions, read. destruct p as [l|]; [|done].
  destruct (h !! l) as [c|] eqn:E; [|done].
  rewrite (lookup_weaken _ _ _ _ E Hsub).
  destruct c; try done. simpl. intros Hs. f_equal.
  apply list_fmap_ext. intros i x Hx.
  apply read_session_mono; [done|].
  rewrite Forall_fmap in Hs. by eapply Forall_lookup_1 in Hs.
Qed.

Lemma read_variable_map_mono h h' p :
  h ⊆ h' -> sound_variables (read_variable_map h p) ->
  read_variable_map h' p = read_variable_map h p.
Proof.
  intros Hsub. unfold read_variable_map, read. destruct p as [l|]; [|done].
  destruct (h !! l) as [c|] eqn:E; [|done].
  rewrite (lookup_weaken _ _ _ _ E Hsub).
  destruct c; try done. simpl. intros Hs. f_equal.
  apply map_fmap_ext. intros k x Hx.
  apply (read_mono h h'); [done|].
  apply (Hs k). by rewrite lookup_fmap, Hx.
Qed.

Lemma entry_locs_mono h h' p :
  h ⊆ h' -> (∀ l, p = Some l -> is_Some (h !! l)) ->
  entry_locs h' p = entry_locs h p.
Proof.
  intros Hsub Hp. unfold entry_locs. destruct p as [l|]; [|done].
  destruct (Hp l eq_refl) as [c E].
  by rewrite E, (lookup_weaken _ _ _ _ E Hsub).
Qed.

Lemma copy_cell {A} (get : cell -> option A) h l c a :
  h !! l = Some c -> get c = Some a ->
  (∀ h', entry_locs (<[fresh (dom h) := c]> h') (Some (fresh (dom h))) = []) ->
  copied (λ h, read h get) h (Some l)
         (bind (alloc c) (λ l', ret (Some l')) h).
Proof.
  intros Hl Hget Hentry.
  destruct (alloc_fresh h c) as (l' & Ha & Hfresh).
  rewrite (bind_Some _ _ _ _ _ Ha). unfold ret.
  assert (l' = fresh (dom h)) as Hl' by (unfold alloc in Ha; congruence).
  exists (Some l'), (<[l' := c]> h). split; [done|]. split.
  { by apply insert_subseteq. }
  split.
  { unfold read. by rewrite lookup_insert_eq, Hl, Hget. }
  split.
  - intros l0. subst l'. rewrite Hentry, app_nil_r. simpl.
    intros ->%list_elem_of_singleton. done.
  - intros ? [= <-]. rewrite lookup_insert_eq. eauto.
Qed.

Lemma copied_nil {A} (rd : heap -> option loc -> reading A) h :
  copied rd h None (Some (None, h)).
Proof.
  exists None, h.
  split; [done|]. split; [done|]. split; [done|]. split; [|done].
  simpl. intros l Hin. by apply elem_of_nil in Hin.
Qed.

Lemma CopyArray_copied h p :
  sound (read_strings h p) -> copied read_strings h p (CopyArray p h).
Proof.
  unfold sound, read_strings, read, CopyArray. destruct p as [l|].
  - destruct (h !! l) as [c|] eqn:E; [|done].
    rewrite (bind_Some _ _ _ _ _ (load_Some _ _ _ E)).
    destruct c; try done. intros _.
    eapply (copy_cell _ _ _ _ _ E); [done|].
    intros h'. unfold entry_locs. by rewrite lookup_insert_eq.
  - intros _. apply copied_nil.
Qed.

Lemma CopyMap_copied h p :
  sound (read_string_map h p) -> copied read_string_map h p (CopyMap p h).
Proof.
  unfold sound, read_string_map, read, CopyMap. destruct p as [l|].
  - destruct (h !! l) as [c|] eqn:E; [|done].
    rewrite (bind_Some _ _ _ _ _ (load_Some _ _ _ E)).
    destruct c; try done. intros _.
    eapply (copy_cell _ _ _ _ _ E); [done|].
    intros h'. unfold entry_locs. by rewrite lookup_insert_eq.
  - intros _. apply copied_nil.
Qed.

Lemma DbSession_Clone_copied h l :
  read_session h (Some l) ≠ Bad ->
  copied read_session h (Some l) (DbSession_Clone (Some l) h).
Proof.
  unfold read_session, read, DbSession_Clone.
  destruct (h !! l) as [c|] eqn:E; [|done].
  rewrite (bind_Some _ _ _ _ _ (load_Some _ _ _ E)).
  destruct c; try done. intros _.
  eapply (copy_cell _ _ _ _ _ E); [done|].
  intros h'. unfold entry_locs. by rewrite lookup_insert_eq.
Qed.

Lemma BindVariable_Clone_copied h l :
  read_variable h (Some l) ≠ Bad ->
  copied read_variable h (Some l) (BindVariable_Clone (Some l) h).
Proof.
  unfold read_variable, read, BindVariable_Clone.
  destruct (h !! l) as [c|] eqn:E; [|done].
  rewrite (bind_Some _ _ _ _ _ (load_Some _ _ _ E)).
  destruct c; try done. intros _.
  eapply (copy_cell _ _ _ _ _ E); [done|].
  intros h'. unfold entry_locs. by rewrite lookup_insert_eq.
Qed.

Lemma cloneDbSession_copied h p :
  sound (read_session h p) -> copied read_session h p (cloneDbSession p h).
Proof.
  destruct p as [l|]; [apply DbSession_Clone_copied|].
  intros _. apply copied_nil.
Qed.

Lemma read_preserved {A} h h' dst (get : cell -> option A) p :
  (∀ l c, l ≠ dst -> h !! l = Some c -> h' !! l = Some c) ->
  p ≠ Some dst -> read h get p ≠ Bad -> read h' get p = read h get p.
Proof.
  intros Hpres Hne. unfold read. destruct p as [l|]; [|done].
  destruct (h !! l) as [c|] eqn:E; [|done].
  rewrite (Hpres l c); [done| |done]. congruence.
Qed.

Lemma Forall2_fmap_eq {A B C} (f : A -> C) (g : B -> C) (l : list A) (k : list B) :
  Forall2 (λ a b, f a = g b) l k -> f <$> l = g <$> k.
Proof. induction 1 as [|a b l k Hab _ IH]; [done|]. rewrite !fmap_cons. by rewrite Hab, IH. Qed.

Lemma DbSession_Clone_Some h l d :
  h !! l = Some (CellDbSession d) ->
  ∃ l', DbSession_Clone (Some l) h = Some (Some l', <[l' := CellDbSession d]> h)
        ∧ h !! l' = None.
Proof.
  intros E. unfold DbSession_Clone.
  rewrite (bind_Some _ _ _ _ _ (load_Some _ _ _ E)).
  destruct (alloc_fresh h (CellDbSession d)) as (l' & Ha & Hf).
  rewrite (bind_Some _ _ _ _ _ Ha). by exists l'.
Qed.

Lemma set_session_Some h dst ys i p :
  h !! dst = Some (CellDbSessions ys) ->
  (i < length ys)%nat ->
  set_session dst i p h = Some (tt, <[dst := CellDbSessions (<[i := p]> ys)]> h).
Proof.
  intros E Hi. unfold set_session.
  rewrite (bind_Some _ _ _ _ _ (load_Some _ _ _ E)).
  rewrite decide_True by done. by erewrite store_Some.
Qed.

(** One iteration of the loop over a slice of sessions: the entry, nil or
    not, is cloned and stored at its index. *)
Lemma clone_session_step h dst ys i x
      (rest : M ExecuteOptions DbSession BindVariable unit) :
  h !! dst = Some (CellDbSessions ys) ->
  (i < length ys)%nat ->
  read_session h x ≠ Bad -> x ≠ Some dst ->
  ∃ h2 p,
    bind (DbSession_Clone x)
         (λ p, bind (set_session dst i p) (λ _, rest)) h = rest h2
    ∧ h2 !! dst = Some (CellDbSessions (<[i := p]> ys))
    ∧ (∀ l c, l ≠ dst -> h !! l = Some c -> h2 !! l = Some c)
    ∧ (∀ l, h2 !! l = None -> h !! l = None)
    ∧ read_session h2 p = read_session h x
    ∧ (∀ l', p = Some l' -> h !! l' = None).
Proof.
  intros Hdst Hi Hx Hne. destruct x as [l|].
  - unfold read_session, read in Hx.
    destruct (h !! l) as [c|] eqn:E; [|done].
    destruct c as [|d| | | | |]; try done.
    destruct (DbSession_Clone_Some _ _ _ E) as (l' & Hc & Hf).
    assert (l' ≠ dst) as Hl'dst by (intros ->; congruence).
    set (h1 := <[l' := CellDbSession d]> h).
    assert (h1 !! dst = Some (CellDbSessions ys)) as Hdst1
        by (unfold h1; by rewrite lookup_insert_ne).
    exists (<[dst := CellDbSessions (<[i := Some l']> ys)]> h1), (Some l').
    split.
    { rewrite (bind_Some _ _ _ _ _ Hc).
      by rewrite (bind_Some _ _ _ _ _
                    (set_session_Some h1 dst ys i (Some l') Hdst1 Hi)). }
    split; [by rewrite lookup_insert_eq|]. split; [|split; [|split]].
    + intros l0 c Hl0 E0. rewrite lookup_insert_ne by done.
      unfold h1. rewrite lookup_insert_ne; [done|]. intros ->. congruence.
    + intros l0 Hl0.
      destruct (decide (l0 = dst)) as [->|]; [by rewrite lookup_insert_eq in Hl0|].
      rewrite lookup_insert_ne in Hl0 by done. unfold h1 in Hl0.
      destruct (decide (l0 = l')) as [->|]; [by rewrite lookup_insert_eq in Hl0|].
      by rewrite lookup_insert_ne in Hl0.
    + unfold read_session, read. rewrite lookup_insert_ne by done.
      unfold h1. by rewrite lookup_insert_eq, E.
    + by intros ? [= <-].
  - exists (<[dst := CellDbSessions (<[i := None]> ys)]> h), None.
    split.
    { unfold DbSession_Clone.
      rewrite (bind_Some _ _ _ _ _ (eq_refl : ret None h = Some (None, h))).
      by rewrite (bind_Some _ _ _ _ _ (set_session_Some h dst ys i None Hdst Hi)). }
    split; [by rewrite lookup_insert_eq|]. split; [|split; [|split]]; try done.
    + intros l0 c Hl0 E0. by rewrite lookup_insert_ne.
    + intros l0 Hl0.
      destruct (decide (l0 = dst)) as [->|]; [by rewrite lookup_insert_eq in Hl0|].
      by rewrite lookup_insert_ne in Hl0.
Qed.

Lemma cloneDbSessions_loop_spec dst (xs : list (option loc)) :
  ∀ i h ys,
    h !! dst = Some (CellDbSessions ys) ->
    (i + length xs ≤ length ys)%nat ->
    Forall (λ x, read_session h x ≠ Bad ∧ x ≠ Some dst) xs ->
    ∃ h' ps,
      cloneDbSessions_loop dst i xs h = Some (tt, h')
      ∧ h' !! dst
        = Some (CellDbSessions (take i ys ++ ps ++ drop (i + length xs) ys))
      ∧ (∀ l c, l ≠ dst -> h !! l = Some c -> h' !! l = Some c)
      ∧ Forall2 (λ p x, read_session h' p = read_session h x
                        ∧ ∀ l', p = Some l' -> h !! l' = None) ps xs.
Proof.
  induction xs as [|x xs IH]; intros i h ys Hdst Hlen Hxs.
  - simpl. exists h, []. split; [done|].
    split; [simpl; by rewrite Nat.add_0_r, take_drop|].
    split; [done|constructor].
  - apply Forall_cons in Hxs as [[Hx Hxne] Hxs]. simpl in Hlen.
    cbn [cloneDbSessions_loop].
    destruct (clone_session_step h dst ys i x
                (cloneDbSessions_loop dst (S i) xs) Hdst ltac:(lia) Hx Hxne)
      as (h2 & p0 & -> & Hdst2 & Hpres2 & Hnone2 & Hread2 & Hfresh2).
    set (ys' := <[i := p0]> ys) in *.
    destruct (IH (S i) h2 ys') as (h' & ps & Hloop & Hcell & Hpres & Hps).
    { done. }
    { unfold ys'. rewrite length_insert. lia. }
    { eapply Forall_impl; [exact Hxs|]. intros x0 [Hx0 Hne0]. split; [|done].
      unfold read_session. by rewrite (read_preserved h h2 dst). }
    exists h', (p0 :: ps). split; [done|]. split; [|split].
    + rewrite Hcell. do 2 f_equal. unfold ys'.
      rewrite (take_S_r _ _ p0) by (apply list_lookup_insert_eq; lia).
      rewrite take_insert_ge by lia.
      rewrite drop_insert_lt by lia.
      rewrite <- app_assoc. simpl.
      by replace (i + S (length xs))%nat with (S (i + length xs)) by lia.
    + intros l0 c Hne0 Hl0. by apply Hpres, Hpres2.
    + constructor.
      * split; [|done]. rewrite <- Hread2. unfold read_session.
        apply (read_preserved h2 h' dst); [done| |].
        -- intros ->. specialize (Hfresh2 dst eq_refl). congruence.
        -- fold (read_session h2 p0). by rewrite Hread2.
      * apply Forall2_same_length_lookup.
        split; [by eapply Forall2_length|]. intros j p x0 Hp Hx0.
        destruct (Forall2_lookup_lr _ _ _ _ _ _ Hps Hp Hx0) as [Hrd Hfr].
        destruct (Forall_lookup_1 _ _ _ _ Hxs Hx0) as [Hs0 Hne0].
        split.
        -- rewrite Hrd. unfold read_session.
           by apply (read_preserved h h2 dst).
        -- intros l' Hl'. by apply Hnone2, Hfr.
Qed.

Lemma cloneDbSessions_copied h p :
  sound_sessions (read_sessions h p) ->
  copied read_sessions h p (cloneDbSessions p h).
Proof.
  destruct p as [l|]; [|intros _; apply copied_nil].
  unfold read_sessions at 1, read, cloneDbSessions.
  destruct (h !! l) as [c|] eqn:E; [|done].
  rewrite (bind_Some _ _ _ _ _ (load_Some _ _ _ E)).
  destruct c as [| | | |xs| |]; try done. simpl. intros Hs.
  rewrite Forall_fmap in Hs.
  destruct (alloc_fresh h (CellDbSessions (replicate (length xs) None)))
    as (dst & Ha & Hf).
  rewrite (bind_Some _ _ _ _ _ Ha).
  set (h1 := <[dst := CellDbSessions (replicate (length xs) None)]> h).
  assert (∀ l0 c, l0 ≠ dst -> h !! l0 = Some c -> h1 !! l0 = Some c) as Hpres1.
  { intros l0 c Hl0 E0. unfold h1. by rewrite lookup_insert_ne. }
  assert (∀ x, x ∈ xs -> read_session h x ≠ Bad ∧ x ≠ Some dst) as Hxs.
  { intros x Hin. rewrite Forall_forall in Hs.
    assert (read_session h x ≠ Bad) as Hx by (by apply Hs).
    split; [done|]. intros ->. unfold read_session, read in Hx.
    by rewrite Hf in Hx. }
  destruct (cloneDbSessions_loop_spec dst xs 0 h1 (replicate (length xs) None))
    as (h' & ps & Hloop & Hcell & Hpres & Hps).
  { unfold h1. by rewrite lookup_insert_eq. }
  { rewrite length_replicate. lia. }
  { apply Forall_forall. intros x Hin. destruct (Hxs x Hin) as [Hx Hne].
    split; [|done]. unfold read_session. by rewrite (read_preserved h h1 dst). }
  rewrite (bind_Some _ _ _ _ _ Hloop). unfold ret.
  rewrite take_0, drop_ge, app_nil_r in Hcell
    by (rewrite length_replicate; lia).
  simpl in Hcell.
  assert (h ⊆ h') as Hsub.
  { apply map_subseteq_spec. intros l0 c Hl0.
    apply Hpres, Hpres1; try done; intros ->; congruence. }
  exists (Some dst), h'. split; [done|]. split; [done|]. split; [|split].
  - unfold read_sessions, read. rewrite Hcell, E. f_equal.
    apply Forall2_fmap_eq. apply Forall2_same_length_lookup.
    split; [by eapply Forall2_length|]. intros j p x Hp Hx.
    destruct (Forall2_lookup_lr _ _ _ _ _ _ Hps Hp Hx) as [Hrd _].
    destruct (Hxs x (list_elem_of_lookup_2 _ _ _ Hx)) as [Hs0 Hne0].
    rewrite Hrd. unfold read_session. by apply (read_preserved h h1 dst).
  - intros l0. unfold entry_locs. rewrite Hcell. simpl.
    rewrite elem_of_cons, list_elem_of_bind.
    intros [->|(p & Hin & Hp)]; [done|].
    apply list_elem_of_lookup in Hp as [i Hi].
    destruct (Forall2_lookup_l _ _ _ _ _ Hps Hi) as (x & _ & _ & Hnone).
    destruct p as [l'|]; [|by apply elem_of_nil in Hin].
    apply list_elem_of_singleton in Hin as ->.
    specialize (Hnone l' eq_refl). unfold h1 in Hnone.
    destruct (decide (l' = dst)) as [->|]; [by rewrite lookup_insert_eq in Hnone|].
    by rewrite lookup_insert_ne in Hnone.
  - intros ? [= <-]. rewrite Hcell. eauto.
Qed.

Lemma set_variable_Some h dst m k p :
  h !! dst = Some (CellVariableMap m) ->
  set_variable dst k p h = Some (tt, <[dst := CellVariableMap (<[k := p]> m)]> h).
Proof.
  intros E. unfold set_variable.
  rewrite (bind_Some _ _ _ _ _ (load_Some _ _ _ E)). by erewrite store_Some.
Qed.

Lemma BindVariable_Clone_Some h l b :
  h !! l = Some (CellBindVariable b) ->
  ∃ l', BindVariable_Clone (Some l) h
        = Some (Some l', <[l' := CellBindVariable b]> h)
        ∧ h !! l' = None.
Proof.
  intros E. unfold BindVariable_Clone.
  rewrite (bind_Some _ _ _ _ _ (load_Some _ _ _ E)).
  destruct (alloc_fresh h (CellBindVariable b)) as (l' & Ha & Hf).
  rewrite (bind_Some _ _ _ _ _ Ha). by exists l'.
Qed.

(** One iteration of the loop over the variables. *)
Lemma clone_variable_step h dst acc k v
      (rest : M ExecuteOptions DbSession BindVariable unit) :
  h !! dst = Some (CellVariableMap acc) ->
  read_variable h v ≠ Bad -> v ≠ Some dst ->
  ∃ h2 p,
    bind (match v with
          | None => set_variable dst k None
          | Some _ => bind (BindVariable_Clone v) (λ p, set_variable dst k p)
          end) (λ _, rest) h = rest h2
    ∧ h2 !! dst = Some (CellVariableMap (<[k := p]> acc))
    ∧ (∀ l c, l ≠ dst -> h !! l = Some c -> h2 !! l = Some c)
    ∧ (∀ l, h2 !! l = None -> h !! l = None)
    ∧ read_variable h2 p = read_variable h v
    ∧ (∀ l', p = Some l' -> h !! l' = None).
Proof.
  intros Hdst Hv Hne. destruct v as [l|].
  - unfold read_variable, read in Hv.
    destruct (h !! l) as [c|] eqn:E; [|done].
    destruct c as [| |b| | | |]; try done.
    destruct (BindVariable_Clone_Some _ _ _ E) as (l' & Hc & Hf).
    assert (l' ≠ dst) as Hl'dst by (intros ->; congruence).
    set (h1 := <[l' := CellBindVariable b]> h).
    assert (h1 !! dst = Some (CellVariableMap acc)) as Hdst1
        by (unfold h1; by rewrite lookup_insert_ne).
    exists (<[dst := CellVariableMap (<[k := Some l']> acc)]> h1), (Some l').
    split.
    { rewrite (bind_Some _ _ _ _ _
                 (eq_trans (bind_Some _ _ _ _ _ Hc)
                           (set_variable_Some _ _ _ k (Some l') Hdst1))).
      done. }
    split; [by rewrite lookup_insert_eq|]. split; [|split; [|split]].
    + intros l0 c Hl0 E0. rewrite lookup_insert_ne by done.
      unfold h1. rewrite lookup_insert_ne; [done|]. intros ->. congruence.
    + intros l0 Hl0.
      destruct (decide (l0 = dst)) as [->|]; [by rewrite lookup_insert_eq in Hl0|].
      rewrite lookup_insert_ne in Hl0 by done. unfold h1 in Hl0.
      destruct (decide (l0 = l')) as [->|]; [by rewrite lookup_insert_eq in Hl0|].
      by rewrite lookup_insert_ne in Hl0.
    + unfold read_variable, read. rewrite lookup_insert_ne by done.
      unfold h1. by rewrite lookup_insert_eq, E.
    + by intros ? [= <-].
  - exists (<[dst := CellVariableMap (<[k := None]> acc)]> h), None.
    split.
    { by rewrite (bind_Some _ _ _ _ _ (set_variable_Some _ _ _ k None Hdst)). }
    split; [by rewrite lookup_insert_eq|]. split; [|split; [|split]]; try done.
    + intros l0 c Hl0 E0. by rewrite lookup_insert_ne.
    + intros l0 Hl0.
      destruct (decide (l0 = dst)) as [->|]; [by rewrite lookup_insert_eq in Hl0|].
      by rewrite lookup_insert_ne in Hl0.
Qed.

Lemma cloneUserDefinedVariables_loop_spec dst (entries : list (string * option loc)) :
  ∀ h acc,
    h !! dst = Some (CellVariableMap acc) ->
    NoDup entries.*1 ->
    Forall (λ e, read_variable h e.2 ≠ Bad ∧ e.2 ≠ Some dst) entries ->
    ∃ h' m',
      cloneUserDefinedVariables_loop dst entries h = Some (tt, h')
      ∧ h' !! dst = Some (CellVariableMap m')
      ∧ (∀ l c, l ≠ dst -> h !! l = Some c -> h' !! l = Some c)
      ∧ ∀ k, match (list_to_map entries : gmap string (option loc)) !! k with
             | Some v =>
                 ∃ p, m' !! k = Some p
                      ∧ read_variable h' p = read_variable h v
                      ∧ (∀ l', p = Some l' -> h !! l' = None)
             | None => m' !! k = acc !! k
             end.
Proof.
  induction entries as [|[k0 v] rest IH]; intros h acc Hdst Hnd Hall.
  - exists h, acc. repeat split; try done.
  - apply NoDup_cons in Hnd as [Hk0 Hnd].
    apply Forall_cons in Hall as [[Hv Hvne] Hall]. simpl in Hv, Hvne.
    cbn [cloneUserDefinedVariables_loop].
    destruct (clone_variable_step h dst acc k0 v
                (cloneUserDefinedVariables_loop dst rest) Hdst Hv Hvne)
      as (h2 & p0 & -> & Hdst2 & Hpres2 & Hnone2 & Hread2 & Hfresh2).
    assert (Forall (λ e, read_variable h2 e.2 ≠ Bad ∧ e.2 ≠ Some dst) rest)
      as Hall2.
    { eapply Forall_impl; [exact Hall|]. intros e [He Hne]. split; [|done].
      unfold read_variable. by rewrite (read_preserved h h2 dst). }
    destruct (IH h2 _ Hdst2 Hnd Hall2) as (h' & m' & Hloop & Hcell & Hpres & Hm').
    exists h', m'. split; [done|]. split; [done|]. split.
    { intros l c Hl E. by apply Hpres, Hpres2. }
    intros k. specialize (Hm' k). simpl.
    destruct (decide (k = k0)) as [->|Hk].
    + rewrite lookup_insert_eq.
      rewrite (not_elem_of_list_to_map_1 _ _ Hk0) in Hm'.
      rewrite lookup_insert_eq in Hm'. exists p0. split; [done|]. split; [|done].
      rewrite <- Hread2. unfold read_variable.
      apply (read_preserved h2 h' dst); [done| |].
      * intros ->. specialize (Hfresh2 dst eq_refl). congruence.
      * fold (read_variable h2 p0). by rewrite Hread2.
    + rewrite lookup_insert_ne by done.
      destruct (list_to_map rest !! k) as [v'|] eqn:Ek.
      * destruct Hm' as (p & Hp & Hrd & Hfr). exists p. split; [done|].
        apply elem_of_list_to_map_2 in Ek.
        rewrite Forall_forall in Hall.
        destruct (Hall _ Ek) as [Hs Hne]. simpl in Hs, Hne.
        split.
        -- rewrite Hrd. unfold read_variable.
           by apply (read_preserved h h2 dst).
        -- intros l' Hl'. by apply Hnone2, Hfr.
      * by rewrite Hm', lookup_insert_ne.
Qed.

Lemma cloneUserDefinedVariables_copied h s :
  sound_variables (read_variable_map h (UserDefinedVariables s)) ->
  copied read_variable_map h (UserDefinedVariables s)
         (cloneUserDefinedVariables s h).
Proof.
  unfold cloneUserDefinedVariables.
  destruct (UserDefinedVariables s) as [l|]; [|intros _; apply copied_nil].
  unfold read_variable_map at 1, read.
  destruct (h !! l) as [c|] eqn:E; [|done].
  rewrite (bind_Some _ _ _ _ _ (load_Some _ _ _ E)).
  destruct c as [| | | | | |m]; try done. simpl. intros Hs.
  destruct (alloc_fresh h (CellVariableMap ∅)) as (dst & Ha & Hf).
  rewrite (bind_Some _ _ _ _ _ Ha).
  set (h1 := <[dst := CellVariableMap ∅]> h).
  assert (∀ l0 c, l0 ≠ dst -> h !! l0 = Some c -> h1 !! l0 = Some c) as Hpres1.
  { intros l0 c Hl0 E0. unfold h1. by rewrite lookup_insert_ne. }
  assert (∀ k v, m !! k = Some v ->
                 read_variable h v ≠ Bad ∧ v ≠ Some dst) as Hm.
  { intros k v Hk.
    assert (read_variable h v ≠ Bad) as Hv
        by (apply (Hs k); by rewrite lookup_fmap, Hk).
    split; [done|]. intros ->. unfold read_variable, read in Hv.
    by rewrite Hf in Hv. }
  destruct (cloneUserDefinedVariables_loop_spec dst (map_to_list m) h1 ∅)
    as (h' & m' & Hloop & Hcell & Hpres & Hm').
  { unfold h1. by rewrite lookup_insert_eq. }
  { apply NoDup_fst_map_to_list. }
  { apply Forall_forall. intros [k v] Hin%elem_of_map_to_list.
    destruct (Hm k v Hin) as [Hv Hne]. split; [|done]. simpl.
    unfold read_variable. by rewrite (read_preserved h h1 dst). }
  rewrite (bind_Some _ _ _ _ _ Hloop). unfold ret.
  assert (h ⊆ h') as Hsub.
  { apply map_subseteq_spec. intros l0 c Hl0.
    apply Hpres, Hpres1; try done; intros ->; congruence. }
  exists (Some dst), h'. split; [done|]. split; [done|]. split; [|split].
  - unfold read_variable_map, read. rewrite Hcell, E. f_equal.
    apply map_eq. intros k. rewrite !lookup_fmap.
    specialize (Hm' k). rewrite list_to_map_to_list in Hm'.
    destruct (m !! k) as [v|] eqn:Ek.
    + destruct Hm' as (p & -> & Hrd & _). simpl. f_equal. rewrite Hrd.
      destruct (Hm k v Ek) as [Hv Hne]. unfold read_variable.
      by apply (read_preserved h h1 dst).
    + by rewrite Hm', lookup_empty.
  - intros l0. unfold entry_locs. rewrite Hcell. simpl.
    rewrite elem_of_cons, list_elem_of_bind.
    intros [->|(p & Hin & Hp)]; [done|].
    apply list_elem_of_fmap in Hp as ([k p'] & -> & Hkp%elem_of_map_to_list).
    simpl in Hin. specialize (Hm' k). rewrite list_to_map_to_list in Hm'.
    destruct (m !! k) as [v|] eqn:Ek.
    + destruct Hm' as (p & Hp & _ & Hfr). rewrite Hkp in Hp.
      injection Hp as <-. destruct p' as [l'|]; [|by apply elem_of_nil in Hin].
      apply list_elem_of_singleton in Hin as ->.
      specialize (Hfr l' eq_refl). unfold h1 in Hfr.
      destruct (decide (l' = dst)) as [->|]; [by rewrite lookup_insert_eq in Hfr|].
      by rewrite lookup_insert_ne in Hfr.
    + rewrite Hm', lookup_empty in Hkp. done.
  - intros ? [= <-]. rewrite Hcell. eauto.
Qed.

(** [ops := *s.Options] and [&ops]. *)
Lemma options_copied h l :
  read_options h (Some l) ≠ Bad ->
  ∃ l' h', bind (load l)
                (λ c, match c with
                      | CellOptions o => alloc (CellOptions o)
                      | _ => panic
                      end) h = Some (l', h')
           ∧ h ⊆ h'
           ∧ read_options h' (Some l') = read_options h (Some l)
           ∧ h !! l' = None.
Proof.
  unfold read_options, read.
  destruct (h !! l) as [c|] eqn:E; [|done].
  rewrite (bind_Some _ _ _ _ _ (load_Some _ _ _ E)).
  destruct c as [o| | | | | |]; try done. intros _.
  destruct (alloc_fresh h (CellOptions o)) as (l' & Ha & Hf).
  exists l', (<[l' := CellOptions o]> h). split; [done|].
  split; [by apply insert_subseteq|]. split; [|done].
  by rewrite lookup_insert_eq.
Qed.

(** A clone operation run in a heap [h] that extends [h0], on a field that
    reads well in [h0]: what it returns reads, in every later heap, as the
    field read in [h0], and reaches nothing [h0] uses. *)
Lemma copied_step {A} (rd : heap -> option loc -> reading A)
      (good : reading A -> Prop) (op : M ExecuteOptions DbSession BindVariable (option loc))
      h0 h p :
  (∀ h h' p, h ⊆ h' -> good (rd h p) -> rd h' p = rd h p) ->
  (∀ h, good (rd h p) -> copied rd h p (op h)) ->
  h0 ⊆ h -> good (rd h0 p) ->
  ∃ p' h',
    op h = Some (p', h') ∧ h ⊆ h'
    ∧ ∀ hf, h' ⊆ hf ->
            rd hf p' = rd h0 p
            ∧ ∀ l, l ∈ field_locs p' ++ entry_locs hf p' -> h0 !! l = None.
Proof.
  intros Hmono Hop Hsub Hgood.
  assert (rd h p = rd h0 p) as Hh by (by apply Hmono).
  destruct (Hop h) as (p' & h' & Hrun & Hsub' & Hrd & Hfr & Hsome).
  { by rewrite Hh. }
  exists p', h'. split; [done|]. split; [done|]. intros hf Hf. split.
  - rewrite <- Hh, <- Hrd. apply Hmono; [done|]. by rewrite Hrd, Hh.
  - intros l Hl. rewrite (entry_locs_mono h' hf) in Hl by done.
    specialize (Hfr l Hl).
    destruct (h0 !! l) as [c|] eqn:E; [|done].
    by rewrite (lookup_weaken _ _ _ _ E Hsub) in Hfr.
Qed.

Lemma sound_mono {A} (get : cell -> option A) h h' p :
  h ⊆ h' -> sound (read h get p) -> read h' get p = read h get p.
Proof. apply read_mono. Qed.


End Heap.


End SessionProperties.

(** ** The escape tables and the SQL encoders *)

Module CodecProperties.
Import types.

(** X1.  The tables [init] builds are inverse to each other: the encode
    table holds, for every byte, what [SQLEncodeMap] says; a byte that is
    escaped is sent by [SQLEncodeMap] to a character that [SQLDecodeMap]
    sends back to it, and a character that [SQLDecodeMap] knows comes from
    the byte it gives.  Both tables have 256 entries. *)
Theorem SQLDecodeMap_reverses_SQLEncodeMap (b : byte) :
  fst init !! Z.to_nat (Bytes.val b) = Some (SQLEncodeMap b)
  ∧ (SQLEncodeMap b ≠ DontEscape -> SQLDecodeMap (SQLEncodeMap b) = b)
  ∧ (SQLDecodeMap b ≠ DontEscape -> SQLEncodeMap (SQLDecodeMap b) = b)
  ∧ length (fst init) = 256%nat ∧ length (snd init) = 256%nat.
Proof.
  destruct b; (split; [vm_compute; reflexivity|]);
    (split; [|split; [|split; vm_compute; reflexivity]]);
    vm_compute; intros H; first [reflexivity | exfalso; apply H; reflexivity].
Qed.

(** What the loop of [encodeBytesSQL] writes for one byte: the byte
    itself, which is then not a backslash, or a backslash and a character
    that [SQLDecodeMap] sends back to the byte. *)
Lemma encodeByteSQL_cases (ch : byte) :
  (encodeByteSQL ch = [ch] ∧ ch ≠ x5c ∧ SQLEncodeMap ch = DontEscape)
  ∨ (∃ m, encodeByteSQL ch = [x5c; m] ∧ SQLDecodeMap m = ch
          ∧ SQLEncodeMap ch ≠ DontEscape).
Proof.
  destruct ch;
    first [ left; split; [reflexivity|split; [discriminate|reflexivity]]
          | right; eexists; split;
            [reflexivity|split; [vm_compute; reflexivity|discriminate]] ].
Qed.

Lemma bind_nil_l {A B} (f : A -> list B) : [] ≫= f = [].
Proof. reflexivity. Qed.

Lemma encode_body_inj (v1 v2 : list byte) :
  v1 ≫= encodeByteSQL = v2 ≫= encodeByteSQL -> v1 = v2.
Proof.
  revert v2. induction v1 as [|a v1 IH]; intros [|b v2];
    rewrite ?bind_cons, ?bind_nil_l.
  - done.
  - destruct (encodeByteSQL_cases b) as [(-> & _)|(m & -> & _)]; discriminate.
  - destruct (encodeByteSQL_cases a) as [(-> & _)|(m & -> & _)]; discriminate.
  - destruct (encodeByteSQL_cases a) as [(Ea & Ha & _)|(m & Ea & Ha & _)];
      destruct (encodeByteSQL_cases b) as [(Eb & Hb & _)|(m' & Eb & Hb & _)];
      rewrite Ea, Eb; cbn [app]; intros E.
    + injection E as -> E. f_equal. by apply IH.
    + injection E as E1 E2. contradiction.
    + injection E as E1 E2. symmetry in E1. contradiction.
    + injection E as E1 E2. f_equal; [congruence|by apply IH].
Qed.

Lemma encodeBytesSQL_body (val b : list byte) :
  encodeBytesSQL val b = b ++ [x27] ++ (val ≫= encodeByteSQL) ++ [x27].
Proof.
  unfold encodeBytesSQL. rewrite ValueProperties.fold_left_app_bind.
  by rewrite <- app_assoc.
Qed.

(** X2.  [encodeBytesSQL] loses nothing: into the same writer, two byte
    strings are written as the same text only when they are the same byte
    string. *)
Theorem encodeBytesSQL_injective (v1 v2 b : list byte) :
  encodeBytesSQL v1 b = encodeBytesSQL v2 b <-> v1 = v2.
Proof.
  split; [|by intros ->].
  rewrite !encodeBytesSQL_body. intros H.
  apply app_inv_head in H. simpl in H. injection H as H.
  apply app_inv_tail in H. by apply encode_body_inj.
Qed.

Lemma well_escaped_body (val : list byte) :
  SqlText.well_escaped false (val ≫= encodeByteSQL) = true.
Proof.
  induction val as [|ch val IH]; [done|]. rewrite bind_cons.
  destruct (encodeByteSQL_cases ch) as [(-> & Hne & He)|(m & -> & _)].
  - simpl. destruct (Byte.eqb ch x5c) eqn:E.
    { apply Byte.byte_dec_bl in E. done. }
    rewrite He. simpl. exact IH.
  - simpl. exact IH.
Qed.

(** X3.  What [encodeBytesSQL] appends is a single quote, a body and a
    single quote, and the body is well escaped: read from the left with a
    backslash taking the byte after it, it holds none of the nine bytes
    the table escapes (the two quotes, the backslash, NUL, backspace, tab,
    newline, carriage return and ctl-Z) without a backslash before it, and
    it does not end on a backslash.  The body has between one and two
    bytes for each byte of the value. *)
Theorem encodeBytesSQL_well_escaped (val b : list byte) :
  ∃ body,
    encodeBytesSQL val b = b ++ [x27] ++ body ++ [x27]
    ∧ SqlText.well_escaped false body = true
    ∧ (length val ≤ length body ≤ 2 * length val)%nat.
Proof.
  exists (val ≫= encodeByteSQL). split; [apply encodeBytesSQL_body|].
  split; [apply well_escaped_body|].
  induction val as [|ch val IH]; [simpl; lia|].
  rewrite bind_cons, length_app.
  destruct (encodeByteSQL_cases ch) as [(-> & _)|(m & -> & _)]; simpl; lia.
Qed.

Lemma bits08_digits (ch : byte) :
  length (bits08 ch) = 8%nat
  ∧ Forall (fun d => d = x30 ∨ d = x31) (bits08 ch)
  ∧ SqlText.binary_value (bits08 ch) = Bytes.val ch.
Proof.
  split; [reflexivity|]. split.
  - unfold bits08. cbn [map].
    repeat (apply List.Forall_cons; [destruct (Z.testbit _ _); auto|]).
    apply List.Forall_nil.
  - destruct ch; reflexivity.
Qed.

(** X4.  [encodeBytesSQLBits] appends the letter b, a quote, eight
    characters for each byte of the value and a quote; the characters are the digits 0
    and 1, and the eight written for a byte, read as a binary number with
    the high digit first, are the byte. *)
Theorem encodeBytesSQLBits_binary (val b : list byte) :
  encodeBytesSQLBits val b
  = b ++ Bytes.lit "b'" ++ (val ≫= bits08) ++ Bytes.lit "'"
  ∧ length (val ≫= bits08) = (8 * length val)%nat
  ∧ Forall (fun d => d = x30 ∨ d = x31) (val ≫= bits08)
  ∧ forall ch, length (bits08 ch) = 8%nat
               ∧ SqlText.binary_value (bits08 ch) = Bytes.val ch.
Proof.
  split; [|split; [|split]].
  - unfold encodeBytesSQLBits. rewrite ValueProperties.fold_left_app_bind.
    by rewrite <- !app_assoc.
  - induction val as [|ch val IH]; [done|].
    rewrite bind_cons, length_app, IH. cbn [length bits08 map]. lia.
  - induction val as [|ch val IH]; [constructor|].
    rewrite bind_cons. apply Forall_app. split; [|done]. apply bits08_digits.
  - intros ch. split; apply bits08_digits.
Qed.

(** X5.  [EncodeSQL] only appends, and what it appends does not depend on
    what the writer holds already: encoding into a writer gives the writer
    followed by the encoding into an empty one.  A value of type [Null] is
    written as [null]; a value that is neither [Null], nor quoted, nor
    [Bit] is written as its bytes, untouched. *)
Theorem EncodeSQL_appends (flags : TypeFlags) (v : Value) (b : list byte) :
  EncodeSQL v b = b ++ EncodeSQL v []
  ∧ (ValueType v = Null -> EncodeSQL v b = b ++ Bytes.lit "null")
  ∧ (ValueType v ≠ Null -> IsQuoted (ValueType v) = false -> ValueType v ≠ Bit ->
     EncodeSQL v b = b ++ Val v).
Proof.
  unfold EncodeSQL. split; [|split].
  - destruct (bool_decide _); [done|].
    destruct (IsQuoted _).
    { by rewrite !encodeBytesSQL_body. }
    destruct (bool_decide _); [|done].
    unfold encodeBytesSQLBits. rewrite !ValueProperties.fold_left_app_bind.
    by rewrite <- !app_assoc.
  - intros H. by rewrite bool_decide_eq_true_2.
  - intros Hn Hq Hb. rewrite Hq. by rewrite !bool_decide_eq_false_2.
Qed.

(** X6.  [NewValue] returns either an error with [NULL], or no error with
    the value [MakeTrusted] builds from the type and the bytes it was
    given: it never changes the bytes.  For a type that is neither signed,
    unsigned, float nor [Decimal], nothing is parsed: a quoted type, [Bit]
    and [Null] are accepted whatever the bytes, every other type is
    refused. *)
Theorem NewValue_all_or_nothing (flags : TypeFlags)
        (ParseFloat_fails : list byte -> bool) (typ : MySqlType) (val : list byte) :
  match NewValue ParseFloat_fails typ val with
  | (v, None) => v = MakeTrusted typ val
  | (v, Some _) => v = NULL
  end
  ∧ (IsSigned typ = false -> IsUnsigned typ = false ->
     IsFloat typ = false -> typ ≠ Decimal ->
     NewValue ParseFloat_fails typ val
     = if IsQuoted typ || bool_decide (typ = Bit) || bool_decide (typ = Null)
       then (MakeTrusted typ val, None)
       else (NULL, Some (InvalidTypeError typ))).
Proof.
  unfold NewValue. split.
  - destruct (IsSigned typ).
    { by destruct (strconv.ParseInt val 0 64) as [? [?|]]. }
    destruct (IsUnsigned typ).
    { by destruct (strconv.ParseUint val 0 64) as [? [?|]]. }
    destruct (IsFloat typ || _); [by destruct (ParseFloat_fails val)|].
    by destruct (IsQuoted typ || _ || _).
  - intros -> -> -> Hd. by rewrite bool_decide_eq_false_2.
Qed.

End CodecProperties.

(** ** The constructors and the conversions *)

Module ConversionProperties.
Import strconv types.

(** The digit loop on a decimal numeral, whether or not underscores are
    allowed. *)
Lemma digits_decimal_any base0 d :
  forall n u,
    0 <= n -> uint_value d n <= 2 ^ 64 - 1 ->
    digits base0 10 (maxUint64 / 10 + 1) (2 ^ 64 - 1) (digits_of_uint d) n u
    = inl (uint_value d n, u).
Proof.
  induction d; intros n u Hn Hv; [reflexivity|..];
  (simpl in Hv;
   match type of Hv with
   | uint_value _ ?a <= _ =>
       pose proof (StrconvProperties.uint_value_mono d a ltac:(lia)) as Hm;
       specialize (IHd a u ltac:(lia) Hv)
   end;
   cbn [digits_of_uint digits];
   match goal with |- context [Bytes.val (Bytes.of_Z ?k)] =>
     change (Bytes.val (Bytes.of_Z k)) with k end;
   match goal with |- context [(?k =? chr "_") && base0] =>
     change ((k =? chr "_") && base0) with false end; cbv iota;
   change (chr "0") with 48; change (chr "9") with 57; cbn [Z.leb Z.compare Pos.compare Pos.compare_cont andb];
   cbv iota beta zeta).
  all: change maxUint64 with 18446744073709551615 in *;
    change (18446744073709551615 `div` 10 + 1) with 1844674407370955162 in *;
    change (2 ^ 64) with 18446744073709551616 in *;
    match goal with
    | H : uint_value _ ?a <= _ |- context [(?e) `mod` _] =>
        replace e with a by lia
    end;
    rewrite Z.mod_small by lia;
    match goal with |- context [10 <=? ?k] =>
      replace (10 <=? k) with false by (symmetry; apply Z.leb_gt; lia) end;
    match goal with |- context [1844674407370955162 <=? ?k] =>
      replace (1844674407370955162 <=? k) with false by (symmetry; apply Z.leb_gt; lia) end;
    match goal with |- context [?a <? ?b] =>
      replace (a <? b) with false by (symmetry; apply Z.ltb_ge; lia) end;
    match goal with |- context [18446744073709551616 - 1 <? ?b] =>
      replace (18446744073709551616 - 1 <? b) with false by (symmetry; apply Z.ltb_ge; lia) end;
    exact IHd.
Qed.

Lemma ParseUint_AppendUint_10 n :
  0 <= n < 2 ^ 64 -> ParseUint (AppendUint n) 10 64 = (n, None).
Proof.
  intros Hn. unfold AppendUint.
  pose proof (StrconvProperties.uint_value_to_uint (Z.to_N n)) as Hv.
  rewrite Z2N.id in Hv by lia.
  pose proof (digits_decimal_any false (N.to_uint (Z.to_N n)) 0 false
                ltac:(lia) ltac:(rewrite Hv; lia)) as L.
  unfold ParseUint.
  destruct (digits_of_uint (N.to_uint (Z.to_N n))) as [|b s] eqn:E.
  { destruct (Z.to_N n) as [|p] eqn:En; [discriminate|].
    change (N.to_uint (N.pos p)) with (Pos.to_uint p) in E.
    pose proof (StrconvProperties.to_uint_head p) as Hh.
    destruct (Pos.to_uint p); try done; discriminate. }
  change (prefix 10 (b :: s)) with (Some (10, b :: s)).
  cbv beta iota.
  change ((64 <? 0) || (64 <? 64)) with false; cbv iota.
  change (10 =? 0) with false.
  change (2 ^ (if 64 =? 0 then 64 else 64) - 1) with (2 ^ 64 - 1).
  cbv zeta. rewrite L, Hv. reflexivity.
Qed.


Lemma ParseUint_10_sign_fails b s :
  Bytes.val b = chr "+" \/ Bytes.val b = chr "-" ->
  ParseUint (b :: s) 10 64 = (0, Some ErrSyntax).
Proof.
  intros [H|H].
  - change (chr "+") with (Bytes.val x2b) in H. apply StrconvProperties.val_inj in H.
    subst. reflexivity.
  - change (chr "-") with (Bytes.val x2d) in H. apply StrconvProperties.val_inj in H.
    subst. reflexivity.
Qed.

Lemma ParseUint_10_range s u :
  ParseUint s 10 64 = (u, None) -> 0 <= u < 2 ^ 64.
Proof.
  unfold ParseUint. destruct s as [|b s]; [discriminate|].
  change (prefix 10 (b :: s)) with (Some (10, b :: s)). cbv beta iota.
  generalize (b :: s). intros s0. simpl.
  destruct (digits false 10 _ _ s0 0 false) as [[n us]|[v e]] eqn:E;
    [|discriminate].
  apply StrconvProperties.digits_bounds in E; [|lia].
  destruct (us && _); intros [= <-]. lia.
Qed.

Lemma ParseInt_10_unsigned s u :
  ParseUint s 10 64 = (u, None) ->
  ParseInt s 10 64
  = if 2 ^ 63 <=? u then (2 ^ 63 - 1, Some ErrRange) else (u, None).
Proof.
  intros H. destruct s as [|b s]; [discriminate|].
  unfold ParseInt.
  destruct (Bytes.val b =? chr "+") eqn:E1.
  { apply Z.eqb_eq in E1. rewrite ParseUint_10_sign_fails in H by auto. discriminate. }
  destruct (Bytes.val b =? chr "-") eqn:E2.
  { apply Z.eqb_eq in E2. rewrite ParseUint_10_sign_fails in H by auto. discriminate. }
  rewrite H. simpl. change (2 ^ 63) with 9223372036854775808.
  by destruct (_ <=? u).
Qed.

Lemma ParseInt_AppendInt_10 n :
  - 2 ^ 63 <= n < 2 ^ 63 -> ParseInt (AppendInt n) 10 64 = (n, None).
Proof.
  intros Hn. unfold AppendInt.
  destruct (n <? 0) eqn:E.
  - apply Z.ltb_lt in E. unfold ParseInt.
    change (Bytes.val (Bytes.of_Z 45) =? chr "+") with false.
    change (Bytes.val (Bytes.of_Z 45) =? chr "-") with true.
    cbv iota beta.
    rewrite ParseUint_AppendUint_10 by lia. cbv iota beta.
    change (2 ^ ((if 64 =? 0 then 64 else 64) - 1)) with (2 ^ 63).
    cbn [negb andb].
    replace (2 ^ 63 <? - n) with false by (symmetry; apply Z.ltb_ge; lia).
    f_equal. lia.
  - apply Z.ltb_ge in E.
    rewrite (ParseInt_10_unsigned _ n) by (apply ParseUint_AppendUint_10; lia).
    replace (2 ^ 63 <=? n) with false by (symmetry; apply Z.leb_gt; lia).
    reflexivity.
Qed.

Section Conversions.
Variable IsIntegral : MySqlType -> bool.

Lemma ToInt64_trusted typ text :
  typ ≠ Null -> typ ≠ Expression -> IsIntegral typ = true ->
  ToInt64 IsIntegral (MakeTrusted typ text)
  = match ParseInt text 10 64 with
    | (n, Some err) => (n, Some (NumError err))
    | (n, None) => (n, None)
    end.
Proof.
  intros Hn He Hi. rewrite ValueProperties.MakeTrusted_not_Null by done.
  unfold ToInt64, ToString. cbn [ValueType Val]. rewrite Hi.
  by rewrite bool_decide_eq_false_2 by done.
Qed.

Lemma ToUint64_trusted typ text :
  typ ≠ Null -> typ ≠ Expression -> IsIntegral typ = true ->
  ToUint64 IsIntegral (MakeTrusted typ text)
  = match ParseUint text 10 64 with
    | (n, Some err) => (n, Some (NumError err))
    | (n, None) => (n, None)
    end.
Proof.
  intros Hn He Hi. rewrite ValueProperties.MakeTrusted_not_Null by done.
  unfold ToUint64, ToString. cbn [ValueType Val]. rewrite Hi.
  by rewrite bool_decide_eq_false_2 by done.
Qed.

(** X7.  A value built by [NewInt64], [NewInt32] or [NewInt8] reads back
    through [ToInt64] as the number it was built from; through [ToUint64]
    it reads back as that number when the number is not negative, and is
    refused as a syntax error when it is. *)
Theorem signed_constructors_round_trip (n : Z) :
  IsIntegral Int8 = true -> IsIntegral Int32 = true -> IsIntegral Int64 = true ->
  - 2 ^ 63 <= n < 2 ^ 63 ->
  ToInt64 IsIntegral (NewInt64 n) = (n, None)
  ∧ ToInt64 IsIntegral (NewInt32 n) = (n, None)
  ∧ ToInt64 IsIntegral (NewInt8 n) = (n, None)
  ∧ ToUint64 IsIntegral (NewInt64 n)
    = if n <? 0 then (0, Some (NumError ErrSyntax)) else (n, None).
Proof.
  intros H8 H32 H64 Hn. unfold NewInt64, NewInt32, NewInt8.
  rewrite !ToInt64_trusted, ToUint64_trusted by done.
  rewrite ParseInt_AppendInt_10 by done. repeat split.
  unfold AppendInt. destruct (n <? 0) eqn:E.
  - reflexivity.
  - apply Z.ltb_ge in E. rewrite ParseUint_AppendUint_10; [done|lia].
Qed.

(** X8.  A value built by [NewUint64] or [NewUint32] reads back through
    [ToUint64] as the number it was built from; through [ToInt64] it reads
    back as that number when the number is below 2^63, and otherwise gives
    the range error with the largest signed number. *)
Theorem unsigned_constructors_round_trip (n : Z) :
  IsIntegral Uint32 = true -> IsIntegral Uint64 = true ->
  0 <= n < 2 ^ 64 ->
  ToUint64 IsIntegral (NewUint64 n) = (n, None)
  ∧ ToUint64 IsIntegral (NewUint32 n) = (n, None)
  ∧ ToInt64 IsIntegral (NewUint64 n)
    = if 2 ^ 63 <=? n then (2 ^ 63 - 1, Some (NumError ErrRange)) else (n, None).
Proof.
  intros H32 H64 Hn. unfold NewUint64, NewUint32.
  rewrite !ToUint64_trusted, ToInt64_trusted by done.
  rewrite ParseUint_AppendUint_10 by done. repeat split.
  rewrite (ParseInt_10_unsigned _ n) by (by apply ParseUint_AppendUint_10).
  by destruct (2 ^ 63 <=? n).
Qed.

(** X9.  [NewIntegral] keeps the number: when the text parses in base 0
    as a signed 64-bit integer, the value it builds reads back through
    [ToInt64] as that integer, whatever base or underscores the text used;
    when the text parses only as an unsigned integer, the value reads back
    through [ToUint64] as that integer, and [ToInt64] gives the range
    error. *)
Theorem NewIntegral_keeps_number (val : list byte) :
  IsIntegral Int64 = true -> IsIntegral Uint64 = true ->
  match ParseInt val 0 64 with
  | (i, None) =>
      ∃ v, NewIntegral val = (v, None) ∧ ToInt64 IsIntegral v = (i, None)
  | (_, Some _) =>
      match ParseUint val 0 64 with
      | (u, None) =>
          ∃ v, NewIntegral val = (v, None)
               ∧ ToUint64 IsIntegral v = (u, None)
               ∧ ToInt64 IsIntegral v = (2 ^ 63 - 1, Some (NumError ErrRange))
      | (_, Some err) => NewIntegral val = (NULL, Some (NumError err))
      end
  end.
Proof.
  intros Hi Hu. unfold NewIntegral.
  destruct (ParseInt val 0 64) as [i [e|]] eqn:Ei.
  - destruct (ParseUint val 0 64) as [u [e'|]] eqn:Eu; [done|].
    pose proof (StrconvProperties.ParseUint_range _ _ Eu) as Hr.
    rewrite (StrconvProperties.ParseInt_unsigned _ _ Eu) in Ei.
    destruct (Z.leb_spec (2 ^ 63) u) as [Hle|]; [|discriminate].
    eexists. split; [reflexivity|].
    rewrite ToUint64_trusted, ToInt64_trusted by done.
    rewrite ParseUint_AppendUint_10 by done. split; [done|].
    rewrite (ParseInt_10_unsigned _ u) by (by apply ParseUint_AppendUint_10).
    destruct (Z.leb_spec (2 ^ 63) u); [done|lia].
  - apply StrconvProperties.ParseInt_range in Ei as Hr.
    eexists. split; [reflexivity|].
    rewrite ToInt64_trusted by done.
    by rewrite ParseInt_AppendInt_10.
Qed.

(** X10.  [ToBool] answers true exactly when [ToInt64] reads 1 and false
    without an error exactly when it reads 0; a value whose type is not
    integral is refused, and among the values [NewInt64] builds only those
    of 0 and 1 are accepted, every other number giving the cast error. *)
Theorem ToBool_reads_zero_or_one (v : Value) :
  (ToBool IsIntegral v = (true, None) <-> ToInt64 IsIntegral v = (1, None))
  ∧ (ToBool IsIntegral v = (false, None) <-> ToInt64 IsIntegral v = (0, None))
  ∧ (IsIntegral (ValueType v) = false ->
     ToBool IsIntegral v = (false, Some ErrIncompatibleTypeCast))
  ∧ (forall n, IsIntegral Int64 = true -> - 2 ^ 63 <= n < 2 ^ 63 ->
     ToBool IsIntegral (NewInt64 n)
     = if n =? 0 then (false, None)
       else if n =? 1 then (true, None)
       else (false, Some ErrIncompatibleTypeCast)).
Proof.
  split; [|split; [|split]].
  - unfold ToBool. destruct (ToInt64 IsIntegral v) as [i [e|]]; [done|].
    destruct (Z.eqb_spec i 0); [split; intros; simplify_eq|].
    destruct (Z.eqb_spec i 1); split; intros; simplify_eq; done.
  - unfold ToBool. destruct (ToInt64 IsIntegral v) as [i [e|]]; [done|].
    destruct (Z.eqb_spec i 0); [split; intros; simplify_eq; done|].
    destruct (Z.eqb_spec i 1); split; intros; simplify_eq; done.
  - intros H. unfold ToBool, ToInt64. by rewrite H.
  - intros n Hi Hn. unfold ToBool, NewInt64.
    rewrite ToInt64_trusted by done. by rewrite ParseInt_AppendInt_10.
Qed.

End Conversions.

Lemma signed_constructors_round_trip_witness :
  ToInt64 spec_IsIntegral (NewInt64 (-42))
  = (-42, None).
Proof.
  exact (proj1 (signed_constructors_round_trip
                  spec_IsIntegral (-42)
                  eq_refl eq_refl eq_refl ltac:(lia))).
Defined.

Lemma unsigned_constructors_round_trip_witness :
  ToUint64 spec_IsIntegral
           (NewUint64 18446744073709551615)
  = (18446744073709551615, None).
Proof.
  exact (proj1 (unsigned_constructors_round_trip
                  spec_IsIntegral
                  18446744073709551615 eq_refl eq_refl ltac:(lia))).
Defined.

Lemma NewIntegral_keeps_number_witness :
  ∃ v, NewIntegral (Bytes.lit "0x10") = (v, None)
       ∧ ToInt64 spec_IsIntegral v
         = (16, None).
Proof.
  exact (NewIntegral_keeps_number
           spec_IsIntegral
           (Bytes.lit "0x10") eq_refl eq_refl).
Defined.

End ConversionProperties.

(** ** Reading the authentication data of a handshake response *)

Module AuthProperties.
Import mysql server.

Lemma eqb_neq (x c : byte) : x ≠ c -> Byte.eqb x c = false.
Proof.
  intros H. destruct (Byte.eqb x c) eqn:E; [|done].
  by apply Byte.byte_dec_bl in E.
Qed.

Lemma eqb_refl (c : byte) : Byte.eqb c c = true.
Proof. by apply Byte.byte_dec_lb. Qed.

Lemma IndexByte_absent (b : list byte) (c : byte) :
  c ∉ b -> Bytes.IndexByte b c = -1.
Proof.
  induction b as [|x b IH]; [done|]. intros H.
  apply not_elem_of_cons in H as [Hx Hb]. simpl.
  rewrite eqb_neq by done. by rewrite IH.
Qed.

Lemma IndexByte_found (name rest : list byte) (c : byte) :
  c ∉ name -> Bytes.IndexByte (name ++ c :: rest) c = Z.of_nat (length name).
Proof.
  induction name as [|x name IH]; intros H.
  - simpl. by rewrite eqb_refl.
  - apply not_elem_of_cons in H as [Hx Hb]. cbn [app Bytes.IndexByte].
    rewrite eqb_neq by done. rewrite IH by done.
    destruct (Z.ltb_spec (Z.of_nat (length name)) 0); [lia|].
    cbn [length]. lia.
Qed.

Lemma slice_within (pre mid rest spare : list byte) :
  Bytes.slice (pre ++ mid ++ rest) spare
              (Z.of_nat (length pre)) (Z.of_nat (length pre) + Z.of_nat (length mid))
  = Some mid.
Proof.
  unfold Bytes.slice. rewrite decide_True.
  2: { rewrite !length_app. lia. }
  f_equal. rewrite Nat2Z.id.
  replace (Z.to_nat (_ + _ - _)) with (length mid) by lia.
  rewrite <- !app_assoc, drop_app_length. by rewrite take_app_length.
Qed.

Lemma slice_from_at (pre rest : list byte) :
  Bytes.slice_from (pre ++ rest) (Z.of_nat (length pre)) = Some rest.
Proof.
  unfold Bytes.slice_from. rewrite decide_True by (rewrite length_app; lia).
  by rewrite Nat2Z.id, drop_app_length.
Qed.

Section Auth.
Variable ClientPluginAuthLenencClientData : Z.
Variable ClientSecureConnection : Z.
Variable ClientPluginAuth : Z.
Variable AUTH_NATIVE_PASSWORD : list byte.
Variable ReadLenEncStringAsBytes : list byte -> Z -> list byte * Z * bool * bool.

Local Abbreviation readPluginName :=
  (readPluginName ClientPluginAuth AUTH_NATIVE_PASSWORD).
Local Abbreviation readAuthData :=
  (readAuthData ClientPluginAuthLenencClientData ClientSecureConnection
                ReadLenEncStringAsBytes).

(** X11.  [readPluginName] without the plugin-auth capability answers
    the native plugin and leaves the position where it was, without
    looking at the packet.  With the capability, on a packet that holds at
    the position a name without a zero byte followed by a zero byte, it
    returns the name and the position of that zero byte (the terminator is
    not stepped over); when no zero byte follows the position, or the
    position is outside the packet, it panics. *)
Theorem readPluginName_reads_to_NUL (data spare : list byte) (pos capability : Z) :
  (Z.land capability ClientPluginAuth = 0 ->
   readPluginName data spare pos capability = Some (AUTH_NATIVE_PASSWORD, pos))
  ∧ (Z.land capability ClientPluginAuth ≠ 0 ->
     (forall pre name rest,
        data = pre ++ name ++ x00 :: rest -> x00 ∉ name ->
        pos = Z.of_nat (length pre) ->
        readPluginName data spare pos capability
        = Some (name, pos + Z.of_nat (length name)))
     ∧ (x00 ∉ drop (Z.to_nat pos) data ->
        readPluginName data spare pos capability = None)
     ∧ (pos < 0 ∨ Z.of_nat (length data) < pos ->
        readPluginName data spare pos capability = None)).
Proof.
  unfold server.readPluginName. split.
  - intros ->. reflexivity.
  - intros H. apply Z.eqb_neq in H. rewrite H. cbn [negb].
    split; [|split].
    + intros pre name rest -> Hname ->.
      rewrite slice_from_at. cbn [mbind option_bind].
      rewrite IndexByte_found by done.
      rewrite (slice_within pre name (x00 :: rest) spare). reflexivity.
    + intros Hno. unfold Bytes.slice_from.
      destruct (decide (0 <= pos <= _)); [|done]. cbn [mbind option_bind].
      rewrite IndexByte_absent by done.
      unfold Bytes.slice. rewrite decide_False by lia. reflexivity.
    + intros Hout. unfold Bytes.slice_from. rewrite decide_False by lia. reflexivity.
Qed.

(** X12.  [readAuthData] has three ways of reading.  With the
    length-encoded capability it passes on what [ReadLenEncStringAsBytes]
    read, turning a failed read and a NULL string into the refusal
    [(nil, 0, false)].  Otherwise, with the secure-connection capability,
    the byte at the position is a length: the bytes after it, as many as
    the length says, are returned with the position after them, and they
    are taken from the array behind the packet, so that a length that
    overruns the packet reads into the spare capacity, and panics only
    when it overruns that too.  Otherwise the data runs to the next zero
    byte, the position returned is the one after that zero byte, and a
    packet without a zero byte makes it panic. *)
Theorem readAuthData_branches (data spare : list byte) (pos capability : Z) :
  (0 < Z.land capability ClientPluginAuthLenencClientData ->
   readAuthData data spare pos capability
   = match ReadLenEncStringAsBytes data pos with
     | (authData, newPos, false, true) => Some (authData, newPos, true)
     | _ => Some ([], 0, false)
     end)
  ∧ (Z.land capability ClientPluginAuthLenencClientData <= 0 ->
     Z.land capability ClientSecureConnection ≠ 0 ->
     forall pre n tail,
       data = pre ++ n :: tail -> pos = Z.of_nat (length pre) ->
       readAuthData data spare pos capability
       = if decide (Z.to_nat (Bytes.val n) ≤ length tail + length spare)%nat
         then Some (take (Z.to_nat (Bytes.val n)) (tail ++ spare),
                    pos + 1 + Bytes.val n, true)
         else None)
  ∧ (Z.land capability ClientPluginAuthLenencClientData <= 0 ->
     Z.land capability ClientSecureConnection = 0 ->
     (forall pre auth rest,
        data = pre ++ auth ++ x00 :: rest -> x00 ∉ auth ->
        pos = Z.of_nat (length pre) ->
        readAuthData data spare pos capability
        = Some (auth, pos + Z.of_nat (length auth) + 1, true))
     ∧ (x00 ∉ drop (Z.to_nat pos) data ->
        readAuthData data spare pos capability = None)).
Proof.
  unfold server.readAuthData. split; [|split].
  - intros H. apply Z.ltb_lt in H. rewrite H.
    by destruct (ReadLenEncStringAsBytes data pos) as [[[a p] [|]] [|]].
  - intros Hl Hs pre n tail -> ->.
    replace (0 <? _) with false by (symmetry; apply Z.ltb_ge; lia).
    apply Z.eqb_neq in Hs. rewrite Hs. cbn [negb].
    unfold Bytes.index. rewrite decide_True by lia.
    rewrite Nat2Z.id, list_lookup_middle by done. cbn [mbind option_bind].
    pose proof (StrconvProperties.val_range n) as Hn.
    unfold Bytes.slice.
    destruct (decide (Z.to_nat (Bytes.val n) ≤ _)%nat) as [Hfit|Hfit].
    + rewrite decide_True.
      2: { rewrite length_app. cbn [length]. lia. }
      cbn [mbind option_bind]. do 3 f_equal.
      replace (Z.to_nat (_ + 1 + _ - _)) with (Z.to_nat (Bytes.val n)) by lia.
      replace (Z.to_nat (Z.of_nat (length pre) + 1)) with (length (pre ++ [n]))
        by (rewrite length_app; cbn [length]; lia).
      replace ((pre ++ n :: tail) ++ spare) with ((pre ++ [n]) ++ (tail ++ spare))
        by (by rewrite <- !app_assoc).
      by rewrite drop_app_length.
    + rewrite decide_False; [done|]. rewrite length_app. cbn [length]. lia.
  - intros Hl Hs.
    replace (0 <? _) with false by (symmetry; apply Z.ltb_ge; lia).
    rewrite Hs. cbn [Z.eqb negb]. split.
    + intros pre auth rest -> Hauth ->.
      rewrite slice_from_at. cbn [mbind option_bind].
      rewrite IndexByte_found by done.
      rewrite (slice_within pre auth (x00 :: rest) spare).
      cbn [mbind option_bind]. by rewrite Z.add_assoc.
    + intros Hno. unfold Bytes.slice_from.
      destruct (decide (0 <= pos <= _)); [|done]. cbn [mbind option_bind].
      rewrite IndexByte_absent by done.
      unfold Bytes.slice. rewrite decide_False by lia. reflexivity.
Qed.

End Auth.

Lemma readPluginName_reads_to_NUL_witness :
  readPluginName 0x80000 (Bytes.lit "mysql_native_password")
                 ([x01] ++ Bytes.lit "caching_sha2_password" ++ x00 :: [x02])
                 [] 1 0x80000
  = Some (Bytes.lit "caching_sha2_password", 22).
Proof.
  refine (proj1 (proj2 (readPluginName_reads_to_NUL 0x80000
                          (Bytes.lit "mysql_native_password")
                          ([x01] ++ Bytes.lit "caching_sha2_password" ++ x00 :: [x02])
                          [] 1 0x80000) _)
                [x01] (Bytes.lit "caching_sha2_password") [x02] eq_refl _ eq_refl).
  - discriminate.
  - apply (bool_decide_unpack _). vm_compute. exact I.
Defined.

Lemma readAuthData_branches_witness :
  readAuthData 0x200000 0x8000 (fun _ _ => ([], 0, false, false))
               ([x07; x03; x0a; x0b; x0c; x00]) [] 1 0x8000
  = Some ([x0a; x0b; x0c], 5, true)
  ∧ readAuthData 0x200000 0x8000 (fun _ _ => ([], 0, false, false))
                 ([x07; x03; x0a]) [x0b; x0c; x0d] 1 0x8000
    = Some ([x0a; x0b; x0c], 5, true).
Proof.
  split.
  - refine (proj1 (proj2 (readAuthData_branches 0x200000 0x8000
                            (fun _ _ => ([], 0, false, false))
                            [x07; x03; x0a; x0b; x0c; x00] [] 1 0x8000))
                  _ _ [x07] x03 [x0a; x0b; x0c; x00] eq_refl eq_refl).
    + vm_compute. discriminate.
    + discriminate.
  - refine (proj1 (proj2 (readAuthData_branches 0x200000 0x8000
                            (fun _ _ => ([], 0, false, false))
                            [x07; x03; x0a] [x0b; x0c; x0d] 1 0x8000))
                  _ _ [x07] x03 [x0a] eq_refl eq_refl).
    + vm_compute. discriminate.
    + discriminate.
Defined.

End AuthProperties.

(** ** The small packets and the edges of the handshake *)

Module PacketProperties.
Import mysql server.

Section Packets.
Variable MoreDataPacket : byte.
Variable AuthSwitchHeader : byte.
Variable region : nat -> list byte.
Hypothesis region_length : forall n, length (region n) = n.

(** X13.  The three small packet writers fill the region they ask for
    to the last byte, whatever the region held before: [writeMoreDataFlag]
    sends the more-data header and the flag; [WriteAuthSwitchRequest] sends
    the switch header, the method name, a zero byte, the salt and a zero
    byte, for a method name and a salt of any length; [writeRow] sends the
    row as it is and adds its length to the write-flow count. *)
Theorem small_packets_fill_region (cc : ClientConn) (value : byte)
        (authMethod row : list byte) (flow : Z) :
  writeMoreDataFlag MoreDataPacket region cc value
  = Some (with_conn cc (WritePacket (Conn cc) [MoreDataPacket; value]), None)
  ∧ WriteAuthSwitchRequest AuthSwitchHeader region cc authMethod
    = Some (with_conn cc
              (WritePacket (Conn cc)
                 ([AuthSwitchHeader] ++ authMethod ++ [x00] ++ salt cc ++ [x00])),
            None)
  ∧ writeRow region cc flow row
    = Some (with_conn cc (WritePacket (Conn cc) row),
            flow + Z.of_nat (length row), None).
Proof.
  split; [|split].
  - unfold writeMoreDataFlag, WriteByte.
    destruct (region 2) as [|a [|b [|c r]]] eqn:E;
      try (pose proof (region_length 2) as H; rewrite E in H; simpl in H; lia).
    reflexivity.
  - unfold WriteAuthSwitchRequest, WriteByte, WriteNullString, WriteBytes.
    match goal with |- context [write_at (region ?L) 0 ?x] =>
      change (write_at (region L) 0 x)
        with (write_at ([] ++ region L) (length (@nil byte)) x)
    end.
    repeat (rewrite HandshakeProperties.write_at_fill
              by (rewrite ?length_drop, ?region_length, ?length_app; cbn [length]; lia);
            cbn [mbind option_bind option_ret mret];
            rewrite <- ?length_app).
    match goal with |- context [WritePacket _ (?w ++ ?r)] =>
      assert (r = []) as ->
        by (apply nil_length_inv;
            rewrite ?length_drop, ?region_length, ?length_app; cbn [length]; lia)
    end.
    rewrite app_nil_r. do 3 f_equal. by rewrite <- !app_assoc.
  - unfold writeRow, copy_at. rewrite decide_True by lia.
    rewrite region_length, Nat.sub_0_r, Nat.min_id, take_0, firstn_all.
    rewrite drop_ge by (rewrite region_length; lia).
    by rewrite app_nil_r.
Qed.

End Packets.

Lemma small_packets_fill_region_witness :
  WriteAuthSwitchRequest (Bytes.of_Z 254) example_region example_conn
                         (Bytes.lit "mysql_native_password")
  = Some (with_conn example_conn
            (WritePacket (Conn example_conn)
               ([Bytes.of_Z 254] ++ Bytes.lit "mysql_native_password" ++ [x00]
                ++ salt example_conn ++ [x00])), None).
Proof.
  exact (proj1 (proj2 (small_packets_fill_region (Bytes.of_Z 1) (Bytes.of_Z 254)
                         example_region (fun n => length_replicate n x00)
                         example_conn x03 (Bytes.lit "mysql_native_password")
                         [] 0))).
Defined.

Lemma copy_at_trunc (w rest src : list byte) :
  (length rest ≤ length src)%nat ->
  copy_at (w ++ rest) (length w) src
  = Some (w ++ take (length rest) src, length rest).
Proof.
  intros H. unfold copy_at.
  rewrite decide_True by (rewrite length_app; lia).
  rewrite length_app.
  replace ((length w + length rest - length w) `min` length src)%nat
    with (length rest) by lia.
  rewrite take_app_length, drop_app_add' by done.
  by rewrite drop_all, app_nil_r.
Qed.

Section Handshake.
Variable ServerVersion : list byte.
Variable DefaultCapability : Z.
Variable DefaultCollationID : Z.
Variable initClientConnStatus : Z.
Variable region : nat -> list byte.
Hypothesis region_length : forall n, length (region n) = n.

(** X14.  [writeInitialHandshakeV10] sends a packet only for a salt of
    exactly twenty bytes.  With a salt of eight to nineteen bytes it writes
    fewer bytes than the length it reserved, returns the size error and
    sends nothing; with a salt of more than twenty bytes the copy of the
    second part stops at the end of the region and the write of the zero
    byte after it panics. *)
Theorem handshake_V10_needs_20_salt_bytes (cc : ClientConn) :
  ((8 ≤ length (salt cc) < 20)%nat ->
   writeInitialHandshakeV10 ServerVersion DefaultCapability DefaultCollationID
     initClientConnStatus region cc
   = Some (cc, Some (HandshakeSizeError
                       (length ServerVersion + 26 + length (salt cc))
                       (length ServerVersion + 46))))
  ∧ ((20 < length (salt cc))%nat ->
     writeInitialHandshakeV10 ServerVersion DefaultCapability DefaultCollationID
       initClientConnStatus region cc = None).
Proof.
  split; intros Hsalt.
  - unfold writeInitialHandshakeV10, slice_to, slice_from.
    rewrite !decide_True by lia.
    unfold WriteByte, WriteNullString, WriteUint32, WriteUint16, WriteZeroes.
    match goal with |- context [write_at (region ?L) 0 ?x] =>
      change (write_at (region L) 0 x)
        with (write_at ([] ++ region L) (length (@nil byte)) x)
    end.
    cbn [mbind option_bind].
    repeat (first [ rewrite HandshakeProperties.write_at_fill
                      by (rewrite ?length_drop, ?region_length, ?length_app,
                            ?length_take, ?length_replicate;
                          unfold LenNullString; cbn [length]; lia)
                  | rewrite HandshakeProperties.copy_at_fill
                      by (rewrite ?length_drop, ?region_length, ?length_app,
                            ?length_take, ?length_replicate;
                          unfold LenNullString; cbn [length]; lia) ];
            cbn [mbind option_bind option_ret mret];
            rewrite <- ?length_app).
    match goal with |- context [decide (length ?W ≠ length (?W ++ ?R))] =>
      assert (length W = (length ServerVersion + 26 + length (salt cc))%nat) as HW
        by (rewrite !length_app, ?length_drop, ?length_take, ?length_replicate;
            cbn [length]; lia);
      assert (length (W ++ R) = (length ServerVersion + 46)%nat) as HR
        by (rewrite !length_app, ?length_drop, ?region_length, ?length_take,
              ?length_replicate;
            unfold LenNullString; cbn [length]; lia);
      rewrite HW, HR
    end.
    by rewrite decide_True by lia.
  - unfold writeInitialHandshakeV10, slice_to, slice_from.
    rewrite !decide_True by lia.
    unfold WriteByte, WriteNullString, WriteUint32, WriteUint16, WriteZeroes.
    match goal with |- context [write_at (region ?L) 0 ?x] =>
      change (write_at (region L) 0 x)
        with (write_at ([] ++ region L) (length (@nil byte)) x)
    end.
    cbn [mbind option_bind].
    repeat (first [ rewrite HandshakeProperties.write_at_fill
                      by (rewrite ?length_drop, ?region_length, ?length_app,
                            ?length_take, ?length_replicate;
                          unfold LenNullString; cbn [length]; lia)
                  | rewrite HandshakeProperties.copy_at_fill
                      by (rewrite ?length_drop, ?region_length, ?length_app,
                            ?length_take, ?length_replicate;
                          unfold LenNullString; cbn [length]; lia) ];
            cbn [mbind option_bind option_ret mret];
            rewrite <- ?length_app).
    rewrite copy_at_trunc
      by (rewrite ?length_drop, ?region_length, ?length_app,
            ?length_take, ?length_replicate;
          unfold LenNullString; cbn [length]; lia).
    cbn [mbind option_bind option_ret mret].
    unfold write_at. rewrite decide_False; [done|].
    rewrite !length_app, ?length_drop, ?region_length, ?length_take,
      ?length_replicate.
    unfold LenNullString. cbn [length]. lia.
Qed.

Lemma drop_at (l k : list byte) (n : nat) :
  n = length l -> drop n (l ++ k) = k.
Proof. intros ->. apply drop_app_length. Qed.

Lemma take_at (l k : list byte) (n : nat) :
  n = length l -> take n (l ++ k) = l.
Proof. intros ->. apply take_app_length. Qed.

(** The bytes of a 32-bit number, low byte first, give the number back. *)
Lemma val_of_Z (z : Z) : Bytes.val (Bytes.of_Z z) = z mod 256.
Proof.
  unfold Bytes.val, Bytes.of_Z.
  assert (0 <= z mod 256 < 256) as H by (apply Z.mod_pos_bound; lia).
  destruct (Byte.of_N (Z.to_N (z mod 256))) as [b|] eqn:E.
  - apply Byte.to_of_N in E. rewrite E. lia.
  - apply Byte.of_N_None_iff in E. lia.
Qed.

(** X15.  From the packet [writeInitialHandshake] sends for a salt of at
    least eight bytes, the client gets the salt and the connection id
    back: the eight bytes after the connection id and its filler, followed
    by the bytes that come after the ten reserved zeros, are the salt; the
    four bytes after the server version, read low byte first, are the
    connection id modulo 2^32.  The packet has 48 bytes more than the
    server version and the salt, and the byte that announces the length of
    the authentication data is 21 whatever the length of the salt. *)
Theorem handshake_gives_salt_and_id (cc : ClientConn) :
  (8 ≤ length (salt cc))%nat ->
  ∃ packet,
    writeInitialHandshake ServerVersion DefaultCapability DefaultCollationID cc
    = Some (with_conn cc (WritePacket (Conn cc) packet), None)
    ∧ length packet = (length ServerVersion + length (salt cc) + 48)%nat
    ∧ take 8 (drop (length ServerVersion + 6) packet)
      ++ take (length (salt cc) - 8) (drop (length ServerVersion + 33) packet)
      = salt cc
    ∧ packet !! (length ServerVersion + 22)%nat = Some (Bytes.of_Z 21)
    ∧ ∃ b0 b1 b2 b3,
        take 4 (drop (length ServerVersion + 2) packet) = [b0; b1; b2; b3]
        ∧ Bytes.val b0 + 2 ^ 8 * Bytes.val b1 + 2 ^ 16 * Bytes.val b2
          + 2 ^ 24 * Bytes.val b3
          = GetConnectionID cc mod 2 ^ 32.
Proof.
  intros Hsalt.
  unfold writeInitialHandshake, slice_to, slice_from.
  rewrite !decide_True by lia. cbn [mbind option_bind].
  eexists. split; [reflexivity|].
  match goal with |- length ?p = _ ∧ _ => set (packet := p) end.
  set (id := GetConnectionID cc).
  set (P0 := [ProtocolVersion] ++ ServerVersion ++ [x00]).
  set (ID := [Bytes.of_Z id; Bytes.of_Z (id ≫ 8); Bytes.of_Z (id ≫ 16);
              Bytes.of_Z (id ≫ 24)]).
  set (M := [x00; Bytes.of_Z DefaultCapability; Bytes.of_Z (DefaultCapability ≫ 8);
             Bytes.of_Z DefaultCollationID; Bytes.of_Z 0; Bytes.of_Z (0 ≫ 8);
             Bytes.of_Z (DefaultCapability ≫ 16);
             Bytes.of_Z (DefaultCapability ≫ 24); Bytes.of_Z 21]
            ++ replicate 10 x00).
  set (T := [x00] ++ AUTH_CACHING_SHA2_PASSWORD ++ [x00]).
  assert (packet = P0 ++ ID ++ take 8 (salt cc) ++ M ++ drop 8 (salt cc) ++ T) as ->.
  { unfold packet, P0, ID, M, T. rewrite <- !app_assoc. reflexivity. }
  assert (length P0 = (length ServerVersion + 2)%nat) as LP0
      by (unfold P0; rewrite !length_app; cbn [length]; lia).
  assert (length (take 8 (salt cc)) = 8%nat) as LS1 by (rewrite length_take; lia).
  assert (length (drop 8 (salt cc)) = (length (salt cc) - 8)%nat) as LS2
      by (by rewrite length_drop).
  assert (length M = 19%nat) as LM by reflexivity.
  assert (length ID = 4%nat) as LID by reflexivity.
  split; [|split; [|split; [|]]].
  - rewrite !length_app, LP0, LS1, LS2, LM, LID. unfold T.
    rewrite !length_app. cbn [length]. change (length AUTH_CACHING_SHA2_PASSWORD) with 21%nat. lia.
  - rewrite (app_assoc P0 ID).
    rewrite (drop_at (P0 ++ ID)) by (rewrite length_app, LP0, LID; lia).
    rewrite take_at by done.
    rewrite (app_assoc (take 8 _) M), (app_assoc (P0 ++ ID)).
    rewrite (drop_at ((P0 ++ ID) ++ _))
      by (rewrite !length_app, LP0, LID, LS1, LM; lia).
    rewrite take_at by done.
    apply take_drop.
  - rewrite (app_assoc P0 ID), (app_assoc (P0 ++ ID)).
    rewrite lookup_app_r by (rewrite !length_app, LP0, LID, LS1; lia).
    rewrite !length_app, LP0, LID, LS1.
    replace (length ServerVersion + 22 - (length ServerVersion + 2 + 4 + 8))%nat
      with 8%nat by lia.
    reflexivity.
  - exists (Bytes.of_Z id), (Bytes.of_Z (id ≫ 8)), (Bytes.of_Z (id ≫ 16)),
      (Bytes.of_Z (id ≫ 24)).
    split.
    + rewrite (drop_at P0) by lia. by rewrite (take_at ID).
    + rewrite !val_of_Z, !Z.shiftr_div_pow2 by lia.
      change (2 ^ 8) with 256. change (2 ^ 16) with 65536.
      change (2 ^ 24) with 16777216. change (2 ^ 32) with 4294967296.
      Z.div_mod_to_equations. lia.
Qed.

End Handshake.

Lemma handshake_V10_needs_20_salt_bytes_witness :
  writeInitialHandshakeV10 (Bytes.lit "5.7.0-sharding") 0x81BEA605 33 2
    example_region
    {| Conn := Conn example_conn; salt := salt example_conn ++ [x00] |}
  = None.
Proof.
  exact (proj2 (handshake_V10_needs_20_salt_bytes
                  (Bytes.lit "5.7.0-sharding") 0x81BEA605 33 2
                  example_region (fun n => length_replicate n x00)
                  {| Conn := Conn example_conn;
                     salt := salt example_conn ++ [x00] |})
               ltac:(vm_compute; lia)).
Defined.

Lemma handshake_gives_salt_and_id_witness :
  ∃ packet,
    writeInitialHandshake (Bytes.lit "5.7.0-sharding") 0x81BEA605 33 example_conn
    = Some (with_conn example_conn (WritePacket (Conn example_conn) packet), None)
    ∧ take 8 (drop 20 packet) ++ take 12 (drop 47 packet) = salt example_conn.
Proof.
  destruct (handshake_gives_salt_and_id (Bytes.lit "5.7.0-sharding") 0x81BEA605 33
              example_conn ltac:(vm_compute; lia))
    as (packet & H & _ & Hs & _).
  exists packet. split; [exact H|exact Hs].
Defined.

End PacketProperties.

(** ** [gen]: a failed restore *)

Module GenAbortProperties.
Import gen.

Section Gen.
Context {SqlExplain genRuntime BindVariables Values error : Type}.
Variable RestoreShardingValues : SqlExplain -> BindVariables -> Values + error.
Variable len : Values -> nat.
Variable NewRuntime : string -> SqlExplain -> Values -> BindVariables
                      -> genRuntime + error.
Variable SetVars : SqlExplain -> BindVariables -> SqlExplain * option error.
Variable Next : genRuntime -> bool * genRuntime.
Variable RestoreSql : SqlExplain -> genRuntime -> (string + error) * genRuntime.
Variable currentDb : genRuntime -> string.
Variable GetCurrentBindVariables : genRuntime -> BindVariables.

Local Abbreviation gen_loop := (gen_loop Next RestoreSql currentDb GetCurrentBindVariables).
Local Abbreviation gen := (gen Next RestoreSql currentDb GetCurrentBindVariables).
Local Abbreviation run := (run Next RestoreSql currentDb GetCurrentBindVariables).
Local Abbreviation failed_run := (failed_run Next RestoreSql).
Local Abbreviation GenerateSql :=
  (GenerateSql RestoreShardingValues len NewRuntime SetVars Next RestoreSql
               currentDb GetCurrentBindVariables).

Local Abbreviation gen_loop_failed :=
  (GenProperties.gen_loop_failed Next RestoreSql currentDb GetCurrentBindVariables).
Local Abbreviation gen_loop_error :=
  (GenProperties.gen_loop_error Next RestoreSql currentDb GetCurrentBindVariables).
Local Abbreviation gen_loop_more_fuel :=
  (GenProperties.gen_loop_more_fuel Next RestoreSql currentDb GetCurrentBindVariables).

(** X16.  [gen] returns all the commands or none: when the restore of
    some shard fails, after any number of shards that were restored, [gen]
    returns that error and no command, and so does [GenerateSql]; an error
    is returned in no other way; a run that fails is not a run that
    completes; and a result, once the bound on the iterations is large
    enough to reach it, is the same for every larger bound. *)
Theorem gen_all_or_nothing (sqlExplain : SqlExplain) (runtime : genRuntime) :
  (forall k err,
     failed_run sqlExplain runtime k err ->
     forall fuel, (k < fuel)%nat -> gen fuel sqlExplain runtime = Some (inr err))
  ∧ (forall fuel err,
       gen fuel sqlExplain runtime = Some (inr err) ->
       ∃ k, (k < fuel)%nat ∧ failed_run sqlExplain runtime k err)
  ∧ (forall fuel r fuel',
       gen fuel sqlExplain runtime = Some r -> (fuel ≤ fuel')%nat ->
       gen fuel' sqlExplain runtime = Some r)
  ∧ (forall k err cmds,
       failed_run sqlExplain runtime k err -> ¬ run sqlExplain runtime cmds)
  ∧ (forall defaultDataSource expl bindVariables values k err,
       RestoreShardingValues expl bindVariables = inl values ->
       len values ≠ 0%nat ->
       NewRuntime defaultDataSource expl values bindVariables = inl runtime ->
       SetVars expl bindVariables = (sqlExplain, None) ->
       failed_run sqlExplain runtime k err ->
       forall fuel, (k < fuel)%nat ->
         GenerateSql fuel defaultDataSource expl bindVariables = Some (inr err)).
Proof.
  unfold gen.gen. split; [|split; [|split; [|split]]].
  - intros k err H fuel Hf. by eapply gen_loop_failed.
  - intros fuel err H. by eapply gen_loop_error.
  - intros fuel r fuel' H Hle. by eapply gen_loop_more_fuel.
  - intros k err cmds Hf Hr.
    pose proof (gen_loop_failed _ _ _ _ Hf (S (k + length cmds)) [] ltac:(lia)) as E1.
    pose proof (GenProperties.gen_loop_complete Next RestoreSql currentDb
                  GetCurrentBindVariables _ _ _ Hr (S (k + length cmds)) []
                  ltac:(lia)) as E2.
    rewrite E1 in E2. discriminate.
  - intros defaultDataSource expl bindVariables values k err Hv Hl Hr Hs Hf fuel Hk.
    unfold gen.GenerateSql.
    rewrite Hv. destruct (Nat.eqb_spec (len values) 0); [done|].
    rewrite Hr, Hs. unfold gen.gen. by eapply gen_loop_failed.
Qed.

End Gen.

Lemma gen_all_or_nothing_witness :
  let c0 := {| Spec.CoordDb := "ds0"; Spec.CoordSql := "SELECT * FROM orders_0";
               Spec.CoordVars := [] |} in
  let c1 := {| Spec.CoordDb := "ds1"; Spec.CoordSql := ""; Spec.CoordVars := [] |} in
  gen Spec.Next Spec.RestoreSql Spec.currentDb Spec.GetCurrentBindVariables 2
      [c0; c1] {| Spec.Pending := [c0; c1]; Spec.Current := None |}
  = Some (inr "EmptyInList"%string).
Proof.
  intros c0 c1.
  refine (proj1 (gen_all_or_nothing (Values := list Spec.Coordinate)
                   Spec.RestoreShardingValues (@List.length Spec.Coordinate)
                   Spec.NewRuntime Spec.SetVars
                   Spec.Next Spec.RestoreSql Spec.currentDb
                   Spec.GetCurrentBindVariables [c0; c1]
                   {| Spec.Pending := [c0; c1]; Spec.Current := None |})
                1%nat "EmptyInList"%string _ 2%nat _); [|lia].
  eapply failed_later; [reflexivity|reflexivity|].
  eapply failed_now; reflexivity.
Defined.

End GenAbortProperties.

(** ** The rewriters of tables, columns and conditions *)

Module RewriterProperties.
Import rewriting.

Section Rewriters.
Context {TableSource TableName ColumnNameExpr PatternInExpr BetweenExpr : Type}.
Context {ShardingTable NodeWriter ExprWriter error : Type}.
Variable Source : TableSource -> ResultSetNode TableName.
Variable PatternIn_Expr : PatternInExpr -> ExprNode ColumnNameExpr.
Variable Between_Expr : BetweenExpr -> ExprNode ColumnNameExpr.
Variable FindShardingTable
  : TableName -> Context -> ShardingTable * bool * option error.
Variable FindShardingTableByColumn
  : ColumnNameExpr -> Context -> bool -> ShardingTable * bool * option error.
Variable NewTableNameWriter : TableName -> Context -> NodeWriter + error.
Variable NewColumnNameWriter : ColumnNameExpr -> Context -> ExprWriter + error.
Variable NewPatternInWriter
  : PatternInExpr -> ShardingTable -> Context -> ExprWriter + error.
Variable NewBetweenWriter : BetweenExpr -> Context -> ExprWriter + error.

Local Abbreviation RewriteTable :=
  (RewriteTable Source FindShardingTable NewTableNameWriter).
Local Abbreviation RewriteField :=
  (RewriteField FindShardingTableByColumn NewColumnNameWriter).
Local Abbreviation RewriteColumn :=
  (RewriteColumn FindShardingTableByColumn NewColumnNameWriter).
Local Abbreviation RewritePatterIn :=
  (RewritePatterIn PatternIn_Expr FindShardingTableByColumn NewPatternInWriter).
Local Abbreviation RewriteBetween :=
  (RewriteBetween Between_Expr FindShardingTableByColumn NewBetweenWriter).

(** X17.  [RewriteTable] rewrites exactly the sharded tables: it returns
    a rewrite when, and only when, the source is a table name, the finder
    reports a sharded table for it without an error and the writer is
    built, and the rewrite then carries that writer and that table; it
    returns the None result exactly for a table name the finder reports as
    not sharded; a source that is not a table name is refused before
    anything is looked up, and an error of the finder is passed on
    whatever the finder says besides. *)
Theorem RewriteTable_only_sharded_tables (table : TableSource) (ctx : Context) :
  (forall goType,
     Source table = SourceOther goType ->
     RewriteTable table ctx = inr (TableSourceNotTableName goType))
  ∧ (forall writer sd,
       RewriteTable table ctx = inl (ResultFromNode writer sd)
       <-> ∃ tableName,
             Source table = SourceTableName tableName
             ∧ FindShardingTable tableName ctx = (sd, true, None)
             ∧ NewTableNameWriter tableName ctx = inl writer)
  ∧ (RewriteTable table ctx = inl NoneRewriteNodeResult
     <-> ∃ tableName sd,
           Source table = SourceTableName tableName
           ∧ FindShardingTable tableName ctx = (sd, false, None))
  ∧ (forall tableName sd ok fe,
       Source table = SourceTableName tableName ->
       FindShardingTable tableName ctx = (sd, ok, Some fe) ->
       RewriteTable table ctx = inr (Passed fe)).
Proof.
  unfold rewriting.RewriteTable. split; [|split; [|split]].
  - by intros goType ->.
  - intros writer sd. split.
    + destruct (Source table) as [t|ty]; [|done].
      destruct (FindShardingTable t ctx) as [[sd' ok] [fe|]] eqn:E; [done|].
      destruct ok; [|done].
      destruct (NewTableNameWriter t ctx) as [w|err] eqn:Ew; [|done].
      intros [= -> ->]. by exists t.
    + intros (t & -> & -> & ->). done.
  - split.
    + destruct (Source table) as [t|ty]; [|done].
      destruct (FindShardingTable t ctx) as [[sd' ok] [fe|]] eqn:E; [done|].
      destruct ok.
      * by destruct (NewTableNameWriter t ctx).
      * intros _. by exists t, sd'.
    + intros (t & sd & -> & ->). done.
  - intros t sd ok fe -> ->. done.
Qed.

(** X18.  The four rewriters of columns and conditions rewrite exactly
    what belongs to a sharded table: each returns a rewrite when, and only
    when, the finder reports a sharded table for the column without an
    error and the writer of the rewriter is built.  [RewriteField] asks the
    finder with the flag false and the three others with the flag true, so
    that [RewriteField] and [RewriteColumn] agree on every column the
    finder answers alike for both flags; [RewritePatterIn] and
    [RewriteBetween] refuse an expression that is not a column name. *)
Theorem column_rewriters_only_sharded_columns (ctx : Context) :
  (forall columnName writer sd,
     (RewriteField columnName ctx = inl (ResultFromExprNode writer sd)
      <-> FindShardingTableByColumn columnName ctx false = (sd, true, None)
          ∧ NewColumnNameWriter columnName ctx = inl writer)
     ∧ (RewriteColumn columnName ctx = inl (ResultFromExprNode writer sd)
        <-> FindShardingTableByColumn columnName ctx true = (sd, true, None)
            ∧ NewColumnNameWriter columnName ctx = inl writer))
  ∧ (forall patternIn writer sd,
       RewritePatterIn patternIn ctx = inl (ResultFromExprNode writer sd)
       <-> ∃ columnName,
             PatternIn_Expr patternIn = ExprColumnName columnName
             ∧ FindShardingTableByColumn columnName ctx true = (sd, true, None)
             ∧ NewPatternInWriter patternIn sd ctx = inl writer)
  ∧ (forall between writer sd,
       RewriteBetween between ctx = inl (ResultFromExprNode writer sd)
       <-> ∃ columnName,
             Between_Expr between = ExprColumnName columnName
             ∧ FindShardingTableByColumn columnName ctx true = (sd, true, None)
             ∧ NewBetweenWriter between ctx = inl writer)
  ∧ (forall patternIn goType,
       PatternIn_Expr patternIn = ExprOther goType ->
       RewritePatterIn patternIn ctx = inr PatternInRequiresColumnName)
  ∧ (forall between goType,
       Between_Expr between = ExprOther goType ->
       RewriteBetween between ctx = inr BetweenRequiresColumnName)
  ∧ (forall columnName,
       FindShardingTableByColumn columnName ctx false
       = FindShardingTableByColumn columnName ctx true ->
       RewriteField columnName ctx = RewriteColumn columnName ctx).
Proof.
  unfold rewriting.RewriteField, rewriting.RewriteColumn,
    rewriting.RewritePatterIn, rewriting.RewriteBetween.
  split; [|split; [|split; [|split; [|split; [|]]]]].
  - intros c writer sd. split; split.
    + destruct (FindShardingTableByColumn c ctx false) as [[sd' ok] [fe|]]; [done|].
      destruct ok; [|done].
      destruct (NewColumnNameWriter c ctx); [|done]. by intros [= -> ->].
    + by intros [-> ->].
    + destruct (FindShardingTableByColumn c ctx true) as [[sd' ok] [fe|]]; [done|].
      destruct ok; [|done].
      destruct (NewColumnNameWriter c ctx); [|done]. by intros [= -> ->].
    + by intros [-> ->].
  - intros p writer sd. split.
    + destruct (PatternIn_Expr p) as [c|ty]; [|done].
      destruct (FindShardingTableByColumn c ctx true) as [[sd' ok] [fe|]] eqn:E; [done|].
      destruct ok; [|done].
      destruct (NewPatternInWriter p sd' ctx) eqn:Ew; [|done].
      intros [= -> ->]. by exists c.
    + intros (c & -> & -> & ->). done.
  - intros b writer sd. split.
    + destruct (Between_Expr b) as [c|ty]; [|done].
      destruct (FindShardingTableByColumn c ctx true) as [[sd' ok] [fe|]] eqn:E; [done|].
      destruct ok; [|done].
      destruct (NewBetweenWriter b ctx) eqn:Ew; [|done].
      intros [= -> ->]. by exists c.
    + intros (c & -> & -> & ->). done.
  - by intros p ty ->.
  - by intros b ty ->.
  - by intros c ->.
Qed.

End Rewriters.

End RewriterProperties.


(** ** [Session.Clone]: the clone and the original do not meet *)

Module SessionIsolationProperties.
Import session SessionProperties.

Section Heap.
Context {ExecuteOptions DbSession BindVariable : Type}.
Local Abbreviation cell := (cell ExecuteOptions DbSession BindVariable).
Local Abbreviation heap := (gmap loc cell).
Implicit Types (h : heap) (l : loc) (p : option loc) (c : cell).

(** A session that reads well reads the same in every larger heap. *)
Lemma value_mono h h' (s : Session) :
  well_formed h s -> h ⊆ h' -> value h' s = value h s.
Proof.
  intros (Hshard & Hopt & Hsys & Hwarn & Hpre & Hpost & Hvars & Hsave & Hlock) Hsub.
  unfold value. f_equal;
    first [ by apply read_sessions_mono
          | by apply read_variable_map_mono
          | by apply read_mono ].
Qed.

(** Writing to a location a pointer does not lead to leaves what is read
    through the pointer. *)
Lemma read_frame {A} h l c (get : cell -> option A) p :
  p ≠ Some l -> read (<[l := c]> h) get p = read h get p.
Proof.
  intros Hp. unfold read. destruct p as [l0|]; [|done].
  rewrite lookup_insert_ne; [done|]. congruence.
Qed.

Lemma read_sessions_frame h l c p :
  l ∉ field_locs p ++ entry_locs h p ->
  read_sessions (<[l := c]> h) p = read_sessions h p.
Proof.
  intros Hl. apply not_elem_of_app in Hl as [Hf He].
  unfold read_sessions, read. destruct p as [l0|]; [|done].
  simpl in Hf. apply not_elem_of_cons in Hf as [Hne _].
  rewrite lookup_insert_ne by done.
  unfold entry_locs in He.
  destruct (h !! l0) as [c0|]; [|done].
  destruct c0 as [| | | |xs| |]; try done.
  f_equal. apply list_fmap_ext. intros i x Hx.
  apply read_frame. intros ->. apply He.
  apply list_elem_of_bind. exists (Some l). split; [by left|].
  by eapply list_elem_of_lookup_2.
Qed.

Lemma read_variable_map_frame h l c p :
  l ∉ field_locs p ++ entry_locs h p ->
  read_variable_map (<[l := c]> h) p = read_variable_map h p.
Proof.
  intros Hl. apply not_elem_of_app in Hl as [Hf He].
  unfold read_variable_map, read. destruct p as [l0|]; [|done].
  simpl in Hf. apply not_elem_of_cons in Hf as [Hne _].
  rewrite lookup_insert_ne by done.
  unfold entry_locs in He.
  destruct (h !! l0) as [c0|]; [|done].
  destruct c0 as [| | | | | |m]; try done.
  f_equal. apply map_fmap_ext. intros k x Hx.
  apply (read_frame h l c). intros ->. apply He.
  apply list_elem_of_bind. exists (Some l). split; [by left|].
  apply list_elem_of_fmap. exists (k, Some l). split; [done|].
  by apply elem_of_map_to_list.
Qed.

Lemma value_frame h l c (s : Session) :
  l ∉ reach h s -> value (<[l := c]> h) s = value h s.
Proof.
  unfold reach. intros Hl. apply not_elem_of_app in Hl as [Hf He].
  rewrite !bind_cons in Hf, He.
  repeat (apply not_elem_of_app in Hf as [? Hf]).
  repeat (apply not_elem_of_app in He as [? He]).
  assert (forall p, l ∉ field_locs p -> p ≠ Some l) as Hp.
  { intros p Hn ->. apply Hn. by left. }
  unfold value. f_equal;
    first [ apply read_sessions_frame; apply not_elem_of_app; by split
          | apply read_variable_map_frame; apply not_elem_of_app; by split
          | apply read_frame; by apply Hp ].
Qed.

(** What [Clone] returns lives in an extension of the heap and reaches
    only locations the heap did not use. *)
Lemma Clone_fresh h (s : Session) :
  well_formed h s -> Options s ≠ None ->
  ∃ s' h',
    Clone s h = Some (s', h')
    ∧ h ⊆ h'
    ∧ ∀ l, l ∈ reach h' s' -> h !! l = None.
Proof.
  intros (Hshard & Hopt & Hsys & Hwarn & Hpre & Hpost & Hvars & Hsave & Hlock).
  intros Hsome. destruct (Options s) as [lo|] eqn:Eo; [clear Hsome|done].
  destruct (options_copied h lo Hopt) as (ops & h1 & R1 & S1 & V1 & F1).
  destruct (copied_step read_sessions sound_sessions
              (cloneDbSessions (ShardSessions s)) h h1 (ShardSessions s)
              read_sessions_mono
              (λ h, cloneDbSessions_copied h _) S1 Hshard)
    as (shard & h2 & R2 & S2 & V2).
  assert (h ⊆ h2) as T2 by (by etransitivity).
  destruct (copied_step read_string_map sound
              (CopyMap (SystemVariables s)) h h2 (SystemVariables s)
              (sound_mono _)
              (λ h, CopyMap_copied h _) T2 Hsys)
    as (sys & h3 & R3 & S3 & V3).
  assert (h ⊆ h3) as T3 by (by etransitivity).
  destruct (copied_step read_strings sound
              (CopyArray (Warnings s)) h h3 (Warnings s)
              (sound_mono _)
              (λ h, CopyArray_copied h _) T3 Hwarn)
    as (warn & h4 & R4 & S4 & V4).
  assert (h ⊆ h4) as T4 by (by etransitivity).
  destruct (copied_step read_sessions sound_sessions
              (cloneDbSessions (PreSessions s)) h h4 (PreSessions s)
              read_sessions_mono
              (λ h, cloneDbSessions_copied h _) T4 Hpre)
    as (pre & h5 & R5 & S5 & V5).
  assert (h ⊆ h5) as T5 by (by etransitivity).
  destruct (copied_step read_sessions sound_sessions
              (cloneDbSessions (PostSessions s)) h h5 (PostSessions s)
              read_sessions_mono
              (λ h, cloneDbSessions_copied h _) T5 Hpost)
    as (post & h6 & R6 & S6 & V6).
  assert (h ⊆ h6) as T6 by (by etransitivity).
  destruct (copied_step read_variable_map sound_variables
              (cloneUserDefinedVariables s) h h6 (UserDefinedVariables s)
              read_variable_map_mono
              (λ h, cloneUserDefinedVariables_copied h s) T6 Hvars)
    as (vars & h7 & R7 & S7 & V7).
  assert (h ⊆ h7) as T7 by (by etransitivity).
  destruct (copied_step read_strings sound
              (CopyArray (SavePoints s)) h h7 (SavePoints s)
              (sound_mono _)
              (λ h, CopyArray_copied h _) T7 Hsave)
    as (save & h8 & R8 & S8 & V8).
  assert (h ⊆ h8) as T8 by (by etransitivity).
  destruct (copied_step read_session sound
              (cloneDbSession (LockSession s)) h h8 (LockSession s)
              (sound_mono _)
              (λ h, cloneDbSession_copied h _) T8 Hlock)
    as (lock & h9 & R9 & S9 & V9).
  assert (h ⊆ h9) as T9 by (by etransitivity).
  assert (h8 ⊆ h9) as U8 by done.
  assert (h7 ⊆ h9) as U7 by (by etransitivity).
  assert (h6 ⊆ h9) as U6 by (by etransitivity).
  assert (h5 ⊆ h9) as U5 by (by etransitivity).
  assert (h4 ⊆ h9) as U4 by (by etransitivity).
  assert (h3 ⊆ h9) as U3 by (by etransitivity).
  assert (h2 ⊆ h9) as U2 by (by etransitivity).
  assert (h1 ⊆ h9) as U1 by (by etransitivity).
  destruct (V2 h9 U2) as [W2 X2], (V3 h9 U3) as [W3 X3], (V4 h9 U4) as [W4 X4],
    (V5 h9 U5) as [W5 X5], (V6 h9 U6) as [W6 X6], (V7 h9 U7) as [W7 X7],
    (V8 h9 U8) as [W8 X8], (V9 h9 (reflexivity h9)) as [W9 X9].
  assert (read_options h9 (Some ops) = read_options h (Some lo)) as W1.
  { rewrite <- V1. apply read_mono; [done|].
    change (read_options h1 (Some ops) ≠ Bad). by rewrite V1. }
  eexists _, h9. split.
  { unfold Clone. rewrite Eo.
    rewrite (bind_Some _ _ _ _ _ R1), (bind_Some _ _ _ _ _ R2),
      (bind_Some _ _ _ _ _ R3), (bind_Some _ _ _ _ _ R4),
      (bind_Some _ _ _ _ _ R5), (bind_Some _ _ _ _ _ R6),
      (bind_Some _ _ _ _ _ R7), (bind_Some _ _ _ _ _ R8),
      (bind_Some _ _ _ _ _ R9).
    reflexivity. }
  split; [done|].
  intros l. unfold reach. simpl. rewrite !app_nil_r. intros Hl.
    repeat (rewrite elem_of_app in Hl || rewrite elem_of_cons in Hl).
    repeat match goal with
           | H : _ ∨ _ |- _ => destruct H as [H|H]
           end;
    first [ apply X2, elem_of_app; by auto
            | apply X3, elem_of_app; by auto
            | apply X4, elem_of_app; by auto
            | apply X5, elem_of_app; by auto
            | apply X6, elem_of_app; by auto
            | apply X7, elem_of_app; by auto
            | apply X8, elem_of_app; by auto
            | apply X9, elem_of_app; by auto
            | by subst l ].
Qed.


End Heap.


End SessionIsolationProperties.

(** ** The 7-bit encoding *)

Module AsciiProperties.
Import types.

Lemma encode_ascii (i : Z) : Bytes.val (base64.encode i) < 128.
Proof.
  unfold base64.encode.
  assert (Forall (fun c => Bytes.val c < 128) base64.encodeStd) as H.
  { unfold base64.encodeStd. apply Forall_forall. intros c Hc.
    vm_compute in Hc.
    repeat (apply elem_of_cons in Hc as [->|Hc]; [reflexivity|]).
    by apply elem_of_nil in Hc. }
  rewrite Forall_forall in H.
  destruct (nth_in_or_default (Z.to_nat i) base64.encodeStd x00) as [Hin| ->].
  - apply H. by apply list_elem_of_In.
  - reflexivity.
Qed.

Lemma Encode_spec (n : nat) :
  forall src, (length src ≤ n)%nat ->
    Forall (fun c => Bytes.val c < 128) (base64.Encode src)
    ∧ Z.of_nat (length (base64.Encode src)) = 4 * ((Z.of_nat (length src) + 2) / 3).
Proof.
  induction n as [n IH] using (well_founded_induction lt_wf).
  intros [|a [|b [|c rest]]] Hlen.
  - split; [constructor|reflexivity].
  - split; [|reflexivity].
    cbn [base64.Encode]. repeat constructor; try apply encode_ascii; reflexivity.
  - split; [|reflexivity].
    cbn [base64.Encode]. repeat constructor; try apply encode_ascii; reflexivity.
  - cbn [length] in Hlen.
    destruct (IH (length rest) ltac:(lia) rest ltac:(lia)) as [Hf Hl].
    cbn [base64.Encode]. split.
    + apply Forall_app. split; [|done]. repeat constructor; apply encode_ascii.
    + rewrite length_app. cbn [length].
      rewrite !Nat2Z.inj_add, Hl. cbn [Z.of_nat].
      replace (Z.of_nat (S (S (S (length rest)))) + 2)
        with (1 * 3 + (Z.of_nat (length rest) + 2)) by lia.
      rewrite Z.div_add_l by lia. lia.
Qed.

(** X24.  [EncodeASCII] keeps its promise of 7-bit output for the values
    it encodes itself: for a value of type [Null], of a quoted type or of
    type [Bit], every byte it writes is below 128.  A quoted or [Bit]
    value is written as a quote, the base64 text of its bytes and a quote,
    four characters for every three bytes or part of three; a value of any
    other type is written as its bytes, untouched. *)
Theorem EncodeASCII_seven_bit (flags : TypeFlags) (v : Value) (b : list byte) :
  (ValueType v = Null ∨ IsQuoted (ValueType v) = true ∨ ValueType v = Bit ->
   Forall (fun c => Bytes.val c < 128) (EncodeASCII v []))
  ∧ (ValueType v ≠ Null ->
     IsQuoted (ValueType v) = true ∨ ValueType v = Bit ->
     EncodeASCII v b = b ++ [x27] ++ base64.Encode (Val v) ++ [x27]
     ∧ Z.of_nat (length (base64.Encode (Val v)))
       = 4 * ((Z.of_nat (length (Val v)) + 2) / 3))
  ∧ (ValueType v ≠ Null -> IsQuoted (ValueType v) = false -> ValueType v ≠ Bit ->
     EncodeASCII v b = b ++ Val v).
Proof.
  unfold EncodeASCII, encodeBytesASCII.
  destruct (Encode_spec (length (Val v)) (Val v) ltac:(lia)) as [Hf Hl].
  split; [|split].
  - intros H. destruct (bool_decide (ValueType v = Null)) eqn:En.
    { cbn [app]. unfold nullstr. vm_compute. repeat constructor. }
    apply bool_decide_eq_false in En.
    destruct H as [H|[H|H]]; [done| |].
    + rewrite H. cbn [orb app]. constructor; [reflexivity|].
      apply Forall_app. split; [done|]. repeat constructor.
    + rewrite (bool_decide_eq_true_2 _ H), orb_true_r. cbn [app].
      constructor; [reflexivity|].
      apply Forall_app. split; [done|]. repeat constructor.
  - intros Hn H. rewrite bool_decide_eq_false_2 by done.
    split; [|done].
    destruct H as [H|H].
    + rewrite H. cbn [orb]. by rewrite <- app_assoc.
    + rewrite (bool_decide_eq_true_2 _ H), orb_true_r. by rewrite <- app_assoc.
  - intros Hn Hq Hb. rewrite Hq. by rewrite !bool_decide_eq_false_2.
Qed.

End AsciiProperties.

(** ** The column definition packet *)

Module ColumnProperties.
Import mysql server.

Lemma LenEncInt_length (i : Z) : length (LenEncInt i) = LenEncIntSize i.
Proof.
  unfold LenEncInt, LenEncIntSize.
  destruct (i <? 251); [done|]. destruct (i <? 2 ^ 16); [done|].
  by destruct (i <? 2 ^ 24).
Qed.

Section Packets.
Variable region : nat -> list byte.
Hypothesis region_length : forall n, length (region n) = n.

(** Writing at the end of what was written so far into a region. *)
Lemma write_at_region (w src : list byte) (n : nat) :
  (length w + length src ≤ n)%nat ->
  write_at (w ++ drop (length w) (region n)) (length w) src
  = Some ((w ++ src) ++ drop (length (w ++ src)) (region n), length (w ++ src)).
Proof.
  intros H. rewrite HandshakeProperties.write_at_fill
    by (rewrite length_drop, region_length; lia).
  by rewrite drop_drop, length_app.
Qed.

Lemma copy_at_region (w src : list byte) (n : nat) :
  (length w + length src ≤ n)%nat ->
  copy_at (w ++ drop (length w) (region n)) (length w) src
  = Some ((w ++ src) ++ drop (length (w ++ src)) (region n), length src).
Proof.
  intros H. rewrite HandshakeProperties.copy_at_fill
    by (rewrite length_drop, region_length; lia).
  by rewrite drop_drop, length_app.
Qed.

Ltac fill_side := rewrite ?length_app, ?LenEncInt_length; cbn [length]; lia.

(** X25.  [writeColumnDefinition] always fills the region it reserved to
    the last byte, so that its sanity check never fires: for every field
    it sends one packet, made of [def] and the schema, table, original
    table, name and original name, each as a length-encoded string,
    followed by 0x0c, the charset (2 bytes), the column length (4 bytes),
    the type, the flags (2 bytes), the decimals and two zero bytes, and
    adds the length of the packet to the write-flow count.
    [writeColumnCount] sends the count as a length-encoded integer and adds
    its size to the count. *)
Theorem column_definition_fills_region (cc : ClientConn) (flow : Z)
        (field : Field) (count : Z) :
  let lenenc (s : list byte) := LenEncInt (Z.of_nat (length s)) ++ s in
  let packet :=
    lenenc (Bytes.lit "def")
    ++ lenenc (Schema field) ++ lenenc (Table field) ++ lenenc (OrgTable field)
    ++ lenenc (Name field) ++ lenenc (OrgName field)
    ++ [x0c]
    ++ [Bytes.of_Z (Charset field); Bytes.of_Z (Z.shiftr (Charset field) 8)]
    ++ [Bytes.of_Z (ColumnLength field);
        Bytes.of_Z (Z.shiftr (ColumnLength field) 8);
        Bytes.of_Z (Z.shiftr (ColumnLength field) 16);
        Bytes.of_Z (Z.shiftr (ColumnLength field) 24)]
    ++ [Bytes.of_Z (Type_ field)]
    ++ [Bytes.of_Z (Flag field); Bytes.of_Z (Z.shiftr (Flag field) 8)]
    ++ [Bytes.of_Z (Decimal field)]
    ++ [x00; x00] in
  writeColumnDefinition region cc flow field
  = Some (with_conn cc (WritePacket (Conn cc) packet),
          flow + Z.of_nat (length packet), None)
  ∧ writeColumnCount region cc flow count
    = Some (with_conn cc (WritePacket (Conn cc) (LenEncInt count)),
            flow + Z.of_nat (length (LenEncInt count)), None).
Proof.
  intros lenenc packet. split.
  - unfold writeColumnDefinition.
    unfold WriteByte, WriteLenEncString, WriteLenEncInt, WriteUint32, WriteUint16.
    match goal with |- context [write_at (region ?L) 0 ?x] =>
      change (write_at (region L) 0 x)
        with (write_at ([] ++ drop (length (@nil byte)) (region L))
                       (length (@nil byte)) x)
    end.
    change (LenEncInt (Z.of_nat (length (Bytes.lit "def"))) ++ Bytes.lit "def")
      with [x03; x64; x65; x66].
    cbn [mbind option_bind].
    repeat (first [ rewrite write_at_region by fill_side
                  | rewrite copy_at_region by fill_side ];
            cbn [mbind option_bind option_ret mret];
            rewrite <- ?length_app).
    match goal with |- context [decide (length ?W ≠ length (?W ++ ?R))] =>
      assert (R = []) as ->
        by (apply drop_ge; rewrite region_length; fill_side)
    end.
    rewrite app_nil_r, decide_False by (intros H; by apply H).
    assert (forall a b : list byte, a = b ->
              Some (with_conn cc (WritePacket (Conn cc) a),
                    flow + Z.of_nat (length a), @None packing_error)
              = Some (with_conn cc (WritePacket (Conn cc) b),
                      flow + Z.of_nat (length b), None)) as Heq
        by (by intros a b ->).
    apply Heq. unfold packet, lenenc.
    change (LenEncInt (Z.of_nat (length (Bytes.lit "def"))) ++ Bytes.lit "def")
      with [x03; x64; x65; x66].
    rewrite <- !app_assoc. reflexivity.
  - unfold writeColumnCount, WriteLenEncInt, write_at.
    rewrite decide_True by (rewrite region_length, LenEncInt_length; lia).
    cbn [mbind option_bind]. rewrite take_0.
    rewrite drop_ge by (rewrite region_length, LenEncInt_length; lia).
    by rewrite app_nil_r, LenEncInt_length.
Qed.

End Packets.

Lemma column_definition_fills_region_witness :
  let field := {| Schema := Bytes.lit "shop"; Table := Bytes.lit "o";
                  OrgTable := Bytes.lit "orders"; Name := Bytes.lit "id";
                  OrgName := Bytes.lit "id"; Charset := 33; ColumnLength := 20;
                  Type_ := 8; Flag := 0x4203; Decimal := 0 |} in
  writeColumnDefinition example_region example_conn 0 field
  = Some (with_conn example_conn
            (WritePacket (Conn example_conn)
               ([x03] ++ Bytes.lit "def" ++ [x04] ++ Bytes.lit "shop"
                ++ [x01] ++ Bytes.lit "o" ++ [x06] ++ Bytes.lit "orders"
                ++ [x02] ++ Bytes.lit "id" ++ [x02] ++ Bytes.lit "id"
                ++ [x0c; x21; x00; x14; x00; x00; x00; x08; x03; x42; x00;
                    x00; x00])),
          37, None).
Proof.
  intros field.
  exact (proj1 (column_definition_fills_region example_region
                  (fun n => length_replicate n x00) example_conn 0 field 0)).
Defined.

End ColumnProperties.

(** ** The namespace service *)

Module ServiceProperties.
Import service.

(** X19.  [getCoordinatorRoot] leaves the empty cluster name empty and
    puts a slash before every other; it sends different cluster names to
    different roots, and no cluster name to the bare slash. *)
Theorem getCoordinatorRoot_injective (a b : string) :
  (getCoordinatorRoot a = getCoordinatorRoot b -> a = b)
  ∧ (getCoordinatorRoot a = "" <-> a = "")%string
  ∧ (a ≠ "" -> getCoordinatorRoot a = "/" +:+ a)%string
  ∧ getCoordinatorRoot a ≠ "/"%string
  ∧ (String.length (getCoordinatorRoot a) ≠ 1)%nat.
Proof.
  unfold getCoordinatorRoot.
  destruct a as [|x a], b as [|y b]; simpl; repeat split; try done.
  - by intros [= -> ->].
Qed.

Section Service.
Context {Namespace error : Type}.
Variable Verify : Namespace -> option error.
Variable Encrypt : Namespace -> string -> Namespace * option error.
Variable Name : Namespace -> string.
Variable StoreListNamespace : list (event Namespace) -> list string * option error.
Variable LoadNamespace
  : list (event Namespace) -> string -> string -> option Namespace * option error.
Variable UpdateNamespace : list (event Namespace) -> Namespace -> option error.
Variable StoreDelNamespace : list (event Namespace) -> string -> option error.
Variable ListProxyMonitorMetrics
  : list (event Namespace) -> list ProxyMonitorMetric * option error.
Variable PrepareConfig
  : list (event Namespace) -> string -> string -> CCConfig -> option error.
Variable CommitConfig
  : list (event Namespace) -> string -> string -> CCConfig -> option error.
Variable ProxyDelNamespace
  : list (event Namespace) -> string -> string -> CCConfig -> option error.
Variable range_order
  : list (event Namespace) -> list ProxyMonitorMetric -> list ProxyMonitorMetric.

Local Abbreviation trace := (list (event Namespace)).

(** A loop over the proxies that makes one call for each: it calls a
    prefix of them, all of them when it returns no error, and the call to
    the last of the prefix is the one that failed when it returns one. *)
Lemma for_each_calls (ev : ProxyMonitorMetric -> event Namespace)
      (answer : ProxyMonitorMetric -> trace -> option error)
      (proxies : list ProxyMonitorMetric) :
  forall tr err tr',
    for_each (fun v => call (ev v) (answer v)) proxies tr = (err, tr') ->
    ∃ i, (i ≤ length proxies)%nat
         ∧ tr' = tr ++ (ev <$> take i proxies)
         ∧ (err = None -> i = length proxies)
         ∧ (forall k v, (k < i)%nat -> proxies !! k = Some v ->
              answer v (tr ++ (ev <$> take k proxies))
              = if decide (S k = i) then err else None)
         ∧ (err ≠ None -> (0 < i)%nat).
Proof.
  induction proxies as [|v rest IH]; intros tr err tr' H; simpl in H.
  - injection H as <- <-. exists 0%nat. simpl. rewrite app_nil_r.
    repeat split; try done; try lia; intros; lia.
  - unfold bind, call in H. fold (@bind Namespace) in H.
    destruct (answer v tr) as [e|] eqn:Ea.
    + injection H as <- <-. exists 1%nat. simpl.
      repeat split; try done; try lia.
      intros k v' Hk Hv. assert (k = 0%nat) as -> by lia.
      simpl in Hv. injection Hv as <-. simpl. by rewrite app_nil_r.
    + apply IH in H as (i & Hi & -> & Hnone & Hans & Hpos).
      exists (S i). simpl. rewrite <- app_assoc. simpl.
      repeat split; try done; try lia.
      * intros E. by rewrite Hnone.
      * intros k v' Hk Hv. destruct k as [|k].
        -- simpl in Hv. injection Hv as <-. simpl. rewrite app_nil_r, Ea.
           destruct (decide (1 = S i)%nat) as [E|]; [|done].
           assert (i = 0%nat) as -> by lia.
           destruct err; [|done]. specialize (Hpos ltac:(done)). lia.
        -- simpl in Hv. specialize (Hans k v' ltac:(lia) Hv).
           rewrite <- app_assoc in Hans.
           change (take (S k) (v :: rest)) with (v :: take k rest).
           rewrite fmap_cons. change ([ev v] ++ ?x) with (ev v :: x) in Hans.
           rewrite Hans.
           destruct (decide (S k = i)), (decide (S (S k) = S i)); try done; lia.
Qed.


Local Abbreviation ModifyNamespace :=
  (ModifyNamespace Verify Encrypt Name UpdateNamespace ListProxyMonitorMetrics
                   PrepareConfig CommitConfig range_order).
Local Abbreviation DelNamespace :=
  (DelNamespace StoreDelNamespace ListProxyMonitorMetrics ProxyDelNamespace
                range_order).
Local Abbreviation QueryNamespace := (QueryNamespace LoadNamespace).
Local Abbreviation QueryNamespace_loop := (QueryNamespace_loop LoadNamespace).

(** X21.  [ModifyNamespace] is a two-phase commit.  A namespace that
    does not verify, or cannot be encrypted, is refused before the store is
    opened.  Otherwise the store is opened, the encrypted namespace is
    stored, the proxies are listed, and the store is closed on every path.
    The calls to the proxies are prepare requests to the first proxies
    the first loop visits, followed by commit requests to the first
    proxies the second loop visits: a commit request is made only when
    every proxy the first loop visits was asked to prepare and answered
    without an error, and no error is returned only when both loops went
    through.  When a loop visits every entry of the listing, a commit
    request is made only after a prepare request to every proxy of the
    listing. *)
Theorem ModifyNamespace_two_phase (namespace : Namespace) (cfg : CCConfig)
        (cluster : string) (tr : trace) err tr' :
  ModifyNamespace namespace cfg cluster tr = (err, tr') ->
  match Verify namespace, Encrypt namespace (EncryptKey cfg) with
  | Some e, _ => err = Some (VerifyNamespaceError e) ∧ tr' = tr
  | None, (_, Some e) => err = Some (EncryptNamespaceError e) ∧ tr' = tr
  | None, (ns, None) =>
      let opened := tr ++ [opening cfg cluster] in
      let updated := opened ++ [EvUpdateNamespace ns] in
      let listed := updated ++ [EvListProxy] in
      let prepare v := EvPrepareConfig (host v) (Name ns) in
      let commit v := EvCommitConfig (host v) (Name ns) in
      match UpdateNamespace opened ns, ListProxyMonitorMetrics updated with
      | Some e, _ => err = Some (Passed e) ∧ tr' = updated ++ [EvClose]
      | None, (_, Some e) => err = Some (Passed e) ∧ tr' = listed ++ [EvClose]
      | None, (proxies, None) =>
          let first := range_order listed proxies in
          ∃ i j,
            let prepared := listed ++ (prepare <$> take i first) in
            let second := range_order prepared proxies in
            tr' = prepared ++ (commit <$> take j second) ++ [EvClose]
            ∧ (i ≤ length first)%nat ∧ (j ≤ length second)%nat
            ∧ ((0 < j)%nat ->
               i = length first
               ∧ forall k v, first !! k = Some v ->
                   PrepareConfig (listed ++ (prepare <$> take k first))
                                 (host v) (Name ns) cfg = None)
            ∧ (err = None -> i = length first ∧ j = length second)
            ∧ ((forall t l, range_order t l ≡ₚ l) -> (0 < j)%nat ->
               forall p, p ∈ proxies -> prepare p ∈ tr')
      end
  end.
Proof.
  unfold service.ModifyNamespace.
  destruct (Verify namespace) as [e|]; [by intros [= <- <-]|].
  destruct (Encrypt namespace (EncryptKey cfg)) as [ns [e|]]; [by intros [= <- <-]|].
  unfold with_store, range, bind, call at 1 2 3 4.
  cbv zeta.
  destruct (UpdateNamespace (tr ++ [opening cfg cluster]) ns) as [e|].
  { by intros [= <- <-]. }
  destruct (ListProxyMonitorMetrics _) as [proxies [e|]].
  { intros [= <- <-]. by rewrite <- !app_assoc. }
  set (listed := ((tr ++ [opening cfg cluster]) ++ [EvUpdateNamespace ns])
                 ++ [EvListProxy]).
  set (first := range_order listed proxies).
  match goal with |- context [for_each ?f first ?t] =>
    destruct (for_each f first t) as [perr tr1] eqn:Ep
  end.
  apply for_each_calls in Ep as (i & Hi & -> & Hnone & Hans & Hpos).
  destruct perr as [e|].
  { intros [= <- <-]. exists i, 0%nat. simpl.
    repeat split; try done; try lia. }
  specialize (Hnone eq_refl). subst i.
  set (prepared := listed ++ _).
  set (second := range_order prepared proxies).
  match goal with |- context [for_each ?f second ?t] =>
    destruct (for_each f second t) as [cerr tr2] eqn:Ec
  end.
  apply for_each_calls in Ec as (j & Hj & -> & Hnonej & _ & _).
  assert (forall k v, first !! k = Some v ->
            PrepareConfig
              (listed
               ++ ((fun v => EvPrepareConfig (host v) (Name ns)) <$> take k first))
              (host v) (Name ns) cfg = None) as Hall.
  { intros k v Hv.
    pose proof (lookup_lt_Some _ _ _ Hv) as Hk. rewrite (Hans k v Hk Hv).
    by destruct (decide _). }
  intros H.
  assert (tr' = prepared
                ++ ((fun v => EvCommitConfig (host v) (Name ns)) <$> take j second)
                ++ [EvClose]
          ∧ (err = None -> j = length second)) as [-> Herr].
  { destruct cerr; injection H as <- <-; rewrite <- !app_assoc; split; try done.
    intros _. by apply Hnonej. }
  exists (length first), j. fold prepared. fold second.
  repeat split; try done; try lia.
  - by apply Herr.
  - intros Hperm _ p Hp. apply elem_of_app. left.
    unfold prepared. apply elem_of_app. right.
    rewrite firstn_all. apply list_elem_of_fmap. exists p. split; [done|].
    unfold first. by rewrite Hperm.
Qed.


(** X22.  [DelNamespace] deletes the namespace from the store first and
    tells the proxies afterwards, in the order its loop visits the listing,
    stopping at the first proxy that answers with an error: that error is
    returned and the proxies after it are not told.  When the store
    refuses the deletion, or the listing fails, no proxy is told.  The
    store is closed on every path. *)
Theorem DelNamespace_store_first (name : string) (cfg : CCConfig)
        (cluster : string) (tr : trace) err tr' :
  DelNamespace name cfg cluster tr = (err, tr') ->
  let opened := tr ++ [opening cfg cluster] in
  let deleted := opened ++ [EvDelNamespace name] in
  let listed := deleted ++ [EvListProxy] in
  let del v := EvProxyDelNamespace (host v) name in
  match StoreDelNamespace opened name, ListProxyMonitorMetrics deleted with
  | Some e, _ => err = Some e ∧ tr' = deleted ++ [EvClose]
  | None, (_, Some e) => err = Some e ∧ tr' = listed ++ [EvClose]
  | None, (proxies, None) =>
      let visited := range_order listed proxies in
      ∃ i,
        tr' = listed ++ (del <$> take i visited) ++ [EvClose]
        ∧ (i ≤ length visited)%nat
        ∧ (err = None -> i = length visited)
        ∧ (err ≠ None -> (0 < i)%nat)
        ∧ forall k v, (k < i)%nat -> visited !! k = Some v ->
            ProxyDelNamespace (listed ++ (del <$> take k visited)) (host v) name cfg
            = if decide (S k = i) then err else None
  end.
Proof.
  unfold service.DelNamespace, with_store, range, bind, call at 1 2 3 4. cbv zeta.
  destruct (StoreDelNamespace (tr ++ [opening cfg cluster]) name) as [e|].
  { by intros [= <- <-]. }
  destruct (ListProxyMonitorMetrics _) as [proxies [e|]].
  { intros [= <- <-]. by rewrite <- !app_assoc. }
  set (listed := ((tr ++ [opening cfg cluster]) ++ [EvDelNamespace name])
                 ++ [EvListProxy]).
  match goal with |- context [for_each ?f ?l ?t] =>
    destruct (for_each f l t) as [derr tr1] eqn:Ed
  end.
  apply for_each_calls in Ed as (i & Hi & -> & Hnone & Hans & Hpos).
  intros [= <- <-]. exists i. rewrite <- app_assoc.
  repeat split; done.
Qed.

Lemma loading_S key (names : list string) k n :
  names !! k = Some n ->
  loading key names (S k)
  = loading key names k ++ [EvLoadNamespace (Namespace := Namespace) key n].
Proof.
  intros H. unfold loading. rewrite (take_S_r _ _ _ H). by rewrite fmap_app.
Qed.

Lemma QueryNamespace_loop_spec (cfg : CCConfig) (opened : trace) (rest : list string) :
  forall (seen : list string) (acc data : list Namespace) err tr',
    length acc = length seen ->
    QueryNamespace_loop cfg rest acc
      (opened ++ loading (EncryptKey cfg) (seen ++ rest) (length seen))
    = ((data, err), tr') ->
    ∃ i, (length seen ≤ i ≤ length (seen ++ rest))%nat
         ∧ tr' = opened ++ loading (EncryptKey cfg) (seen ++ rest) i
         ∧ match err with
           | Some e =>
               data = []
               ∧ ∃ k n, i = S k ∧ (seen ++ rest) !! k = Some n
                        ∧ snd (LoadNamespace
                                 (opened ++ loading (EncryptKey cfg) (seen ++ rest) k)
                                 (EncryptKey cfg) n) = Some e
           | None =>
               ∃ new,
                 data = acc ++ new
                 ∧ (forall k ns, new !! k = Some ns ->
                      ∃ n, (seen ++ rest) !! (length seen + k)%nat = Some n
                           ∧ LoadNamespace
                               (opened ++ loading (EncryptKey cfg) (seen ++ rest)
                                                  (length seen + k))
                               (EncryptKey cfg) n = (Some ns, None))
                 ∧ ((length seen + length new)%nat = length (seen ++ rest)
                    ∧ i = length (seen ++ rest)
                    ∨ i = S (length seen + length new)
                      ∧ ∃ n, (seen ++ rest) !! (length seen + length new)%nat = Some n
                             ∧ LoadNamespace
                                 (opened ++ loading (EncryptKey cfg) (seen ++ rest)
                                                    (length seen + length new))
                                 (EncryptKey cfg) n = (None, None))
           end.
Proof.
  induction rest as [|v rest IH]; intros seen acc data err tr' Hlen H.
  - simpl in H. injection H as <- <- <-. exists (length seen).
    rewrite app_nil_r. split; [lia|]. split; [done|].
    exists []. rewrite app_nil_r. split; [done|]. split; [done|].
    left. simpl. lia.
  - assert ((seen ++ v :: rest) !! length seen = Some v) as Hv
        by (by rewrite list_lookup_middle).
    cbn [service.QueryNamespace_loop] in H. unfold bind, call at 1 in H.
    rewrite <- app_assoc, <- (loading_S _ _ _ _ Hv) in H.
    destruct (LoadNamespace _ (EncryptKey cfg) v) as [[ns|] [e|]] eqn:El.
    + injection H as <- <- <-. exists (S (length seen)).
      split; [rewrite length_app; simpl; lia|]. split; [done|]. split; [done|].
      exists (length seen), v. by rewrite El.
    + replace (seen ++ v :: rest) with ((seen ++ [v]) ++ rest) in *
        by (by rewrite <- app_assoc).
      replace (S (length seen)) with (length (seen ++ [v])) in H
        by (rewrite length_app; simpl; lia).
      apply IH in H as (i & Hi & -> & Hres); [|rewrite !length_app; simpl; lia].
      exists i. rewrite length_app in Hi. simpl in Hi.
      split; [lia|]. split; [done|].
      destruct err as [e|]; [done|].
      destruct Hres as (new & -> & Hnew & Hend).
      exists (ns :: new). rewrite <- app_assoc. split; [done|].
      rewrite length_app in Hnew, Hend. simpl in Hnew, Hend.
      split.
      * intros [|k] ns' Hk.
        -- injection Hk as <-. exists v. rewrite Nat.add_0_r. by rewrite El.
        -- simpl in Hk. destruct (Hnew k ns' Hk) as (n & Hn & Hl).
           exists n. replace (length seen + S k)%nat with (length seen + 1 + k)%nat by lia.
           done.
      * simpl. replace (length seen + S (length new))%nat
          with (length seen + 1 + length new)%nat by lia.
        done.
    + injection H as <- <- <-. exists (S (length seen)).
      split; [rewrite length_app; simpl; lia|]. split; [done|]. split; [done|].
      exists (length seen), v. by rewrite El.
    + injection H as <- <- <-. exists (S (length seen)).
      split; [rewrite length_app; simpl; lia|]. split; [done|].
      exists []. rewrite app_nil_r. split; [done|]. split; [done|].
      right. simpl. rewrite Nat.add_0_r. split; [done|]. by exists v.
Qed.

(** X20.  [QueryNamespace] loads the names in order and stops at the
    first name that is missing or fails to load.  When it returns no error,
    the namespaces it returns are those loaded for the names before the
    stop, in order: all the names, or those before the first missing one,
    the names after it not being looked at.  When a load fails, the error
    is returned and no namespace with it.  The store is closed on every
    path. *)
Theorem QueryNamespace_stops_at_first_missing (names : list string)
        (cfg : CCConfig) (cluster : string) (tr : trace) data err tr' :
  QueryNamespace names cfg cluster tr = ((data, err), tr') ->
  let key := EncryptKey cfg in
  let history k := tr ++ [opening cfg cluster] ++ loading key names k in
  ∃ i, (i ≤ length names)%nat
       ∧ tr' = history i ++ [EvClose]
       ∧ match err with
         | Some e =>
             data = []
             ∧ ∃ k n, i = S k ∧ names !! k = Some n
                      ∧ snd (LoadNamespace (history k) key n) = Some e
         | None =>
             (forall k ns, data !! k = Some ns ->
                ∃ n, names !! k = Some n
                     ∧ LoadNamespace (history k) key n = (Some ns, None))
             ∧ (length data = length names ∧ i = length names
                ∨ i = S (length data)
                  ∧ ∃ n, names !! length data = Some n
                         ∧ LoadNamespace (history (length data)) key n = (None, None))
         end.
Proof.
  unfold service.QueryNamespace, with_store, bind, call at 1 2. cbv zeta.
  destruct (QueryNamespace_loop cfg names [] _) as [[data0 err0] tr0] eqn:E.
  intros [= <- <- <-].
  pose proof (QueryNamespace_loop_spec cfg (tr ++ [opening cfg cluster]) names
                [] [] data0 err0 tr0 eq_refl) as H.
  simpl in H. unfold loading at 1 in H. rewrite take_0, fmap_nil, app_nil_r in H.
  destruct (H E) as (i & Hi & -> & Hres).
  exists i. split; [lia|]. split; [by rewrite <- !app_assoc|].
  destruct err0 as [e|].
  - destruct Hres as (-> & k & n & -> & Hn & Hl). split; [done|].
    exists k, n. by rewrite <- !app_assoc in Hl.
  - destruct Hres as (new & -> & Hnew & Hend). simpl. split.
    + intros k ns Hk. destruct (Hnew k ns Hk) as (n & Hn & Hl).
      exists n. by rewrite <- !app_assoc in Hl.
    + destruct Hend as [[? ?]|(-> & n & Hn & Hl)]; [by left|right].
      split; [done|]. exists n. by rewrite <- !app_assoc in Hl.
Qed.

End Service.

Lemma QueryNamespace_stops_at_first_missing_witness :
  QueryNamespace Example.LoadNamespace ["a"; "missing"; "b"]%string
                 Example.cfg "c1" []
  = ((["a"%string], None),
     [opening Example.cfg "c1"; EvLoadNamespace "key" "a";
      EvLoadNamespace "key" "missing"; EvClose])
  ∧ ∃ n, ["a"; "missing"; "b"]%string !! 1%nat = Some n
         ∧ Example.LoadNamespace
             ([] ++ [opening Example.cfg "c1"]
                 ++ loading "key" ["a"; "missing"; "b"]%string 1)
             "key" n = (None, None).
Proof.
  split; [reflexivity|].
  destruct (QueryNamespace_stops_at_first_missing Example.LoadNamespace
              ["a"; "missing"; "b"]%string Example.cfg "c1" [] _ _ _ eq_refl)
    as (i & _ & _ & _ & [[Hl _]|(_ & n & Hn & Hload)]).
  - discriminate Hl.
  - exists n. split; [exact Hn|exact Hload].
Defined.

Lemma ModifyNamespace_two_phase_witness :
  ∃ i j,
    snd (ModifyNamespace Example.Verify Example.Encrypt Example.Name
           Example.UpdateNamespace Example.ListProxyMonitorMetrics
           Example.PrepareConfig Example.CommitConfig Example.range_order
           "ns1"%string Example.cfg "c1" [])
    = ([opening Example.cfg "c1"; EvUpdateNamespace "ns1"%string; EvListProxy]
       ++ ((fun v => EvPrepareConfig (host v) "ns1") <$> take i Example.proxies)
       ++ ((fun v => EvCommitConfig (host v) "ns1") <$> take j Example.proxies)
       ++ [EvClose])
    ∧ j = 0%nat.
Proof.
  destruct (ModifyNamespace_two_phase Example.Verify Example.Encrypt Example.Name
              Example.UpdateNamespace Example.ListProxyMonitorMetrics
              Example.PrepareConfig Example.CommitConfig Example.range_order
              "ns1"%string Example.cfg "c1" [] _ _ eq_refl)
    as (i & j & Htr & _ & _ & Hc & _).
  exists i, j. split; [exact Htr|].
  destruct j as [|j]; [reflexivity|].
  destruct (Hc ltac:(lia)) as [_ Hall].
  specialize (Hall 1%nat _ eq_refl). discriminate Hall.
Defined.

Lemma DelNamespace_store_first_witness :
  DelNamespace Example.StoreDelNamespace Example.ListProxyMonitorMetrics
               Example.ProxyDelNamespace Example.range_order
               "ns1" Example.cfg "c1" []
  = (Some "refused"%string,
     [opening Example.cfg "c1"; EvDelNamespace "ns1"; EvListProxy;
      EvProxyDelNamespace "10.0.0.1:13307" "ns1";
      EvProxyDelNamespace "10.0.0.2:13307" "ns1"; EvClose])
  ∧ ∃ i, (0 < i ≤ 3)%nat.
Proof.
  split; [reflexivity|].
  destruct (DelNamespace_store_first Example.StoreDelNamespace
              Example.ListProxyMonitorMetrics Example.ProxyDelNamespace
              Example.range_order "ns1" Example.cfg "c1" [] _ _ eq_refl)
    as (i & _ & Hi & _ & Hpos & _).
  exists i. split; [apply Hpos; discriminate|exact Hi].
Defined.

End ServiceProperties.

(** ** The fingerprint queries *)

Module FingerprintProperties.
Import service.

Lemma fold_merge_entry (l : list (string * string)) :
  forall r : gmap string string,
    fold_left merge_entry l r = list_to_map (reverse l) ∪ r.
Proof.
  induction l as [|[k v] l IH]; intros r.
  - rewrite reverse_nil. cbn [fold_left list_to_map foldr]. by rewrite (left_id_L ∅ (∪) r).
  - cbn [fold_left]. rewrite IH, reverse_cons, list_to_map_app.
    cbn [list_to_map foldr]. unfold merge_entry. cbn [fst snd uncurry].
    rewrite <- (assoc_L (∪)). f_equal.
    rewrite insert_union_singleton_l.
    by rewrite insert_empty.
Qed.

Lemma fold_merge_sql (l : list (option ProxySQLFingerprint)) :
  forall acc k v,
    (fst (fold_left merge_sql l acc) !! k = Some v ->
     fst acc !! k = Some v ∨ ∃ r, Some r ∈ l ∧ SlowSQL r !! k = Some v)
    ∧ (snd (fold_left merge_sql l acc) !! k = Some v ->
       snd acc !! k = Some v ∨ ∃ r, Some r ∈ l ∧ ErrorSQL r !! k = Some v).
Proof.
  induction l as [|[r|] l IH]; intros acc k v; simpl.
  - split; auto.
  - destruct (IH (SlowSQL r ∪ fst acc, ErrorSQL r ∪ snd acc) k v) as [H1 H2].
    split.
    + intros H. destruct (H1 H) as [Hu|(r' & Hin & Hr')].
      * simpl in Hu. apply lookup_union_Some_raw in Hu as [Hu|[_ Hu]]; [|by left].
        right. exists r. split; [by left|done].
      * right. exists r'. split; [by right|done].
    + intros H. destruct (H2 H) as [Hu|(r' & Hin & Hr')].
      * simpl in Hu. apply lookup_union_Some_raw in Hu as [Hu|[_ Hu]]; [|by left].
        right. exists r. split; [by left|done].
      * right. exists r'. split; [by right|done].
  - destruct (IH acc k v) as [H1 H2]. split.
    + intros H. destruct (H1 H) as [Hu|(r' & Hin & Hr')]; [by left|].
      right. exists r'. split; [by right|done].
    + intros H. destruct (H2 H) as [Hu|(r' & Hin & Hr')]; [by left|].
      right. exists r'. split; [by right|done].
Qed.

Lemma fold_merge_sql_dom (l : list (option ProxySQLFingerprint)) :
  forall acc r k,
    Some r ∈ l ->
    (is_Some (SlowSQL r !! k) -> is_Some (fst (fold_left merge_sql l acc) !! k))
    ∧ (is_Some (ErrorSQL r !! k) -> is_Some (snd (fold_left merge_sql l acc) !! k)).
Proof.
  assert (forall l acc k,
            (is_Some (fst acc !! k) -> is_Some (fst (fold_left merge_sql l acc) !! k))
            ∧ (is_Some (snd acc !! k) -> is_Some (snd (fold_left merge_sql l acc) !! k)))
    as Hkeep.
  { induction l0 as [|[r|] l0 IH]; intros acc k; simpl; [done| |apply IH].
    destruct (IH (SlowSQL r ∪ fst acc, ErrorSQL r ∪ snd acc) k) as [H1 H2].
    split; intros H; [apply H1|apply H2]; simpl;
      apply lookup_union_is_Some; by right. }
  induction l as [|x l IH]; intros acc r k Hin.
  - by apply elem_of_nil in Hin.
  - apply elem_of_cons in Hin as [<-|Hin].
    + simpl.
      destruct (Hkeep l (SlowSQL r ∪ fst acc, ErrorSQL r ∪ snd acc) k) as [H1 H2].
      split; intros H; [apply H1|apply H2]; simpl;
        apply lookup_union_is_Some; by left.
    + simpl. by apply IH.
Qed.

Section Service.
Context {Namespace error : Type}.
Variable ListProxyMonitorMetrics
  : list (event Namespace) -> list ProxyMonitorMetric * option error.
Variable range_order
  : list (event Namespace) -> list ProxyMonitorMetric -> list ProxyMonitorMetric.
Variable QueryProxyConfigFingerprint
  : nat -> string -> CCConfig -> string * option error.
Variable QueryNamespaceSQLFingerprint
  : nat -> string -> string -> CCConfig
    -> option ProxySQLFingerprint * option error.

Local Abbreviation config_answers := (config_answers QueryProxyConfigFingerprint).
Local Abbreviation sql_answers := (sql_answers QueryNamespaceSQLFingerprint).

Lemma config_answers_hosts cfg proxies :
  (config_answers cfg proxies).*1 = host <$> proxies.
Proof.
  unfold service.config_answers. rewrite fmap_imap.
  transitivity (imap (fun _ => host) proxies); [by apply imap_ext|].
  apply imap_const.
Qed.

(** X26.  The two fingerprint functions give answers that do not depend
    on the order in which the goroutines send theirs, as far as the keys
    go.  When the listing fails they return its error and nothing else.
    Otherwise they return no error, whatever the queries returned.
    [ProxyConfigFingerprint] returns a map with exactly the hosts of the
    proxies its loop visits as keys (the hosts of the listing, when the
    loop visits every entry), a proxy whose query failed included; each
    value is what the query of a proxy with that host returned, and when
    no two proxies have the same host the map is the same for every
    order.
    [SQLFingerprint] returns maps in which every entry comes from the
    answer of some proxy, and in which every key of every answer
    appears. *)
Theorem fingerprints_in_any_order (name : string) (cfg : CCConfig)
        (cluster : string) (tr : list (event Namespace)) :
  (forall r err,
     ProxyConfigFingerprint_returns ListProxyMonitorMetrics range_order
       QueryProxyConfigFingerprint cfg cluster tr (r, err) ->
     match ListProxyMonitorMetrics (tr ++ [opening cfg cluster]) with
     | (_, Some e) => r = ∅ ∧ err = Some e
     | (proxies, None) =>
         let visited :=
           range_order (tr ++ [opening cfg cluster; EvListProxy]) proxies in
         err = None
         ∧ dom r = list_to_set (host <$> visited)
         ∧ ((forall t l, range_order t l ≡ₚ l) ->
            dom r = list_to_set (host <$> proxies))
         ∧ (forall h md5, r !! h = Some md5 ->
              ∃ i p, visited !! i = Some p ∧ host p = h
                     ∧ fst (QueryProxyConfigFingerprint i h cfg) = md5)
         ∧ (NoDup (host <$> visited) ->
            r = list_to_map (config_answers cfg visited))
     end)
  ∧ (forall slow errs err,
       SQLFingerprint_returns ListProxyMonitorMetrics range_order
         QueryNamespaceSQLFingerprint name cfg cluster tr (slow, errs, err) ->
       match ListProxyMonitorMetrics (tr ++ [opening cfg cluster]) with
       | (_, Some e) => slow = ∅ ∧ errs = ∅ ∧ err = Some e
       | (proxies, None) =>
           let visited :=
             range_order (tr ++ [opening cfg cluster; EvListProxy]) proxies in
           err = None
           ∧ (forall k v, slow !! k = Some v ->
                ∃ i p r, visited !! i = Some p
                         ∧ fst (QueryNamespaceSQLFingerprint i (host p) name cfg)
                           = Some r
                         ∧ SlowSQL r !! k = Some v)
           ∧ (forall k v, errs !! k = Some v ->
                ∃ i p r, visited !! i = Some p
                         ∧ fst (QueryNamespaceSQLFingerprint i (host p) name cfg)
                           = Some r
                         ∧ ErrorSQL r !! k = Some v)
           ∧ (forall i p r k,
                visited !! i = Some p ->
                fst (QueryNamespaceSQLFingerprint i (host p) name cfg) = Some r ->
                (is_Some (SlowSQL r !! k) -> is_Some (slow !! k))
                ∧ (is_Some (ErrorSQL r !! k) -> is_Some (errs !! k)))
       end).
Proof.
  set (visited := range_order (tr ++ [opening cfg cluster; EvListProxy])).
  split.
  - intros r err H. inversion H as [proxies e Hl|proxies arrived Hl Hperm]; subst.
    + by rewrite Hl.
    + rewrite Hl. cbv zeta. fold visited in Hperm |- *. split; [done|].
      rewrite fold_merge_entry, (right_id_L ∅ (∪)).
      assert (reverse arrived ≡ₚ config_answers cfg (visited proxies)) as Hp
          by (by rewrite reverse_Permutation).
      assert (dom (list_to_map (reverse arrived) : gmap string string)
              = list_to_set (host <$> visited proxies)) as Hdom.
      { rewrite dom_list_to_map_L. rewrite Hp. by rewrite config_answers_hosts. }
      split; [done|]. split; [|split].
      * intros Hall. rewrite Hdom. unfold visited. by rewrite Hall.
      * intros h md5 Hh. apply elem_of_list_to_map_2 in Hh.
        rewrite Hp in Hh. unfold service.config_answers in Hh.
        apply list_elem_of_lookup in Hh as [i Hi].
        rewrite list_lookup_imap in Hi.
        destruct (visited proxies !! i) as [p|] eqn:Ep; [|done].
        simpl in Hi. injection Hi as <- <-. by exists i, p.
      * intros Hnd. apply list_to_map_proper; [|done].
        rewrite Hp. by rewrite config_answers_hosts.
  - intros slow errs err H.
    inversion H as [proxies e Hl|proxies arrived Hl Hperm]; subst.
    + by rewrite Hl.
    + rewrite Hl. cbv zeta. fold visited in Hperm |- *. split; [done|].
      assert (forall r, Some r ∈ arrived <->
                ∃ i p, visited proxies !! i = Some p
                       ∧ fst (QueryNamespaceSQLFingerprint i (host p) name cfg)
                         = Some r) as Hin.
      { intros r. rewrite Hperm. unfold service.sql_answers.
        rewrite list_elem_of_lookup. split.
        - intros [i Hi]. rewrite list_lookup_imap in Hi.
          destruct (visited proxies !! i) as [p|] eqn:Ep; [|done].
          simpl in Hi. injection Hi as Hi. by exists i, p.
        - intros (i & p & Hp & Hr). exists i.
          rewrite list_lookup_imap, Hp. simpl. by rewrite Hr. }
      match goal with H : fold_left _ _ _ = _ |- _ => rename H into Hf end.
      assert (slow = fst (fold_left merge_sql arrived (∅, ∅))) as ->
          by (by rewrite Hf).
      assert (errs = snd (fold_left merge_sql arrived (∅, ∅))) as ->
          by (by rewrite Hf).
      split; [|split].
      * intros k v Hk.
        destruct (proj1 (fold_merge_sql arrived (∅, ∅) k v) Hk)
          as [He|(r & Hr & Hlk)]; [simpl in He; by rewrite lookup_empty in He|].
        apply Hin in Hr as (i & p & Hp & Hq). by exists i, p, r.
      * intros k v Hk.
        destruct (proj2 (fold_merge_sql arrived (∅, ∅) k v) Hk)
          as [He|(r & Hr & Hlk)]; [simpl in He; by rewrite lookup_empty in He|].
        apply Hin in Hr as (i & p & Hp & Hq). by exists i, p, r.
      * intros i p r k Hp Hq.
        apply fold_merge_sql_dom. apply Hin. by exists i, p.
Qed.

End Service.

Lemma fingerprints_in_any_order_witness :
  ∃ r,
    ProxyConfigFingerprint_returns Example.ListProxyMonitorMetrics
      Example.range_order
      Example.QueryProxyConfigFingerprint Example.cfg "c1" [] (r, None)
    ∧ r = list_to_map (config_answers Example.QueryProxyConfigFingerprint
                                      Example.cfg Example.proxies).
Proof.
  assert (ProxyConfigFingerprint_returns Example.ListProxyMonitorMetrics
            Example.range_order
            Example.QueryProxyConfigFingerprint Example.cfg "c1" []
            (fold_left merge_entry
               (reverse (config_answers Example.QueryProxyConfigFingerprint
                                        Example.cfg Example.proxies)) ∅, None))
    as Hret.
  { eapply config_merged; [reflexivity|]. apply reverse_Permutation. }
  eexists. split; [exact Hret|].
  destruct (proj1 (fingerprints_in_any_order Example.ListProxyMonitorMetrics
                     Example.range_order
                     Example.QueryProxyConfigFingerprint
                     (fun _ _ _ _ => (None, None)) "ns1" Example.cfg "c1" [])
                  _ _ Hret) as (_ & _ & _ & _ & Hnd).
  apply Hnd. apply (bool_decide_unpack _). vm_compute. exact I.
Defined.

End FingerprintProperties.
